(** * L1-cache-benchmark: the latency prober of [hw-1/main.cpp]

    A shallow embedding of the pattern generators, the timed reader, the
    sweep driver, the printing of the table, [log2] and [main], followed by
    the properties of the design document that can be stated over them and
    by further properties of the same functions.  [deltaDiff], which
    nothing calls and which computes in floating point, is left out.

    The file has three parts: the embedding of the source, the vocabulary
    in which the properties are stated, and the lemmas and theorems.

    Conventions.
    - [uint32_t] values are integers of [Z] kept in [0, 2^32); every
      arithmetic operation of the source is written with its wrap-around
      (module [U32]).
    - The global state of the program (the [array] pointer and the block it
      points to, [arrayLen], the engine [gen], the two output streams) is a
      record [world]; a function of the source is a computation of the
      monad [M], which threads the world and stops on [std::exit], on an
      undefined access, or when a loop is cut off.
    - The world also carries an observation trace: one event per store to
      and load from the buffer, per [aligned_alloc] and [free] of the
      buffer, per shuffle, clock reading and timed-reader call, in program
      order.  Claims about what is read, written or called are stated on
      this trace.
    - A [std::vector] of the source is a list, a value of the model: its
      storage is not part of the world and leaves no event.  The only
      allocation and release the world records are [aligned_alloc] and
      [free] of the backing buffer.
    - What the C++ library leaves to the implementation (the engine, the
      permutation chosen by [std::shuffle], the readings of the steady
      clock, the contents of fresh memory) is an interface, [Platform],
      with the guarantees of the standard as [PlatformLaws]. *)

From Stdlib Require Import String Ascii.
From Stdlib Require Import ZArith List Lia Permutation Bool Arith.
From Stdlib Require Import DecimalString DecimalPos NArith.
Import ListNotations.
Local Open Scope Z_scope.

(** ** 32-bit unsigned arithmetic *)

Module U32.
Definition modulus : Z := 2 ^ 32.
Definition wrap (x : Z) : Z := x mod modulus.
Definition add (a b : Z) : Z := wrap (a + b).
Definition sub (a b : Z) : Z := wrap (a - b).
Definition mul (a b : Z) : Z := wrap (a * b).
Definition div (a b : Z) : Z := a / b.
Definition shl (a n : Z) : Z := wrap (Z.shiftl a n).
End U32.

(** ** What the C++ implementation supplies *)

Class Platform : Type := {
  (** states of [std::mt19937] *)
  engine : Type;
  (** [std::mt19937 gen(seed)] *)
  mt19937 : Z -> engine;
  (** [std::shuffle(v.begin(), v.end(), g)]: the reordered vector and the
      engine after the draws *)
  shuffle : engine -> list Z -> list Z * engine;
  (** the reading, in nanoseconds, of the k-th call of
      [steady_clock::now()] in a run *)
  steady_now : nat -> Z;
  (** contents of the block returned by [aligned_alloc], which does not
      initialise it *)
  fresh_cells : Z -> Z;
  (** how [operator<<] renders the pointer [array] *)
  show_pointer : string
}.

Class PlatformLaws (P : Platform) : Prop := {
  (** [std::shuffle] permutes the elements of the range *)
  shuffle_perm : forall (g : engine) (l : list Z), Permutation l (fst (shuffle g l));
  (** a steady clock never goes back *)
  steady_mono : forall k : nat, steady_now k <= steady_now (S k)
}.

(** ** The program state *)

(** The block [array] points to: its length in elements and its cells. *)
Record block : Type := mkBlock {
  blk_len : Z;
  blk_cells : Z -> Z
}.

Inductive event : Type :=
| EvAlloc (align bytes : Z)          (* aligned_alloc *)
| EvFree                             (* free(array) *)
| EvWrite (pos val : Z)              (* array[pos] = val *)
| EvRead (pos : Z)                   (* ... = array[pos] *)
| EvShuffle (perm : list Z)          (* std::shuffle drew this order *)
| EvNow (t : Z)                      (* steady_clock::now() *)
| EvTimed (stride elems : Z).        (* entry of timeOfArrayRead *)

Section Program.

Context {P : Platform}.

Record world : Type := mkWorld {
  array : option block;     (* nullptr, or the allocated block *)
  arrayLen : Z;
  gen : engine;
  clock : nat;              (* calls of steady_clock::now() so far *)
  cout : string;
  cerr : string;
  trace : list event
}.

Inductive outcome (A : Type) : Type :=
| Ok (a : A) (w : world)
| Exit (status : Z) (w : world)      (* std::exit(status) *)
| Undefined                          (* access outside the block, null pointer, division by 0 *)
| OutOfFuel.                         (* a loop did not stop within 2^32 rounds *)

Arguments Ok {A} a w.
Arguments Exit {A} status w.
Arguments Undefined {A}.
Arguments OutOfFuel {A}.

Definition M (A : Type) : Type := world -> outcome A.

Definition ret {A} (a : A) : M A := fun w => Ok a w.

Definition bind {A B} (m : M A) (k : A -> M B) : M B :=
  fun w =>
    match m w with
    | Ok a w' => k a w'
    | Exit s w' => Exit s w'
    | Undefined => Undefined
    | OutOfFuel => OutOfFuel
    end.

Notation "x <- m ;; k" := (bind m (fun x => k))
  (at level 61, m at next level, right associativity).
Notation "m ;;; k" := (bind m (fun _ => k))
  (at level 61, right associativity).

Definition undefined {A} : M A := fun _ => Undefined.
Definition std_exit {A} (status : Z) : M A := fun w => Exit status w.

Definition lift_opt {A} (o : option A) : M A :=
  match o with Some a => ret a | None => undefined end.

Definition emit (e : event) : M unit :=
  fun w => Ok tt (mkWorld (array w) (arrayLen w) (gen w) (clock w)
                          (cout w) (cerr w) (trace w ++ [e])).

Definition print_out (s : string) : M unit :=
  fun w => Ok tt (mkWorld (array w) (arrayLen w) (gen w) (clock w)
                          (cout w ++ s) (cerr w) (trace w)).

Definition print_err (s : string) : M unit :=
  fun w => Ok tt (mkWorld (array w) (arrayLen w) (gen w) (clock w)
                          (cout w) (cerr w ++ s) (trace w)).

(** *** Loops *)

(** [for (i = 0; i < n; i++)] over a loop-carried state, without [break]:
    the counter cannot wrap, since [i < n <= 2^32 - 1]. *)
Definition iota (n : Z) : list Z := map Z.of_nat (seq 0 (Z.to_nat n)).

Fixpoint for_each {A S} (l : list A) (body : A -> S -> M S) (s : S) : M S :=
  match l with
  | [] => ret s
  | i :: l' => s' <- body i s ;; for_each l' body s'
  end.

Definition for_upto {S} (n : Z) (body : Z -> S -> M S) (s : S) : M S :=
  for_each (iota n) body s.

(** A loop whose exit is decided by its body.  [inl s] goes round again
    with state [s], [inr r] leaves with [r].  The number of rounds is
    bounded by a binary counter, so that the bound [2^32] costs nothing
    when the loop is run. *)
Fixpoint rounds_nat {S R} (n : nat) (body : S -> M (S + R)) (s : S) : M (S + R) :=
  match n with
  | O => ret (inl s)
  | Datatypes.S n' =>
      x <- body s ;;
      match x with
      | inl s' => rounds_nat n' body s'
      | inr r => ret (inr r)
      end
  end.

Fixpoint rounds {S R} (p : positive) (body : S -> M (S + R)) (s : S) : M (S + R) :=
  match p with
  | xH => body s
  | xO p' =>
      x <- rounds p' body s ;;
      match x with
      | inl s' => rounds p' body s'
      | inr r => ret (inr r)
      end
  | xI p' =>
      x <- body s ;;
      match x with
      | inl s1 =>
          y <- rounds p' body s1 ;;
          match y with
          | inl s2 => rounds p' body s2
          | inr r => ret (inr r)
          end
      | inr r => ret (inr r)
      end
  end.

Definition loop_bound : positive := 4294967296.

Definition while_loop {S R} (body : S -> M (S + R)) (s : S) : M R :=
  x <- rounds loop_bound body s ;;
  match x with
  | inl _ => fun _ => OutOfFuel
  | inr r => ret r
  end.

(** *** The backing buffer *)

Definition set_cell (c : Z -> Z) (pos val : Z) : Z -> Z :=
  fun x => if x =? pos then val else c x.

(** [array[pos] = val] *)
Definition array_store (pos val : Z) : M unit :=
  fun w =>
    match array w with
    | None => Undefined
    | Some b =>
        if (0 <=? pos) && (pos <? blk_len b) then
          Ok tt (mkWorld (Some (mkBlock (blk_len b) (set_cell (blk_cells b) pos val)))
                         (arrayLen w) (gen w) (clock w) (cout w) (cerr w)
                         (trace w ++ [EvWrite pos val]))
        else Undefined
    end.

(** [array[pos]] as a value *)
Definition array_load (pos : Z) : M Z :=
  fun w =>
    match array w with
    | None => Undefined
    | Some b =>
        if (0 <=? pos) && (pos <? blk_len b) then
          Ok (blk_cells b pos)
             (mkWorld (array w) (arrayLen w) (gen w) (clock w) (cout w) (cerr w)
                      (trace w ++ [EvRead pos]))
        else Undefined
    end.

(** *** [std::vector] *)

Definition vec_at {A} (v : list A) (i : Z) : M A :=
  if i <? 0 then undefined else lift_opt (nth_error v (Z.to_nat i)).

Fixpoint list_set {A} (v : list A) (n : nat) (x : A) : list A :=
  match v, n with
  | [], _ => []
  | _ :: t, O => x :: t
  | h :: t, Datatypes.S n' => h :: list_set t n' x
  end.

Definition vec_set {A} (v : list A) (i : Z) (x : A) : M (list A) :=
  if (0 <=? i) && (i <? Z.of_nat (length v))
  then ret (list_set v (Z.to_nat i) x)
  else undefined.

(** [std::shuffle(indexes.begin(), indexes.end(), gen)] on the global engine *)
Definition std_shuffle (v : list Z) : M (list Z) :=
  fun w =>
    let (v', g') := shuffle (gen w) v in
    Ok v' (mkWorld (array w) (arrayLen w) g' (clock w) (cout w) (cerr w)
                   (trace w ++ [EvShuffle v'])).

(** [steady_clock::now()] *)
Definition steady_clock_now : M Z :=
  fun w =>
    let t := steady_now (clock w) in
    Ok t (mkWorld (array w) (arrayLen w) (gen w) (Datatypes.S (clock w))
                  (cout w) (cerr w) (trace w ++ [EvNow t])).

(** ** The source, function by function *)

(** [rassert(expr, id)] *)
Definition show_Z (z : Z) : string := NilZero.string_of_int (Z.to_int z).
Definition endl : string := String (ascii_of_nat 10) EmptyString.

Definition rassert (expr : bool) (id : Z) : M unit :=
  if negb expr then
    print_err ("Assertion failed: " ++ show_Z id ++ endl)%string ;;;
    std_exit 1
  else ret tt.

(** [bytesToString(bytes)] *)
Definition bytesToString (bytes : Z) : string :=
  if bytes >=? Z.shiftl 1 20 then (show_Z (bytes / Z.shiftl 1 20) ++ "MB")%string
  else if bytes >=? Z.shiftl 1 10 then (show_Z (bytes / Z.shiftl 1 10) ++ "KB")%string
  else (show_Z bytes ++ "B")%string.

(** [log2(n)].  The state of the loop [while (n >>= 1) ++log;] is
    [(n, log)]: a round shifts [n] and, when the result is not zero,
    counts it. *)
Definition log2_round (st : Z * Z) : M (Z * Z + Z) :=
  let (n, log) := st in
  let n' := Z.shiftr n 1 in
  if n' =? 0 then ret (inr log) else ret (inl (n', U32.add log 1)).

Definition log2 (n : Z) : M Z :=
  rassert (negb (n =? 0)) 2 ;;;
  while_loop log2_round (n, 0).

(** [fillDirectIndexes(stride, elems)]: one round of the loop from the
    state [i], then the function. *)
Definition direct_round (stride elems : Z) (i : Z) : M (Z + unit) :=
  if i <=? U32.mul stride (U32.sub elems 1) then
    if i =? U32.mul stride (U32.sub elems 1) then
      (* loop back *)
      array_store i 0 ;;; ret (inr tt)
    else
      array_store i (U32.add i stride) ;;; ret (inl (U32.add i stride))
  else ret (inr tt).

Definition fillDirectIndexes (stride elems : Z) : M unit :=
  while_loop (direct_round stride elems) 0.

(** [fillReverseIndexes(stride, elems)]: the state of the loop is
    [(i, cnt)]. *)
Definition reverse_round (stride elems : Z) (st : Z * Z) : M (Z * Z + unit) :=
  let (i, cnt) := st in
  if cnt <? elems then
    if i =? 0 then
      (* loop back *)
      array_store i (U32.mul stride (U32.sub elems 1)) ;;; ret (inr tt)
    else
      array_store i (U32.sub i stride) ;;;
      ret (inl (U32.sub i stride, U32.add cnt 1))
  else ret (inr tt).

Definition fillReverseIndexes (stride elems : Z) : M unit :=
  while_loop (reverse_round stride elems) (U32.mul stride (U32.sub elems 1), 0).

(** [fillShuffledIndexes(stride, elems, seed = 42)].  The parameter [seed]
    is declared by the source and used nowhere in its body. *)
Definition link_round (stride elems : Z) (indexes : list Z) (i : Z) (_ : unit) : M unit :=
  if i =? U32.sub elems 1 then
    a <- vec_at indexes i ;;
    b <- vec_at indexes 0 ;;
    array_store (U32.mul a stride) (U32.mul b stride)
  else
    a <- vec_at indexes i ;;
    b <- vec_at indexes (U32.add i 1) ;;
    array_store (U32.mul a stride) (U32.mul b stride).

Definition fillShuffledIndexes (stride elems : Z) (seed : Z) : M unit :=
  let indexes := repeat 0 (Z.to_nat elems) in
  indexes <- for_upto elems (fun i v => vec_set v i i) indexes ;;
  (* simple shuffle *)
  indexes <- std_shuffle indexes ;;
  for_upto elems (link_round stride elems indexes) tt.

(** The pointer chase shared by the two phases of the timed reader:
    [for (i = 0, idx = 0; i < n; i++) { idx = array[idx]; sink = idx; }].
    The loop state is [(idx, sink)]. *)
Definition chase_round (_ : Z) (st : Z * Z) : M (Z * Z) :=
  idx <- array_load (fst st) ;;
  ret (idx, idx).

Definition chase (n : Z) (sink : Z) : M (Z * Z) :=
  for_upto n chase_round (0, sink).

(** The constants of the source. *)
Definition ARRAY_READS_COUNT : Z := 1000000.
Definition WARNUP_READS_COUNT : Z := 5000.
Definition BATCHES_COUNT : Z := 5.
Definition PAGE_SIZE : Z := Z.shiftl 1 14.
Definition sizeof_uint32_t : Z := 4.

(** [timeOfArrayRead(stride, elems, readsCount, warnupReadsCount,
    batchesCount)].  The state carried by the batch loop is [(diff, sink)];
    durations are counts of nanoseconds.  [diff /= batchesCount] is the
    truncating division of the signed count by the converted divisor. *)
Definition batch_round (stride elems iterationsPerBatch warnupReadsCount : Z)
    (batch : Z) (st : Z * Z) : M (Z * Z) :=
  (* fill indexes *)
  fillShuffledIndexes stride elems 42 ;;;
  (* some reads to warm up cache *)
  r <- chase warnupReadsCount (snd st) ;;
  (* measure *)
  start <- steady_clock_now ;;
  r' <- chase iterationsPerBatch (snd r) ;;
  stop <- steady_clock_now ;;
  ret (fst st + (stop - start), snd r').

Definition timeOfArrayRead
    (stride elems readsCount warnupReadsCount batchesCount : Z) : M Z :=
  emit (EvTimed stride elems) ;;;
  let iterationsPerBatch := readsCount in
  st <- for_upto batchesCount
          (batch_round stride elems iterationsPerBatch warnupReadsCount) (0, 0) ;;
  if batchesCount =? 0 then undefined
  else ret (Z.quot (fst st) batchesCount).

(** [std::setw(width)] before a string: padded on the left with spaces. *)
Definition setw (width : nat) (s : string) : string :=
  (string_of_list_ascii (repeat " "%char (width - String.length s)) ++ s)%string.

(** The two grids of [capacityAndAssociativity]. *)
Record grids : Type := mkGrids {
  times : list (list Z);
  jumps : list (list bool)
}.

Definition grid_at {A} (g : list (list A)) (r c : Z) : M A :=
  row <- vec_at g r ;; vec_at row c.

Definition grid_set {A} (g : list (list A)) (r c : Z) (x : A) : M (list (list A)) :=
  row <- vec_at g r ;;
  row' <- vec_set row c x ;;
  vec_set g r row'.

(** The measuring part of [capacityAndAssociativity]: the two nested
    [while] loops.  The locals [currentTime] and [prevTime] of the source
    feed only the call of [deltaDiff] that is commented out; [prevTime] is
    left out.  The state of the outer loop is
    [(stride, stridePow, grids)], that of the inner one [(elems, grids)].
    [stride * sizeof(uint32_t)] is a product of [size_t] and does not
    wrap. *)
Definition cell_round (maxAssoc stride stridePow : Z) (st : Z * grids) : M (Z * grids + grids) :=
  let (elems, g) := st in
  if elems <? maxAssoc then
    currentTime <- timeOfArrayRead stride elems ARRAY_READS_COUNT
                     WARNUP_READS_COUNT BATCHES_COUNT ;;
    t' <- grid_set (times g) elems stridePow currentTime ;;
    j' <- (if elems >? 1 then
             let isJump := false in   (* deltaDiff(currentTime, prevTime, 0.0) *)
             if isJump then grid_set (jumps g) elems stridePow true
             else ret (jumps g)
           else ret (jumps g)) ;;
    ret (inl (U32.add elems 1, mkGrids t' j'))
  else ret (inr g).

Definition sweep_column (maxAssoc stride stridePow : Z) (g : grids) : M grids :=
  while_loop (cell_round maxAssoc stride stridePow) (1, g).

Definition column_round (maxAssoc maxStride : Z) (st : Z * Z * grids)
    : M (Z * Z * grids + Z * grids) :=
  let '(stride, stridePow, g) := st in
  if stride * sizeof_uint32_t <=? maxStride then
    g' <- sweep_column maxAssoc stride stridePow g ;;
    ret (inl (U32.mul stride 2, U32.add stridePow 1, g'))
  else ret (inr (stridePow, g)).

Definition sweep (maxAssoc maxStride minStride : Z) : M (Z * grids) :=
  let stride := U32.div minStride sizeof_uint32_t in
  let g := mkGrids (repeat (repeat 0 (Z.to_nat maxStride)) (Z.to_nat maxAssoc))
                   (repeat (repeat false (Z.to_nat maxStride)) (Z.to_nat maxAssoc)) in
  while_loop (column_round maxAssoc maxStride) (stride, 0, g).

(** One cell of the printed table:
    [(jumps[s][p] ? "[+]" : "") + std::to_string(time)]. *)
Definition timeWithJump (jump : bool) (time : Z) : string :=
  ((if jump then "[+]" else "") ++ show_Z time)%string.

(** The printing part of [capacityAndAssociativity]. *)
Definition timeFactor : Z := 10000.
Definition width : nat := 10.

Definition print_cell (g : grids) (s : Z) (p : Z) (_ : unit) : M unit :=
  t <- grid_at (times g) s p ;;
  j <- grid_at (jumps g) s p ;;
  let time := Z.quot t timeFactor in
  print_out (setw width (timeWithJump j time)).

Definition row_round (maxAssoc stridePow : Z) (g : grids) (s : Z) : M (Z + unit) :=
  if s <? maxAssoc then
    print_out (setw width (show_Z s)) ;;;
    for_upto stridePow (print_cell g s) tt ;;;
    print_out endl ;;;
    ret (inl (U32.mul s 2))
  else ret (inr tt).

Definition print_table (maxAssoc minStride stridePow : Z) (g : grids) : M unit :=
  print_out (setw width "s/e") ;;;
  for_upto stridePow (fun p _ =>
    if p >=? 32 then undefined
    else
      let bytes := U32.mul (U32.shl 1 p) minStride in
      print_out (setw width (bytesToString bytes))) tt ;;;
  print_out endl ;;;
  while_loop (row_round maxAssoc stridePow g) 1.

(** [capacityAndAssociativity(maxMemory, maxAssoc, maxStride, minStride)] *)
Definition capacityAndAssociativity (maxMemory maxAssoc maxStride minStride : Z) : M unit :=
  r <- sweep maxAssoc maxStride minStride ;;
  print_table maxAssoc minStride (fst r) (snd r).

(** [aligned_alloc(alignment, size)] assigned to [array]: a block of
    [size / sizeof(uint32_t)] cells with unspecified contents. *)
Definition aligned_alloc_array (alignment size : Z) : M unit :=
  fun w =>
    Ok tt (mkWorld (Some (mkBlock (size / sizeof_uint32_t) fresh_cells))
                   (arrayLen w) (gen w) (clock w) (cout w) (cerr w)
                   (trace w ++ [EvAlloc alignment size])).

Definition set_arrayLen (n : Z) : M unit :=
  fun w => Ok tt (mkWorld (array w) n (gen w) (clock w) (cout w) (cerr w) (trace w)).

Definition get_arrayLen : M Z := fun w => Ok (arrayLen w) w.

(** [free(array)]; the pointer keeps its value, the block is gone. *)
Definition free_array : M unit :=
  fun w => Ok tt (mkWorld None (arrayLen w) (gen w) (clock w) (cout w) (cerr w)
                          (trace w ++ [EvFree])).

(** [main], with its four local constants as parameters: the check, and
    what follows it. *)
Definition main_measure (maxMemory maxAssoc maxStride minStride : Z) : M Z :=
  set_arrayLen (U32.div maxMemory sizeof_uint32_t) ;;;
  print_out ("array: " ++ show_pointer ++ endl)%string ;;;
  len <- get_arrayLen ;;
  print_out ("len: " ++ show_Z len ++ endl)%string ;;;
  capacityAndAssociativity maxMemory (U32.add maxAssoc 1) maxStride minStride ;;;
  free_array ;;;
  ret 0.

Definition main_with (maxMemory maxAssoc maxStride minStride : Z) : M Z :=
  rassert (U32.mul maxAssoc maxStride <=? maxMemory) 1 ;;;
  aligned_alloc_array PAGE_SIZE maxMemory ;;;
  main_measure maxMemory maxAssoc maxStride minStride.

Definition main : M Z :=
  main_with (Z.shiftl 1 30) 32 (Z.shiftl 1 25) 16.

(** The state in which [main] starts: the globals as initialised by the
    source ([array = nullptr], [arrayLen = 0], [gen(239)]). *)
Definition initial_world : world :=
  mkWorld None 0 (mt19937 239) 0 EmptyString EmptyString [].

End Program.

Arguments Ok {P A} a w.
Arguments Exit {P A} status w.
Arguments Undefined {P A}.
Arguments OutOfFuel {P A}.

Notation "x <- m ;; k" := (bind m (fun x => k))
  (at level 61, m at next level, right associativity).
Notation "m ;;; k" := (bind m (fun _ => k))
  (at level 61, right associativity).

(** ** A reference platform

    One implementation of the interface, used to run the program on small
    inputs: a linear congruential engine, a shuffle that inserts every
    element at a drawn position of the part already placed, a clock that
    advances by a fixed step, and fresh memory filled with a marker. *)

Module RefPlatform.

Definition lcg_next (g : Z) : Z := (g * 1103515245 + 12345) mod 2 ^ 31.

Definition insert_at (j : nat) (x : Z) (l : list Z) : list Z :=
  firstn j l ++ x :: skipn j l.

Fixpoint place (g : Z) (todo placed : list Z) : list Z * Z :=
  match todo with
  | [] => (placed, g)
  | x :: todo' =>
      let g' := lcg_next g in
      let j := Z.to_nat (g' mod (Z.of_nat (List.length placed) + 1)) in
      place g' todo' (insert_at j x placed)
  end.

Definition lcg_shuffle (g : Z) (l : list Z) : list Z * Z := place g l [].

Definition marker : Z := 3452816845.

#[global] Instance ref : Platform := {|
  engine := Z;
  mt19937 := fun seed => seed;
  shuffle := lcg_shuffle;
  steady_now := fun k => 1000 * Z.of_nat k;
  fresh_cells := fun _ => marker;
  show_pointer := "0x7f0000004000"
|}.

(** A world whose buffer has [n] cells. *)
Definition world_of_len (n : Z) : world :=
  mkWorld (Some (mkBlock n fresh_cells)) n (mt19937 239) 0 EmptyString EmptyString [].

End RefPlatform.

(** * The vocabulary of the properties *)

(** Reading results back. *)
Definition cells_of {P : Platform} (w : world) (l : list Z) : option (list Z) :=
  match array w with
  | Some b => Some (map (blk_cells b) l)
  | None => None
  end.

Definition final_world {P : Platform} {A} (o : outcome A) : option world :=
  match o with
  | Ok _ w => Some w
  | Exit _ w => Some w
  | _ => None
  end.

(** The cells after a sequence of stores, first store first. *)
Definition apply_writes (ws : list (Z * Z)) (c : Z -> Z) : Z -> Z :=
  fold_left (fun c pv => set_cell c (fst pv) (snd pv)) ws c.

(** The index after [n] reads [idx = array[idx]] from [x], and the
    positions these reads touch. *)
Fixpoint iterate (c : Z -> Z) (n : nat) (x : Z) : Z :=
  match n with
  | O => x
  | S n' => iterate c n' (c x)
  end.

Fixpoint orbit (c : Z -> Z) (n : nat) (x : Z) : list Z :=
  match n with
  | O => []
  | S n' => x :: orbit c n' (c x)
  end.

(** The stores that close [q] into a cycle, in the order of [q]. *)
Definition links (q : list Z) : list (Z * Z) :=
  map (fun i => (nth i q 0, nth (S i mod List.length q) q 0))
      (seq 0 (List.length q)).

(** The cells [c] lead from every position of [q] to the next one, and
    from the last to the first. *)
Definition ring (q : list Z) (c : Z -> Z) : Prop :=
  forall i, (i < List.length q)%nat ->
            c (nth i q 0) = nth (S i mod List.length q) q 0.

(** The positions [0, stride, ..., (elems - 1) * stride], in this order. *)
Definition footprint (stride elems : Z) : list Z :=
  map (fun i => i * stride) (iota elems).

(** The working set [(stride, elems)] lies inside a buffer of [len] cells
    whose positions are values of [uint32_t]. *)
Definition fits (len stride elems : Z) : Prop :=
  1 <= stride /\ 1 <= elems /\ (elems - 1) * stride < len /\ len <= U32.modulus.

(** A buffer holds a pattern for [(stride, elems)] when its cells link the
    positions of the footprint, in some order, into one ring. *)
Definition pattern (stride elems : Z) (c : Z -> Z) : Prop :=
  exists q, Permutation (footprint stride elems) q /\ ring q c.

(** The world after the stores [ws], and after loads at the positions
    [ps]. *)
Definition with_writes {P : Platform} (ws : list (Z * Z)) (w : world) : world :=
  mkWorld (option_map (fun b => mkBlock (blk_len b) (apply_writes ws (blk_cells b)))
                      (array w))
          (arrayLen w) (gen w) (clock w) (cout w) (cerr w)
          (trace w ++ map (fun pv => EvWrite (fst pv) (snd pv)) ws).

Definition with_reads {P : Platform} (ps : list Z) (w : world) : world :=
  mkWorld (array w) (arrayLen w) (gen w) (clock w) (cout w) (cerr w)
          (trace w ++ map EvRead ps).

(** The order drawn by the shuffle, and the world once it is drawn. *)
Definition drawn {P : Platform} (elems : Z) (w : world) : list Z :=
  fst (shuffle (gen w) (iota elems)).

Definition after_shuffle {P : Platform} (elems : Z) (w : world) : world :=
  mkWorld (array w) (arrayLen w) (snd (shuffle (gen w) (iota elems)))
          (clock w) (cout w) (cerr w) (trace w ++ [EvShuffle (drawn elems w)]).

(** The world after [steady_clock::now()]. *)
Definition ticked {P : Platform} (w : world) : world :=
  mkWorld (array w) (arrayLen w) (gen w) (Datatypes.S (clock w)) (cout w) (cerr w)
          (trace w ++ [EvNow (steady_now (clock w))]).

(** The world on entry of [timeOfArrayRead]. *)
Definition entered {P : Platform} (stride elems : Z) (w : world) : world :=
  mkWorld (array w) (arrayLen w) (gen w) (clock w) (cout w) (cerr w)
          (trace w ++ [EvTimed stride elems]).

(** The cells of the buffer, when there is one. *)
Definition cells {P : Platform} (w : world) : Z -> Z :=
  match array w with
  | Some b => blk_cells b
  | None => fun _ => 0
  end.

(** The cells once the order drawn with engine [g] is linked into [c]. *)
Definition shuffled {P : Platform} (stride elems : Z) (g : engine) (c : Z -> Z) : Z -> Z :=
  apply_writes (links (map (fun x => x * stride) (fst (shuffle g (iota elems))))) c.

(** The events of one batch that starts with engine [g], cells [c] and
    [clk] clock readings taken: the shuffle, the stores, the warm-up
    reads, the start reading, the timed reads, the end reading. *)
Definition batch_events {P : Platform} (stride elems reads warm : Z)
    (g : engine) (c : Z -> Z) (clk : nat) : list event :=
  let p := fst (shuffle g (iota elems)) in
  let c' := shuffled stride elems g c in
  EvShuffle p
  :: map (fun pv => EvWrite (fst pv) (snd pv)) (links (map (fun x => x * stride) p))
  ++ map EvRead (orbit c' (Z.to_nat warm) 0)
  ++ EvNow (steady_now clk)
  :: map EvRead (orbit c' (Z.to_nat reads) 0)
  ++ [EvNow (steady_now (Datatypes.S clk))].

Fixpoint batches_events {P : Platform} (stride elems reads warm : Z) (k : nat)
    (g : engine) (c : Z -> Z) (clk : nat) : list event :=
  match k with
  | O => []
  | Datatypes.S k' =>
      batch_events stride elems reads warm g c clk
      ++ batches_events stride elems reads warm k'
           (snd (shuffle g (iota elems))) (shuffled stride elems g c)
           (Datatypes.S (Datatypes.S clk))
  end.

(** The engine before batch [k], and the cells during batch [k]. *)
Fixpoint engine_at {P : Platform} (elems : Z) (k : nat) (g : engine) : engine :=
  match k with
  | O => g
  | Datatypes.S k' => engine_at elems k' (snd (shuffle g (iota elems)))
  end.

Fixpoint cells_at {P : Platform} (stride elems : Z) (k : nat)
    (g : engine) (c : Z -> Z) : Z -> Z :=
  match k with
  | O => shuffled stride elems g c
  | Datatypes.S k' =>
      cells_at stride elems k' (snd (shuffle g (iota elems))) (shuffled stride elems g c)
  end.

(** The sum of the timed intervals of [k] batches, the first of which
    takes the readings number [clk] and [clk + 1]. *)
Fixpoint intervals {P : Platform} (k : nat) (clk : nat) : Z :=
  match k with
  | O => 0
  | Datatypes.S k' =>
      (steady_now (Datatypes.S clk) - steady_now clk)
      + intervals k' (Datatypes.S (Datatypes.S clk))
  end.

(** The world after one batch. *)
Definition batch_world {P : Platform} (stride elems reads warm : Z) (w : world) : world :=
  let w1 := with_writes (links (map (fun x => x * stride) (drawn elems w)))
                        (after_shuffle elems w) in
  let w2 := ticked (with_reads (orbit (cells w1) (Z.to_nat warm) 0) w1) in
  ticked (with_reads (orbit (cells w1) (Z.to_nat reads) 0) w2).

(** The world after text went to the standard output. *)
Definition printed {P : Platform} (text : string) (w : world) : world :=
  mkWorld (array w) (arrayLen w) (gen w) (clock w) (cout w ++ text) (cerr w) (trace w).

(** The orders drawn by [std::shuffle], and the clock readings. *)
Definition shuffles_of (evs : list event) : list (list Z) :=
  flat_map (fun e => match e with EvShuffle p => [p] | _ => [] end) evs.

Definition nows_of (evs : list event) : list Z :=
  flat_map (fun e => match e with EvNow t => [t] | _ => [] end) evs.

(** The stores to the buffer: position and value. *)
Definition writes_of (evs : list event) : list (Z * Z) :=
  flat_map (fun e => match e with EvWrite pos val => [(pos, val)] | _ => [] end) evs.

(** The calls of the timed reader. *)
Definition timed_calls (evs : list event) : list (Z * Z) :=
  flat_map (fun e => match e with EvTimed s n => [(s, n)] | _ => [] end) evs.

(** The positions stored to or loaded from. *)
Definition accesses (evs : list event) : list Z :=
  flat_map (fun e => match e with
                     | EvWrite pos _ => [pos]
                     | EvRead pos => [pos]
                     | _ => []
                     end) evs.

(** The clock is read in pairs, a start and an end: the timed intervals
    are the differences of the pairs. *)
Fixpoint pair_diffs (ts : list Z) : list Z :=
  match ts with
  | t0 :: t1 :: ts' => (t1 - t0) :: pair_diffs ts'
  | _ => []
  end.

Definition timed_intervals (evs : list event) : list Z := pair_diffs (nows_of evs).

Definition Zsum (l : list Z) : Z := fold_right Z.add 0 l.

(** The positions read between a start reading and the end reading that
    follows it, one list per pair of readings. *)
Fixpoint timed_reads_from (inside : bool) (cur : list Z) (evs : list event)
    : list (list Z) :=
  match evs with
  | [] => []
  | EvNow _ :: r =>
      if inside then cur :: timed_reads_from false [] r
      else timed_reads_from true [] r
  | EvRead pos :: r =>
      timed_reads_from inside (if inside then cur ++ [pos] else cur) r
  | _ :: r => timed_reads_from inside cur r
  end.

Definition timed_reads (evs : list event) : list (list Z) :=
  timed_reads_from false [] evs.

(** The cell of row [r] and column [c] of a grid. *)
Definition grid_get {A} (g : list (list A)) (r c : nat) : option A :=
  match nth_error g r with
  | Some row => nth_error row c
  | None => None
  end.

(** The strides of the sweep: [minStride / 4], doubled while four times
    the stride is at most [maxStride].  Strides are values of [uint32_t],
    so 32 doublings are more than the loop can make. *)
Fixpoint strides_from (fuel : nat) (stride maxStride : Z) : list Z :=
  match fuel with
  | O => []
  | Datatypes.S fuel' =>
      if stride * sizeof_uint32_t <=? maxStride
      then stride :: strides_from fuel' (2 * stride) maxStride
      else []
  end.

Definition sweep_strides (maxStride minStride : Z) : list Z :=
  strides_from 32 (minStride / sizeof_uint32_t) maxStride.

(** The cells of one column and of the whole sweep, in the order of the
    calls: pairs [(stride, elems)]. *)
Definition column_cells (maxAssoc stride : Z) : list (Z * Z) :=
  map (fun k => (stride, 1 + Z.of_nat k)) (seq 0 (Z.to_nat (maxAssoc - 1))).

Definition sweep_cells (maxAssoc maxStride minStride : Z) : list (Z * Z) :=
  flat_map (column_cells maxAssoc) (sweep_strides maxStride minStride).

(** The duration returned by the call number [m] of the sweep: every call
    takes [2 * BATCHES_COUNT] readings of the clock. *)
Definition call_duration {P : Platform} (w0 : world) (m : nat) : Z :=
  Z.quot (intervals (Z.to_nat BATCHES_COUNT)
                    (clock w0 + 2 * Z.to_nat BATCHES_COUNT * m))
         BATCHES_COUNT.

(** The call that fills the cell of row [r] and column [c]. *)
Definition call_of (maxAssoc : Z) (r c : nat) : nat :=
  (c * (Z.to_nat maxAssoc - 1) + (r - 1))%nat.

(** The grid of durations after [m] calls. *)
Definition times_after {P : Platform} (maxAssoc maxStride : Z) (w0 : world)
    (m : nat) (r c : nat) : option Z :=
  if ((r <? Z.to_nat maxAssoc) && (c <? Z.to_nat maxStride))%nat then
    if ((1 <=? r) && (call_of maxAssoc r c <? m))%nat
    then Some (call_duration w0 (call_of maxAssoc r c))
    else Some 0
  else None.

(** The engine after the calls [cs] of the timed reader, pairs
    [(stride, elems)] of [BATCHES_COUNT] batches each, and the orders that
    [std::shuffle] draws during them: both are functions of the engine the
    calls start with. *)
Fixpoint engine_after {P : Platform} (cs : list (Z * Z)) (g : engine) : engine :=
  match cs with
  | [] => g
  | (_, elems) :: cs' =>
      engine_after cs' (engine_at elems (Z.to_nat BATCHES_COUNT) g)
  end.

Fixpoint patterns_of {P : Platform} (cs : list (Z * Z)) (g : engine) : list (list Z) :=
  match cs with
  | [] => []
  | (_, elems) :: cs' =>
      map (fun j => fst (shuffle (engine_at elems j g) (iota elems)))
          (seq 0 (Z.to_nat BATCHES_COUNT))
      ++ patterns_of cs' (engine_at elems (Z.to_nat BATCHES_COUNT) g)
  end.

(** The stores of these calls: every order drawn, scaled by the stride of
    its call, is closed into a cycle. *)
Fixpoint stores_of {P : Platform} (cs : list (Z * Z)) (g : engine) : list (Z * Z) :=
  match cs with
  | [] => []
  | (stride, elems) :: cs' =>
      flat_map (fun j => links (map (fun x => x * stride)
                                    (fst (shuffle (engine_at elems j g) (iota elems)))))
               (seq 0 (Z.to_nat BATCHES_COUNT))
      ++ stores_of cs' (engine_at elems (Z.to_nat BATCHES_COUNT) g)
  end.

(** What holds between two calls of the sweep, [m] calls being made:
    [evs] are the events since the sweep started. *)
Record sweep_inv {P : Platform} (len maxAssoc maxStride : Z) (w0 : world)
    (m : nat) (w : world) (g : grids) (evs : list event) : Prop := {
  inv_array : exists b, array w = Some b /\ blk_len b = len;
  inv_trace : trace w = trace w0 ++ evs;
  inv_clock : clock w = (clock w0 + 2 * Z.to_nat BATCHES_COUNT * m)%nat;
  inv_cout : cout w = cout w0;
  inv_cerr : cerr w = cerr w0;
  inv_arrayLen : arrayLen w = arrayLen w0;
  inv_accesses : Forall (fun pos => 0 <= pos < len) (accesses evs);
  inv_times : forall r c, grid_get (times g) r c = times_after maxAssoc maxStride w0 m r c;
  inv_jumps : jumps g = repeat (repeat false (Z.to_nat maxStride)) (Z.to_nat maxAssoc);
  inv_gen : gen w = engine_after (timed_calls evs) (gen w0);
  inv_shuffles : shuffles_of evs = patterns_of (timed_calls evs) (gen w0);
  inv_writes : writes_of evs = stores_of (timed_calls evs) (gen w0)
}.

(** The rows of the table: 1, doubled while below [maxAssoc]. *)
Fixpoint rows_from (fuel : nat) (s maxAssoc : Z) : list Z :=
  match fuel with
  | O => []
  | Datatypes.S fuel' =>
      if s <? maxAssoc then s :: rows_from fuel' (2 * s) maxAssoc else []
  end.

Definition table_rows (maxAssoc : Z) : list Z := rows_from 32 1 maxAssoc.

(** The texts of a list, one after the other. *)
Fixpoint cat (l : list string) : string :=
  match l with
  | [] => EmptyString
  | s :: l' => (s ++ cat l')%string
  end.

(** A cell of the table without the jump marker, a row, the header and
    the whole table. *)
Definition plain_cell (g : grids) (r c : nat) : string :=
  match grid_get (times g) r c with
  | Some t => setw width (show_Z (Z.quot t timeFactor))
  | None => EmptyString
  end.

Definition row_text (g : grids) (np : nat) (s : Z) : string :=
  (setw width (show_Z s)
   ++ cat (map (plain_cell g (Z.to_nat s)) (seq 0 np))
   ++ endl)%string.

Definition header_text (minStride : Z) (np : nat) : string :=
  (setw width "s/e"
   ++ cat (map (fun p => setw width
                           (bytesToString (U32.mul (U32.shl 1 (Z.of_nat p)) minStride)))
               (seq 0 np))
   ++ endl)%string.

Definition table_text (maxAssoc minStride : Z) (np : nat) (g : grids) : string :=
  (header_text minStride np ++ cat (map (row_text g np) (table_rows maxAssoc)))%string.

(** [std::cerr << "Assertion failed: " << 1 << std::endl] *)
Definition assertion_1_text : string :=
  ("Assertion failed: 1" ++ endl)%string.

(** The world in which [main] stops when its check fails. *)
Definition refused {P : Platform} : world :=
  mkWorld None 0 (mt19937 239) 0 EmptyString assertion_1_text [].

(** The start-up check in the words of the design document, with the
    product of the two integers: when it exceeds [maxMemory], [main] exits
    with status 1, the message on the error stream and nothing
    allocated. *)
Definition exits_when_precondition_fails {P : Platform}
    (maxMemory maxAssoc maxStride minStride : Z) : Prop :=
  maxAssoc * maxStride > maxMemory ->
  main_with maxMemory maxAssoc maxStride minStride initial_world = Exit 1 refused.

(** A computation that never ends the process through [std::exit]. *)
Definition never_exits {P : Platform} {A} (m : M A) : Prop :=
  forall w status w', m w <> Exit status w'.

(** The world in which [main] goes on once the block is allocated. *)
Definition allocated {P : Platform} (maxMemory : Z) : world :=
  mkWorld (Some (mkBlock (maxMemory / sizeof_uint32_t) fresh_cells))
          0 (mt19937 239) 0 EmptyString EmptyString
          [EvAlloc PAGE_SIZE maxMemory].

(** The world in which the sweep starts. *)
Definition sweep_start {P : Platform} (maxMemory : Z) : world :=
  printed ("len: " ++ show_Z (maxMemory / sizeof_uint32_t) ++ endl)
    (printed ("array: " ++ show_pointer ++ endl)
       (mkWorld (Some (mkBlock (maxMemory / sizeof_uint32_t) fresh_cells))
                (maxMemory / sizeof_uint32_t) (mt19937 239) 0
                EmptyString EmptyString [EvAlloc PAGE_SIZE maxMemory])).

(** After [fillShuffledIndexes(stride, elems)] the buffer is one cycle of
    length [elems] through position 0: the chase of the source follows
    [iterate] and reads the positions [orbit]; [elems] reads lead back to
    0, fewer do not, and the [elems] reads touch every position of the
    footprint once. *)
Definition shuffled_single_cycle {P : Platform} (stride elems seed : Z) (w : world) : Prop :=
  exists w' b',
    fillShuffledIndexes stride elems seed w = Ok tt w' /\
    array w' = Some b' /\
    (forall reads sink,
        chase reads sink w' =
        Ok (iterate (blk_cells b') (Z.to_nat reads) 0,
            if reads <=? 0 then sink else iterate (blk_cells b') (Z.to_nat reads) 0)
           (with_reads (orbit (blk_cells b') (Z.to_nat reads) 0) w')) /\
    iterate (blk_cells b') (Z.to_nat elems) 0 = 0 /\
    (forall j, (0 < j < Z.to_nat elems)%nat -> iterate (blk_cells b') j 0 <> 0) /\
    NoDup (orbit (blk_cells b') (Z.to_nat elems) 0) /\
    Permutation (orbit (blk_cells b') (Z.to_nat elems) 0) (footprint stride elems).

(** What [fillDirectIndexes] and [fillReverseIndexes] store, in the words
    of the design document. *)
Definition direct_stores (stride elems : Z) : list event :=
  map (fun i => EvWrite (i * stride) ((i + 1) * stride)) (iota (elems - 1))
  ++ [EvWrite ((elems - 1) * stride) 0].

Definition reverse_stores (stride elems : Z) : list event :=
  map (fun j => EvWrite ((elems - 1 - j) * stride) ((elems - 2 - j) * stride))
      (iota (elems - 1))
  ++ [EvWrite 0 ((elems - 1) * stride)].

Definition direct_written {P : Platform} (stride elems : Z) (w : world) : Prop :=
  exists w' b',
    fillDirectIndexes stride elems w = Ok tt w' /\
    array w' = Some b' /\
    trace w' = trace w ++ direct_stores stride elems /\
    (forall i, 0 <= i <= elems - 2 -> blk_cells b' (i * stride) = (i + 1) * stride) /\
    blk_cells b' ((elems - 1) * stride) = 0.

Definition reverse_written {P : Platform} (stride elems : Z) (w : world) : Prop :=
  exists w' b',
    fillReverseIndexes stride elems w = Ok tt w' /\
    array w' = Some b' /\
    trace w' = trace w ++ reverse_stores stride elems /\
    (forall i, 1 <= i <= elems - 1 -> blk_cells b' (i * stride) = (i - 1) * stride) /\
    blk_cells b' 0 = (elems - 1) * stride.

(** A generator [fill] keeps to the footprint: it stores only there,
    leaves every other cell as it was, and any chase from position 0 that
    follows reads only there. *)
Definition confined {P : Platform} (fill : M unit) (stride elems : Z) (w : world) : Prop :=
  exists b w' b' evs,
    array w = Some b /\
    fill w = Ok tt w' /\
    array w' = Some b' /\
    trace w' = trace w ++ evs /\
    (forall pos val, In (EvWrite pos val) evs -> In pos (footprint stride elems)) /\
    (forall x, ~ In x (footprint stride elems) -> blk_cells b' x = blk_cells b x) /\
    (forall reads sink, exists r w'' evs',
        chase reads sink w' = Ok r w'' /\
        trace w'' = trace w' ++ evs' /\
        forall pos, In (EvRead pos) evs' -> In pos (footprint stride elems)).

(** A buffer of the size [main] allocates, [2^28] cells, on the reference
    platform, in which [fillDirectIndexes(1, 8)] has run: of the first
    eight cells, cell [x] holds [x + 1] and the last one 0. *)
Definition walked_world : world (P := RefPlatform.ref) :=
  with_writes (links (footprint 1 8)) (RefPlatform.world_of_len (2 ^ 28)).

(** The timed phase of every batch reads [reads] chained positions from
    the index [start c], where [c] is the pattern of that batch. *)
Definition timed_phase_starts_at {P : Platform} (start : (Z -> Z) -> Z)
    (stride elems reads warm batches : Z) (w : world) : Prop :=
  exists r w' evs,
    timeOfArrayRead stride elems reads warm batches w = Ok r w' /\
    trace w' = trace w ++ evs /\
    timed_reads evs =
    map (fun j => let c := cells_at stride elems j (gen w) (cells w) in
                  orbit c (Z.to_nat reads) (start c))
        (seq 0 (Z.to_nat batches)).

(** Where the warm-up of [warm] reads leaves the index, and position 0. *)
Definition warmup_end (warm : Z) (c : Z -> Z) : Z := iterate c (Z.to_nat warm) 0.
Definition position_zero (c : Z -> Z) : Z := 0.

(** The pattern is drawn anew for every batch, from the engine as the
    batch before left it, and the result is the truncated mean of the
    timed intervals. *)
Definition regenerates_and_averages {P : Platform}
    (stride elems reads warm batches : Z) (w : world) : Prop :=
  exists r w' evs,
    timeOfArrayRead stride elems reads warm batches w = Ok r w' /\
    trace w' = trace w ++ evs /\
    evs = EvTimed stride elems
          :: batches_events stride elems reads warm (Z.to_nat batches)
               (gen w) (cells w) (clock w) /\
    shuffles_of evs =
    map (fun j => fst (shuffle (engine_at elems j (gen w)) (iota elems)))
        (seq 0 (Z.to_nat batches)) /\
    gen w' = engine_at elems (Z.to_nat batches) (gen w) /\
    List.length (timed_intervals evs) = Z.to_nat batches /\
    r = Z.quot (Zsum (timed_intervals evs)) batches.

(** The pattern of a call depends on the [seed] argument: some seed gives
    another result than 42 does. *)
Definition seed_governs_pattern {P : Platform} (stride elems : Z) (w : world) : Prop :=
  exists seed,
    fillShuffledIndexes stride elems seed w <> fillShuffledIndexes stride elems 42 w.

(** Another run of the same build: the engine and [std::shuffle] are
    those of the build; the readings of the clock, the contents of fresh
    memory and the address of the block are those of the run. *)
Definition another_run (P : Platform) (now : nat -> Z) (fresh : Z -> Z)
    (pointer : string) : Platform := {|
  engine := @engine P;
  mt19937 := @mt19937 P;
  shuffle := @shuffle P;
  steady_now := now;
  fresh_cells := fresh;
  show_pointer := pointer
|}.

(** The sweep calls the timed reader once for every cell, in the order of
    [sweep_cells], and stores what each call returns in the grid: row
    [elems], column the number of the stride. *)
Definition sweep_fills_grid {P : Platform} (maxAssoc maxStride minStride : Z)
    (w0 : world) : Prop :=
  exists np g' w' evs',
    sweep maxAssoc maxStride minStride w0 = Ok (Z.of_nat np, g') w' /\
    trace w' = trace w0 ++ evs' /\
    np = List.length (sweep_strides maxStride minStride) /\
    timed_calls evs' = sweep_cells maxAssoc maxStride minStride /\
    NoDup (sweep_cells maxAssoc maxStride minStride) /\
    (forall s, In s (sweep_strides maxStride minStride) <->
               exists k : nat, s = minStride / sizeof_uint32_t * 2 ^ Z.of_nat k /\
                               s * sizeof_uint32_t <= maxStride) /\
    (forall s e, In (s, e) (sweep_cells maxAssoc maxStride minStride) <->
                 In s (sweep_strides maxStride minStride) /\ 1 <= e < maxAssoc) /\
    (forall e p : nat,
        (1 <= e < Z.to_nat maxAssoc)%nat -> (p < np)%nat ->
        grid_get (times g') e p = Some (call_duration w0 (call_of maxAssoc e p)) /\
        0 <= call_duration w0 (call_of maxAssoc e p)) /\
    (forall r c : nat,
        (r < Z.to_nat maxAssoc)%nat -> (c < Z.to_nat maxStride)%nat ->
        r = 0%nat \/ (np <= c)%nat ->
        grid_get (times g') r c = Some 0).

(** ** Vocabulary of the further properties *)

(** The world after [rassert] has written its message for the check
    [id] to the error stream. *)
Definition complained {P : Platform} (id : Z) (w : world) : world :=
  mkWorld (array w) (arrayLen w) (gen w) (clock w) (cout w)
          (cerr w ++ "Assertion failed: " ++ show_Z id ++ endl) (trace w).

(** The units of [bytesToString], with their sizes in bytes. *)
Definition byte_units : list (Z * string) :=
  [(1, "B"%string); (2 ^ 10, "KB"%string); (2 ^ 20, "MB"%string)].

(** The first [n] powers of two. *)
Definition powers_of_two (n : nat) : list Z := map (fun k => 2 ^ Z.of_nat k) (seq 0 n).

(** Events other than [aligned_alloc] and [free(array)], the two events
    on the backing buffer as a whole.  The [std::vector]s of the source
    (the [indexes] of a generator, the two grids of the sweep) are values
    of the model: their storage is not part of the world and leaves no
    event. *)
Definition quiet (e : event) : Prop :=
  match e with
  | EvAlloc _ _ | EvFree => False
  | _ => True
  end.

(** From [w] to [w'] the program has not changed [arrayLen], has written
    nothing to the error stream, has kept the block it had (or the absence
    of one) at its length, has not turned the count of clock readings back
    and has only appended events that are neither an [aligned_alloc] nor a
    [free(array)]; on the standard output it has at most appended text,
    and nothing at all unless [printing]. *)
Record frame {P : Platform} (printing : bool) (w w' : world) : Prop := {
  frame_arrayLen : arrayLen w' = arrayLen w;
  frame_cerr : cerr w' = cerr w;
  frame_block : option_map blk_len (array w') = option_map blk_len (array w);
  frame_clock : (clock w <= clock w')%nat;
  frame_cout : if printing then exists text, cout w' = (cout w ++ text)%string
               else cout w' = cout w;
  frame_trace : exists evs, trace w' = trace w ++ evs /\ Forall quiet evs
}.

(** A computation that, from every state, stays within [frame] when it
    returns and never leaves through [std::exit]. *)
Definition keeps {P : Platform} {A} (printing : bool) (m : M A) : Prop :=
  forall w, match m w with
            | Ok _ w' => frame printing w w'
            | Exit _ _ => False
            | _ => True
            end.

(** The generator [fill] stores exactly once at every position of the
    footprint and nowhere else; the values it stores are the positions of
    the footprint again, each once; no store is overwritten by a later
    one; and with two elements or more no position is left pointing to
    itself. *)
Definition stores_each_position_once {P : Platform} (fill : M unit)
    (stride elems : Z) (w : world) : Prop :=
  exists w' b' pre ws,
    fill w = Ok tt w' /\
    array w' = Some b' /\
    trace w' = trace w ++ pre ++ map (fun pv => EvWrite (fst pv) (snd pv)) ws /\
    accesses pre = [] /\
    List.length ws = Z.to_nat elems /\
    Permutation (map fst ws) (footprint stride elems) /\
    Permutation (map snd ws) (footprint stride elems) /\
    (forall pv, In pv ws -> blk_cells b' (fst pv) = snd pv) /\
    (2 <= elems -> forall x, In x (footprint stride elems) -> blk_cells b' x <> x).

(** Grids of three rows and two columns, as a sweep with [maxAssoc = 3]
    over two strides leaves them. *)
Definition small_grids : grids :=
  mkGrids [[0; 0]; [120000; 340000]; [560000; 780000]]
          [[false; false]; [false; false]; [false; false]].

(** * Lemmas and theorems *)

(** ** The reference platform keeps the laws *)

Lemma insert_at_perm (j : nat) (x : Z) (l : list Z) :
  Permutation (x :: l) (RefPlatform.insert_at j x l).
Proof.
  unfold RefPlatform.insert_at.
  rewrite <- (firstn_skipn j l) at 1.
  apply Permutation_middle.
Qed.

Lemma place_perm (todo : list Z) :
  forall g placed, Permutation (todo ++ placed) (fst (RefPlatform.place g todo placed)).
Proof.
  induction todo as [|x todo IH]; intros g placed; simpl.
  - apply Permutation_refl.
  - eapply Permutation_trans; [|apply IH].
    apply Permutation_sym.
    eapply Permutation_trans.
    + apply Permutation_app_head. apply Permutation_sym, insert_at_perm.
    + apply Permutation_sym, Permutation_middle.
Qed.

#[global] Instance ref_laws : PlatformLaws RefPlatform.ref.
Proof.
  split.
  - intros g l. simpl. unfold RefPlatform.lcg_shuffle.
    rewrite <- (app_nil_r l) at 1. apply place_perm.
  - intros k. unfold steady_now, RefPlatform.ref. lia.
Qed.

(** ** Runs on the reference platform *)

Example direct_1_4 :
  option_map (fun w => (cells_of w [0; 1; 2; 3], trace w))
             (final_world (fillDirectIndexes 1 4 (RefPlatform.world_of_len 4))) =
  Some (Some [1; 2; 3; 0],
        [EvWrite 0 1; EvWrite 1 2; EvWrite 2 3; EvWrite 3 0]).
Proof. reflexivity. Qed.

Example reverse_1_4 :
  option_map (fun w => (cells_of w [0; 1; 2; 3], trace w))
             (final_world (fillReverseIndexes 1 4 (RefPlatform.world_of_len 4))) =
  Some (Some [3; 0; 1; 2],
        [EvWrite 3 2; EvWrite 2 1; EvWrite 1 0; EvWrite 0 3]).
Proof. reflexivity. Qed.

Example shuffled_2_5 :
  option_map (fun w => (cells_of w [0; 2; 4; 6; 8], trace w))
             (final_world (fillShuffledIndexes 2 5 42 (RefPlatform.world_of_len 10))) =
  Some (Some [4; 6; 2; 8; 0],
        [EvShuffle [0; 2; 1; 3; 4];
         EvWrite 0 4; EvWrite 4 2; EvWrite 2 6; EvWrite 6 8; EvWrite 8 0]).
Proof. reflexivity. Qed.

(** One batch, one warm-up read, one timed read on two slots: both reads
    are at position 0. *)
Example timed_1_2 :
  option_map trace
             (final_world (timeOfArrayRead 1 2 1 1 1 (RefPlatform.world_of_len 10))) =
  Some [EvTimed 1 2; EvShuffle [0; 1]; EvWrite 0 1; EvWrite 1 0;
        EvRead 0; EvNow 0; EvRead 0; EvNow 1000].
Proof. reflexivity. Qed.

Example refused_33 :
  main_with (2 ^ 30) 33 (2 ^ 25) 16 (initial_world (P := RefPlatform.ref)) =
  Exit 1 refused.
Proof. reflexivity. Qed.

Example table_3_4 :
  option_map cout
    (final_world
       (print_table 3 4 2
          (mkGrids [[0; 0]; [120000; 340000]; [560000; 780000]]
                   [[false; false]; [false; true]; [false; false]])
          (RefPlatform.world_of_len 4))) =
  Some ("       s/e        4B        8B" ++ endl ++
        "         1        12     [+]34" ++ endl ++
        "         2        56        78" ++ endl)%string.
Proof. reflexivity. Qed.

(** ** Reasoning about computations *)

Section Computations.

Context {P : Platform}.

Lemma bind_ok {A B} (m : M A) (k : A -> M B) (w w' : world) (a : A) :
  m w = Ok a w' -> bind m k w = k a w'.
Proof. intros H. unfold bind. now rewrite H. Qed.

Lemma bind_ret_l {A B} (a : A) (k : A -> M B) : bind (ret a) k = k a.
Proof. reflexivity. Qed.

Lemma for_each_app {A S} (l1 l2 : list A) (body : A -> S -> M S) (s : S) (w : world) :
  for_each (l1 ++ l2) body s w =
  bind (for_each l1 body s) (fun s' => for_each l2 body s') w.
Proof.
  revert s w. induction l1 as [|i l1 IH]; intros s w; simpl.
  - reflexivity.
  - unfold bind. destruct (body i s w); try reflexivity.
    rewrite IH. reflexivity.
Qed.

Lemma for_each_ext {A S} (l : list A) (body body' : A -> S -> M S) :
  (forall i s w, In i l -> body i s w = body' i s w) ->
  forall s w, for_each l body s w = for_each l body' s w.
Proof.
  induction l as [|i l IH]; intros Hext s w; simpl.
  - reflexivity.
  - unfold bind. rewrite Hext by now left.
    destruct (body' i s w); try reflexivity.
    apply IH. intros; apply Hext; now right.
Qed.

Lemma rounds_nat_add {S R} (n m : nat) (body : S -> M (S + R)) (s : S) (w : world) :
  rounds_nat (n + m) body s w =
  match rounds_nat n body s w with
  | Ok (inl s') w' => rounds_nat m body s' w'
  | o => o
  end.
Proof.
  revert s w. induction n as [|n IH]; intros s w; simpl.
  - reflexivity.
  - unfold bind. destruct (body s w) as [[s'|r] w'| | |]; try reflexivity.
    apply IH.
Qed.

Lemma rounds_eq {S R} (p : positive) (body : S -> M (S + R)) (s : S) (w : world) :
  rounds p body s w = rounds_nat (Pos.to_nat p) body s w.
Proof.
  revert s w. induction p as [p IH|p IH|]; intros s w.
  - rewrite Pos2Nat.inj_xI. replace (Datatypes.S (2 * Pos.to_nat p))
      with (1 + (Pos.to_nat p + Pos.to_nat p))%nat by lia.
    rewrite rounds_nat_add. simpl. unfold bind.
    destruct (body s w) as [[s1|r] w1| | |]; try reflexivity.
    unfold ret. rewrite rounds_nat_add, IH.
    destruct (rounds_nat (Pos.to_nat p) body s1 w1) as [[s2|r] w2| | |];
      try reflexivity.
    apply IH.
  - rewrite Pos2Nat.inj_xO. replace (2 * Pos.to_nat p)%nat
      with (Pos.to_nat p + Pos.to_nat p)%nat by lia.
    rewrite rounds_nat_add. simpl. unfold bind. rewrite IH.
    destruct (rounds_nat (Pos.to_nat p) body s w) as [[s2|r] w2| | |];
      try reflexivity.
    apply IH.
  - simpl. unfold bind. destruct (body s w) as [[s1|r] w1| | |]; reflexivity.
Qed.

(** A loop that leaves within [n <= 2^32] rounds is not cut off. *)
Lemma while_loop_leaves {S R} (n : nat) (body : S -> M (S + R)) (s : S)
    (w w' : world) (r : R) :
  Z.of_nat n <= U32.modulus ->
  rounds_nat n body s w = Ok (inr r) w' ->
  while_loop body s w = Ok r w'.
Proof.
  intros Hn Hrun. unfold while_loop, bind. rewrite rounds_eq.
  assert (Hsplit : exists m, Pos.to_nat loop_bound = (n + m)%nat).
  { exists (Pos.to_nat loop_bound - n)%nat.
    unfold U32.modulus in Hn. unfold loop_bound. lia. }
  destruct Hsplit as [m ->].
  rewrite rounds_nat_add, Hrun. reflexivity.
Qed.

End Computations.

(** ** Chains of positions

    The three generators store, for a list [q] of positions, at every
    position the one that follows it in [q], and at the last one the first.
    This section is about such a buffer, without the program around it. *)

Section Chains.

Lemma apply_writes_app (ws1 ws2 : list (Z * Z)) (c : Z -> Z) :
  apply_writes (ws1 ++ ws2) c = apply_writes ws2 (apply_writes ws1 c).
Proof. apply fold_left_app. Qed.

Lemma apply_writes_notin (ws : list (Z * Z)) :
  forall c x, ~ In x (map fst ws) -> apply_writes ws c x = c x.
Proof.
  induction ws as [|[p v] ws IH]; intros c x Hx; simpl in *.
  - reflexivity.
  - unfold apply_writes in IH. rewrite IH by tauto.
    unfold set_cell. destruct (Z.eqb_spec x p); [exfalso; auto | reflexivity].
Qed.

Lemma apply_writes_in (ws : list (Z * Z)) :
  forall c p v, NoDup (map fst ws) -> In (p, v) ws -> apply_writes ws c p = v.
Proof.
  induction ws as [|[p0 v0] ws IH]; intros c p v Hnd Hin; simpl in *.
  - contradiction.
  - inversion Hnd as [|? ? Hnotin Hnd']; subst.
    destruct Hin as [Heq | Hin].
    + inversion Heq; subst.
      change (apply_writes ws (set_cell c p v) p = v).
      rewrite apply_writes_notin by assumption.
      unfold set_cell. now rewrite Z.eqb_refl.
    + now apply (IH (set_cell c p0 v0)).
Qed.

Lemma map_nth_seq (q : list Z) :
  map (fun i => nth i q 0) (seq 0 (List.length q)) = q.
Proof.
  apply (nth_ext _ _ 0 0).
  - now rewrite length_map, length_seq.
  - intros i Hi. rewrite length_map, length_seq in Hi.
    rewrite (nth_indep _ 0 (nth 0 q 0)) by now rewrite length_map, length_seq.
    change (nth 0 q 0) with ((fun i => nth i q 0) 0%nat).
    rewrite map_nth, seq_nth by assumption. reflexivity.
Qed.

Lemma links_fst (q : list Z) : map fst (links q) = q.
Proof. unfold links. rewrite map_map. simpl. apply map_nth_seq. Qed.

Lemma links_length (q : list Z) : List.length (links q) = List.length q.
Proof. unfold links. now rewrite length_map, length_seq. Qed.

Lemma ring_links (q : list Z) (c : Z -> Z) :
  NoDup q -> ring q (apply_writes (links q) c).
Proof.
  intros Hnd i Hi. apply apply_writes_in.
  - now rewrite links_fst.
  - unfold links.
    apply (in_map (fun i => (nth i q 0, nth (S i mod List.length q) q 0))).
    apply in_seq. lia.
Qed.

Lemma links_frame (q : list Z) (c : Z -> Z) (x : Z) :
  ~ In x q -> apply_writes (links q) c x = c x.
Proof. intros Hx. apply apply_writes_notin. now rewrite links_fst. Qed.

Lemma mod_wrap (n k t : nat) :
  (k < n)%nat -> (t < n)%nat ->
  ((k + t) mod n = if (k + t <? n)%nat then k + t else k + t - n)%nat.
Proof.
  intros Hk Ht. destruct (Nat.ltb_spec (k + t) n).
  - now apply Nat.mod_small.
  - symmetry. apply (Nat.mod_unique _ _ 1); lia.
Qed.

Lemma ring_iterate (q : list Z) (c : Z -> Z) :
  ring q c ->
  forall j k, (k < List.length q)%nat ->
    iterate c j (nth k q 0) = nth ((k + j) mod List.length q) q 0.
Proof.
  intros Hring. induction j as [|j IH]; intros k Hk; simpl.
  - now rewrite Nat.add_0_r, Nat.mod_small.
  - rewrite Hring by assumption.
    rewrite IH by (apply Nat.mod_upper_bound; lia).
    f_equal. rewrite Nat.Div0.add_mod_idemp_l. f_equal. lia.
Qed.

Lemma ring_orbit (q : list Z) (c : Z -> Z) :
  ring q c ->
  forall j k, (k < List.length q)%nat ->
    orbit c j (nth k q 0) =
    map (fun t => nth ((k + t) mod List.length q) q 0) (seq 0 j).
Proof.
  intros Hring. induction j as [|j IH]; intros k Hk.
  - reflexivity.
  - cbn [orbit seq map]. f_equal.
    + now rewrite Nat.add_0_r, Nat.mod_small.
    + rewrite Hring by assumption.
      rewrite IH by (apply Nat.mod_upper_bound; lia).
      rewrite <- seq_shift, map_map.
      apply map_ext. intros t. f_equal.
      rewrite Nat.Div0.add_mod_idemp_l. f_equal. lia.
Qed.

Lemma orbit_length (c : Z -> Z) (n : nat) : forall x, List.length (orbit c n x) = n.
Proof. induction n as [|n IH]; intros x; simpl; [reflexivity | now rewrite IH]. Qed.

(** Every read of a chase that starts on the ring stays on it. *)
Lemma ring_orbit_incl (q : list Z) (c : Z -> Z) (j k : nat) :
  ring q c -> (k < List.length q)%nat ->
  incl (orbit c j (nth k q 0)) q.
Proof.
  intros Hring Hk x Hx. rewrite (ring_orbit q c Hring j k Hk) in Hx.
  apply in_map_iff in Hx. destruct Hx as [t [<- _]].
  apply nth_In, Nat.mod_upper_bound. lia.
Qed.

(** The first [length q] reads touch pairwise distinct positions ... *)
Lemma ring_orbit_NoDup (q : list Z) (c : Z -> Z) (k : nat) :
  ring q c -> NoDup q -> (k < List.length q)%nat ->
  NoDup (orbit c (List.length q) (nth k q 0)).
Proof.
  intros Hring Hnd Hk. rewrite (ring_orbit q c Hring _ k Hk).
  apply (proj2 (NoDup_nth _ 0)).
  intros i j Hi Hj. rewrite length_map, length_seq in Hi, Hj.
  rewrite (nth_indep _ 0 (nth ((k + 0) mod List.length q) q 0))
    by now rewrite length_map, length_seq.
  rewrite (nth_indep _ 0 (nth ((k + 0) mod List.length q) q 0) (n := j))
    by now rewrite length_map, length_seq.
  rewrite !(map_nth (fun t => nth ((k + t) mod List.length q) q 0)).
  rewrite !seq_nth by assumption. simpl.
  intros Heq.
  apply (proj1 (NoDup_nth q 0) Hnd) in Heq;
    try (apply Nat.mod_upper_bound; lia).
  rewrite !mod_wrap in Heq by assumption.
  destruct (Nat.ltb_spec (k + i) (List.length q));
    destruct (Nat.ltb_spec (k + j) (List.length q)); lia.
Qed.

(** ... which are all the positions of the ring. *)
Lemma ring_orbit_perm (q : list Z) (c : Z -> Z) (k : nat) :
  ring q c -> NoDup q -> (k < List.length q)%nat ->
  Permutation (orbit c (List.length q) (nth k q 0)) q.
Proof.
  intros Hring Hnd Hk. apply NoDup_Permutation_bis.
  - now apply ring_orbit_NoDup.
  - now rewrite orbit_length.
  - now apply ring_orbit_incl.
Qed.

(** After [length q] reads the chase is back where it started, and not
    before. *)
Lemma ring_iterate_back (q : list Z) (c : Z -> Z) (k : nat) :
  ring q c -> (k < List.length q)%nat ->
  iterate c (List.length q) (nth k q 0) = nth k q 0.
Proof.
  intros Hring Hk. rewrite (ring_iterate q c Hring) by assumption.
  f_equal. replace (k + List.length q)%nat with (k + 1 * List.length q)%nat by lia.
  rewrite Nat.Div0.mod_add. now apply Nat.mod_small.
Qed.

Lemma ring_iterate_away (q : list Z) (c : Z -> Z) (k j : nat) :
  ring q c -> NoDup q -> (k < List.length q)%nat ->
  (0 < j < List.length q)%nat ->
  iterate c j (nth k q 0) <> nth k q 0.
Proof.
  intros Hring Hnd Hk Hj Heq.
  rewrite (ring_iterate q c Hring) in Heq by assumption.
  apply (proj1 (NoDup_nth q 0) Hnd) in Heq;
    try (apply Nat.mod_upper_bound; lia); try assumption.
  rewrite mod_wrap in Heq by lia.
  destruct (Nat.ltb_spec (k + j) (List.length q)); lia.
Qed.

End Chains.

(** ** The footprint of a pattern *)

Lemma iota_length (n : Z) : List.length (iota n) = Z.to_nat n.
Proof. unfold iota. now rewrite length_map, length_seq. Qed.

Lemma iota_nth (n : Z) (k : nat) :
  (k < Z.to_nat n)%nat -> nth k (iota n) 0 = Z.of_nat k.
Proof.
  intros Hk. unfold iota.
  change 0 with (Z.of_nat 0). rewrite map_nth, seq_nth by assumption.
  reflexivity.
Qed.

Lemma iota_In (n x : Z) : In x (iota n) <-> 0 <= x < n.
Proof.
  unfold iota. rewrite in_map_iff. split.
  - intros [k [<- Hk]]. apply in_seq in Hk. lia.
  - intros Hx. exists (Z.to_nat x). split; [lia | apply in_seq; lia].
Qed.

Lemma iota_NoDup (n : Z) : NoDup (iota n).
Proof.
  unfold iota. apply Finite.Injective_map_NoDup.
  - intros x y. apply Nat2Z.inj.
  - apply seq_NoDup.
Qed.

Lemma footprint_length (stride elems : Z) :
  List.length (footprint stride elems) = Z.to_nat elems.
Proof. unfold footprint. now rewrite length_map, iota_length. Qed.

Lemma footprint_In (stride elems x : Z) :
  In x (footprint stride elems) <-> exists i, 0 <= i < elems /\ x = i * stride.
Proof.
  unfold footprint. rewrite in_map_iff. split.
  - intros [i [<- Hi]]. apply iota_In in Hi. now exists i.
  - intros [i [Hi ->]]. exists i. split; [reflexivity | now apply iota_In].
Qed.

Lemma footprint_nth (stride elems : Z) (k : nat) :
  (k < Z.to_nat elems)%nat ->
  nth k (footprint stride elems) 0 = Z.of_nat k * stride.
Proof.
  intros Hk. unfold footprint.
  change 0 with ((fun i => i * stride) 0) at 1.
  rewrite map_nth, iota_nth by assumption. reflexivity.
Qed.

Lemma footprint_NoDup (stride elems : Z) :
  1 <= stride -> NoDup (footprint stride elems).
Proof.
  intros Hs. unfold footprint. apply Finite.Injective_map_NoDup.
  - intros x y Hxy. nia.
  - apply iota_NoDup.
Qed.

Lemma footprint_bounds (len stride elems x : Z) :
  fits len stride elems -> In x (footprint stride elems) -> 0 <= x < len.
Proof.
  intros (Hs & He & Hfit & _) Hx. apply footprint_In in Hx.
  destruct Hx as [i [Hi ->]]. nia.
Qed.

(** A reordering of the slots gives a reordering of the footprint. *)
Lemma scaled_perm (stride elems : Z) (p : list Z) :
  Permutation (iota elems) p ->
  Permutation (footprint stride elems) (map (fun i => i * stride) p).
Proof. intros Hp. unfold footprint. now apply Permutation_map. Qed.

(** ** Stores and loads on the world *)

Section Stores.

Context {P : Platform}.

Lemma with_writes_nil (w : world) : with_writes [] w = w.
Proof.
  destruct w as [[[l c]|] al g k o e t]; unfold with_writes; simpl;
    now rewrite app_nil_r.
Qed.

Lemma with_writes_app (ws1 ws2 : list (Z * Z)) (w : world) :
  with_writes (ws1 ++ ws2) w = with_writes ws2 (with_writes ws1 w).
Proof.
  destruct w as [[[l c]|] al g k o e t]; unfold with_writes; simpl;
    now rewrite ?apply_writes_app, map_app, app_assoc.
Qed.

Lemma with_writes_array (ws : list (Z * Z)) (w : world) (b : block) :
  array w = Some b ->
  array (with_writes ws w) =
  Some (mkBlock (blk_len b) (apply_writes ws (blk_cells b))).
Proof. intros H. unfold with_writes. simpl. now rewrite H. Qed.

Lemma with_reads_nil (w : world) : with_reads [] w = w.
Proof. destruct w; unfold with_reads; simpl; now rewrite app_nil_r. Qed.

Lemma with_reads_app (ps1 ps2 : list Z) (w : world) :
  with_reads (ps1 ++ ps2) w = with_reads ps2 (with_reads ps1 w).
Proof.
  destruct w; unfold with_reads; simpl. now rewrite map_app, app_assoc.
Qed.

Lemma array_store_run (w : world) (b : block) (pos val : Z) :
  array w = Some b -> 0 <= pos < blk_len b ->
  array_store pos val w = Ok tt (with_writes [(pos, val)] w).
Proof.
  intros Hb Hpos. unfold array_store, with_writes. rewrite Hb.
  replace ((0 <=? pos) && (pos <? blk_len b)) with true
    by (symmetry; apply andb_true_intro; split;
        [apply Z.leb_le | apply Z.ltb_lt]; lia).
  reflexivity.
Qed.

Lemma array_store_out (w : world) (b : block) (pos val : Z) :
  array w = Some b -> blk_len b <= pos ->
  array_store pos val w = Undefined.
Proof.
  intros Hb Hpos. unfold array_store. rewrite Hb.
  replace (pos <? blk_len b) with false by (symmetry; apply Z.ltb_ge; lia).
  now rewrite andb_false_r.
Qed.

Lemma array_load_run (w : world) (b : block) (pos : Z) :
  array w = Some b -> 0 <= pos < blk_len b ->
  array_load pos w = Ok (blk_cells b pos) (with_reads [pos] w).
Proof.
  intros Hb Hpos. unfold array_load, with_reads. rewrite Hb.
  replace ((0 <=? pos) && (pos <? blk_len b)) with true
    by (symmetry; apply andb_true_intro; split;
        [apply Z.leb_le | apply Z.ltb_lt]; lia).
  reflexivity.
Qed.

(** A counted loop of stores. *)
Lemma stores_run (f g : Z -> Z) (l : list Z) :
  forall (w : world) (b : block),
    array w = Some b ->
    (forall i, In i l -> 0 <= f i < blk_len b) ->
    for_each l (fun i _ => array_store (f i) (g i)) tt w =
    Ok tt (with_writes (map (fun i => (f i, g i)) l) w).
Proof.
  induction l as [|i l IH]; intros w b Hb Hin; cbn [for_each map].
  - rewrite with_writes_nil. reflexivity.
  - erewrite bind_ok by (eapply array_store_run; [eassumption | apply Hin; now left]).
    erewrite IH.
    + rewrite <- with_writes_app. reflexivity.
    + eapply with_writes_array; eassumption.
    + cbn [blk_len]. intros j Hj. apply Hin. now right.
Qed.

(** The pointer chase, when every position it meets is inside the block. *)
Lemma chase_from_run (l : list Z) :
  forall (w : world) (b : block) (x sink : Z),
    array w = Some b ->
    (forall y, In y (orbit (blk_cells b) (List.length l) x) -> 0 <= y < blk_len b) ->
    for_each l chase_round (x, sink) w =
    Ok (iterate (blk_cells b) (List.length l) x,
        match l with [] => sink | _ => iterate (blk_cells b) (List.length l) x end)
       (with_reads (orbit (blk_cells b) (List.length l) x) w).
Proof.
  induction l as [|i l IH]; intros w b x sink Hb Hin.
  - simpl. unfold ret. rewrite with_reads_nil. reflexivity.
  - cbn [for_each]. unfold chase_round at 1.
    erewrite bind_ok; cycle 1.
    { erewrite bind_ok by (eapply array_load_run;
        [eassumption | apply Hin; now left]).
      reflexivity. }
    cbn [fst List.length iterate orbit].
    erewrite (IH _ b); [| exact Hb | intros y Hy; apply Hin; now right].
    rewrite <- with_reads_app. destruct l; reflexivity.
Qed.

Lemma chase_run (n sink : Z) (w : world) (b : block) :
  array w = Some b ->
  (forall y, In y (orbit (blk_cells b) (Z.to_nat n) 0) -> 0 <= y < blk_len b) ->
  chase n sink w =
  Ok (iterate (blk_cells b) (Z.to_nat n) 0,
      if n <=? 0 then sink else iterate (blk_cells b) (Z.to_nat n) 0)
     (with_reads (orbit (blk_cells b) (Z.to_nat n) 0) w).
Proof.
  intros Hb Hin. unfold chase, for_upto.
  erewrite chase_from_run; rewrite ?iota_length; try eassumption.
  destruct (Z.leb_spec n 0) as [Hn|Hn].
  - unfold iota. replace (Z.to_nat n) with 0%nat by lia. reflexivity.
  - unfold iota. destruct (Z.to_nat n) eqn:E; [lia | reflexivity].
Qed.

Lemma rounds_nat_break {S R} (m : nat) (body : S -> M (S + R)) (s : S)
    (w w' : world) (r : R) :
  body s w = Ok (inr r) w' ->
  rounds_nat (Datatypes.S m) body s w = Ok (inr r) w'.
Proof. intros H. cbn [rounds_nat]. erewrite bind_ok by exact H. reflexivity. Qed.

Lemma rounds_nat_continue {S R} (m : nat) (body : S -> M (S + R)) (s s' : S)
    (w w' : world) :
  body s w = Ok (inl s') w' ->
  rounds_nat (Datatypes.S m) body s w = rounds_nat m body s' w'.
Proof. intros H. cbn [rounds_nat]. erewrite bind_ok by exact H. reflexivity. Qed.

Lemma list_set_middle {A} (l1 l2 : list A) (x y : A) :
  list_set (l1 ++ y :: l2) (List.length l1) x = l1 ++ x :: l2.
Proof. induction l1 as [|h l1 IH]; simpl; [reflexivity | now rewrite IH]. Qed.

Lemma vec_at_run {A} (v : list A) (t : nat) (d : A) :
  (t < List.length v)%nat -> vec_at v (Z.of_nat t) = ret (nth t v d).
Proof.
  intros Ht. unfold vec_at.
  rewrite (proj2 (Z.ltb_ge _ _)) by lia.
  rewrite Nat2Z.id, (nth_error_nth' v d Ht). reflexivity.
Qed.

End Stores.

(** ** What the generators store *)

Lemma u32_wrap_small (x : Z) : 0 <= x < U32.modulus -> U32.wrap x = x.
Proof. intros H. unfold U32.wrap. now apply Z.mod_small. Qed.

Section Generators.

Context {P : Platform}.

Variables len stride elems : Z.
Hypothesis Hfits : fits len stride elems.

Let n : nat := Z.to_nat elems.
Let fp : list Z := footprint stride elems.

Lemma elems_range : 0 <= elems - 1 < U32.modulus.
Proof. destruct Hfits as (Hs & He & Hfit & Hlen). split; [lia | nia]. Qed.

Lemma last_position : U32.mul stride (U32.sub elems 1) = (elems - 1) * stride.
Proof.
  destruct Hfits as (Hs & He & Hfit & Hlen).
  unfold U32.mul, U32.sub. rewrite (u32_wrap_small (elems - 1)) by apply elems_range.
  rewrite u32_wrap_small by nia. lia.
Qed.

Lemma slot_position (i : Z) :
  0 <= i < elems -> 0 <= i * stride < len /\ U32.mul i stride = i * stride.
Proof.
  intros Hi. destruct Hfits as (Hs & He & Hfit & Hlen).
  assert (0 <= i * stride < len) by nia.
  split; [assumption|]. unfold U32.mul. apply u32_wrap_small. lia.
Qed.

Lemma succ_mod (k : nat) :
  (k < n)%nat ->
  (Datatypes.S k mod n = if (Datatypes.S k =? n)%nat then 0 else Datatypes.S k)%nat.
Proof.
  intros Hk. destruct (Nat.eqb_spec (Datatypes.S k) n) as [->|Hne].
  - apply Nat.Div0.mod_same.
  - apply Nat.mod_small. lia.
Qed.

(** *** Direct *)

Lemma direct_rounds (m : nat) :
  forall (k : nat) (w : world) (b : block),
    (k + m = n - 1)%nat -> array w = Some b -> blk_len b = len ->
    rounds_nat (Datatypes.S m) (direct_round stride elems) (Z.of_nat k * stride) w =
    Ok (inr tt)
       (with_writes (map (fun i => (nth i fp 0, nth (Datatypes.S i mod n) fp 0))
                         (seq k (Datatypes.S m))) w).
Proof.
  pose proof Hfits as (Hs & He & Hfit & Hlen).
  assert (Hn : Z.of_nat n = elems) by (unfold n; lia).
  induction m as [|m IH]; intros k w b Hk Hb Hbl.
  - assert (Hk' : Z.of_nat k = elems - 1) by lia.
    apply rounds_nat_break. unfold direct_round. rewrite last_position.
    rewrite Hk', Z.leb_refl, Z.eqb_refl.
    erewrite bind_ok by (eapply array_store_run; [eassumption | nia]).
    cbn [seq map]. unfold fp. rewrite footprint_nth by (fold n; lia).
    rewrite succ_mod by lia.
    replace (Datatypes.S k =? n)%nat with true by (symmetry; apply Nat.eqb_eq; lia).
    rewrite footprint_nth by (fold n; lia).
    rewrite Hk'. reflexivity.
  - assert (Hpos : 0 <= Z.of_nat k * stride < len) by nia.
    assert (Hnext : U32.add (Z.of_nat k * stride) stride = Z.of_nat (Datatypes.S k) * stride).
    { unfold U32.add. rewrite u32_wrap_small by nia. lia. }
    rewrite (rounds_nat_continue _ _ _ (Z.of_nat (Datatypes.S k) * stride) _
               (with_writes [(Z.of_nat k * stride, Z.of_nat (Datatypes.S k) * stride)] w)).
    + erewrite IH; [| lia | eapply with_writes_array; eassumption | exact Hbl].
      rewrite <- with_writes_app.
      change (seq k (Datatypes.S (Datatypes.S m)))
        with (k :: seq (Datatypes.S k) (Datatypes.S m)).
      cbn [map app]. rewrite (succ_mod k) by lia.
      replace (Datatypes.S k =? n)%nat with false by (symmetry; apply Nat.eqb_neq; lia).
      unfold fp.
      rewrite (footprint_nth stride elems k), (footprint_nth stride elems (Datatypes.S k))
        by (fold n; lia).
      reflexivity.
    + unfold direct_round. rewrite last_position.
      rewrite (proj2 (Z.leb_le _ _)) by nia.
      rewrite (proj2 (Z.eqb_neq _ _)) by nia.
      erewrite bind_ok by (eapply array_store_run; [eassumption | lia]).
      rewrite Hnext. reflexivity.
Qed.

Lemma fillDirectIndexes_run (w : world) (b : block) :
  array w = Some b -> blk_len b = len ->
  fillDirectIndexes stride elems w = Ok tt (with_writes (links fp) w).
Proof.
  intros Hb Hbl. pose proof Hfits as (Hs & He & Hfit & Hlen).
  assert (Hn : Z.of_nat n = elems) by (unfold n; lia).
  unfold fillDirectIndexes.
  apply (while_loop_leaves (Datatypes.S (n - 1))).
  - pose proof elems_range. lia.
  - change 0 with (Z.of_nat 0 * stride) at 1.
    erewrite direct_rounds; [| | eassumption | assumption]; [|lia].
    unfold links, fp. rewrite footprint_length. fold n.
    replace (Datatypes.S (n - 1)) with n by lia. reflexivity.
Qed.

(** *** Reverse *)

Lemma rev_footprint_nth (k : nat) :
  (k < n)%nat -> nth k (rev fp) 0 = Z.of_nat (n - 1 - k) * stride.
Proof.
  intros Hk. unfold fp. rewrite rev_nth by (rewrite footprint_length; exact Hk).
  rewrite footprint_length. fold n.
  rewrite footprint_nth by (fold n; lia). f_equal. lia.
Qed.

Lemma reverse_rounds (m : nat) :
  forall (k : nat) (w : world) (b : block),
    (k + m = n - 1)%nat -> array w = Some b -> blk_len b = len ->
    rounds_nat (Datatypes.S m) (reverse_round stride elems)
               (Z.of_nat (n - 1 - k) * stride, Z.of_nat k) w =
    Ok (inr tt)
       (with_writes (map (fun i => (nth i (rev fp) 0, nth (Datatypes.S i mod n) (rev fp) 0))
                         (seq k (Datatypes.S m))) w).
Proof.
  pose proof Hfits as (Hs & He & Hfit & Hlen).
  assert (Hn : Z.of_nat n = elems) by (unfold n; lia).
  induction m as [|m IH]; intros k w b Hk Hb Hbl.
  - apply rounds_nat_break. unfold reverse_round. rewrite last_position.
    replace (n - 1 - k)%nat with 0%nat by lia. cbn [Z.of_nat Z.mul].
    rewrite (proj2 (Z.ltb_lt _ _)) by lia. rewrite Z.eqb_refl.
    erewrite bind_ok by (eapply array_store_run; [eassumption | nia]).
    cbn [seq map]. rewrite succ_mod by lia.
    replace (Datatypes.S k =? n)%nat with true by (symmetry; apply Nat.eqb_eq; lia).
    rewrite !rev_footprint_nth by lia.
    replace (n - 1 - k)%nat with 0%nat by lia.
    replace (Z.of_nat (n - 1 - 0)) with (elems - 1) by lia. reflexivity.
  - assert (Hpos : 0 < Z.of_nat (n - 1 - k) * stride < len) by nia.
    assert (Hnext : U32.sub (Z.of_nat (n - 1 - k) * stride) stride =
                    Z.of_nat (n - 1 - Datatypes.S k) * stride).
    { unfold U32.sub. rewrite u32_wrap_small by nia. nia. }
    assert (Hcnt : U32.add (Z.of_nat k) 1 = Z.of_nat (Datatypes.S k)).
    { unfold U32.add. pose proof elems_range. rewrite u32_wrap_small by lia. lia. }
    rewrite (rounds_nat_continue _ _ _
               (Z.of_nat (n - 1 - Datatypes.S k) * stride, Z.of_nat (Datatypes.S k)) _
               (with_writes [(Z.of_nat (n - 1 - k) * stride,
                              Z.of_nat (n - 1 - Datatypes.S k) * stride)] w)).
    + erewrite IH; [| lia | eapply with_writes_array; eassumption | exact Hbl].
      rewrite <- with_writes_app.
      change (seq k (Datatypes.S (Datatypes.S m)))
        with (k :: seq (Datatypes.S k) (Datatypes.S m)).
      cbn [map app]. rewrite (succ_mod k) by lia.
      replace (Datatypes.S k =? n)%nat with false by (symmetry; apply Nat.eqb_neq; lia).
      rewrite (rev_footprint_nth k), (rev_footprint_nth (Datatypes.S k)) by lia.
      reflexivity.
    + unfold reverse_round. rewrite last_position.
      rewrite (proj2 (Z.ltb_lt _ _)) by lia.
      rewrite (proj2 (Z.eqb_neq _ _)) by lia.
      erewrite bind_ok by (eapply array_store_run; [eassumption | lia]).
      rewrite Hnext, Hcnt. reflexivity.
Qed.

Lemma fillReverseIndexes_run (w : world) (b : block) :
  array w = Some b -> blk_len b = len ->
  fillReverseIndexes stride elems w = Ok tt (with_writes (links (rev fp)) w).
Proof.
  intros Hb Hbl. pose proof Hfits as (Hs & He & Hfit & Hlen).
  assert (Hn : Z.of_nat n = elems) by (unfold n; lia).
  unfold fillReverseIndexes. rewrite last_position.
  replace ((elems - 1) * stride, 0)
    with (Z.of_nat (n - 1 - 0) * stride, Z.of_nat 0)
    by (f_equal; try f_equal; lia).
  apply (while_loop_leaves (Datatypes.S (n - 1))).
  - pose proof elems_range. lia.
  - erewrite reverse_rounds; [| | eassumption | assumption]; [|lia].
    unfold links. rewrite length_rev. unfold fp. rewrite footprint_length. fold n.
    replace (Datatypes.S (n - 1)) with n by lia. reflexivity.
Qed.

(** *** Shuffled *)

Lemma init_indexes_upto (k : nat) (w : world) :
  (k <= n)%nat ->
  for_each (map Z.of_nat (seq 0 k)) (fun i v => vec_set v i i) (repeat 0 n) w =
  Ok (map Z.of_nat (seq 0 k) ++ repeat 0 (n - k)) w.
Proof.
  induction k as [|k IH]; intros Hk.
  - simpl. now rewrite Nat.sub_0_r.
  - rewrite seq_S, map_app, for_each_app.
    erewrite bind_ok by (apply IH; lia).
    cbn [Nat.add map for_each]. unfold vec_set.
    rewrite length_app, length_map, length_seq, repeat_length.
    replace ((0 <=? Z.of_nat k) && (Z.of_nat k <? Z.of_nat (k + (n - k)))) with true
      by (symmetry; apply andb_true_intro; split;
          [apply Z.leb_le | apply Z.ltb_lt]; lia).
    replace (n - k)%nat with (Datatypes.S (n - Datatypes.S k)) by lia.
    cbn [repeat]. rewrite Nat2Z.id.
    replace k with (List.length (map Z.of_nat (seq 0 k))) at 3
      by now rewrite length_map, length_seq.
    rewrite list_set_middle, <- app_assoc. reflexivity.
Qed.

Lemma init_indexes (w : world) :
  for_upto elems (fun i v => vec_set v i i) (repeat 0 (Z.to_nat elems)) w =
  Ok (iota elems) w.
Proof.
  unfold for_upto, iota. fold n. rewrite init_indexes_upto by lia.
  now rewrite Nat.sub_diag, app_nil_r.
Qed.

Lemma std_shuffle_run (w : world) :
  std_shuffle (iota elems) w = Ok (drawn elems w) (after_shuffle elems w).
Proof.
  unfold std_shuffle, after_shuffle, drawn.
  destruct (shuffle (gen w) (iota elems)); reflexivity.
Qed.

Lemma scaled_nth (p : list Z) (t : nat) :
  nth t (map (fun x => x * stride) p) 0 = nth t p 0 * stride.
Proof. exact (map_nth (fun x => x * stride) p 0 t). Qed.

Section Drawn.

Variable p : list Z.
Hypothesis Hp : Permutation (iota elems) p.

Lemma drawn_length : List.length p = n.
Proof. rewrite <- (Permutation_length Hp). apply iota_length. Qed.

Lemma drawn_slot (t : nat) : (t < n)%nat -> 0 <= nth t p 0 < elems.
Proof.
  intros Ht. apply iota_In. apply (Permutation_in _ (Permutation_sym Hp)).
  apply nth_In. now rewrite drawn_length.
Qed.

Lemma link_round_run (t : nat) (w : world) :
  (t < n)%nat ->
  link_round stride elems p (Z.of_nat t) tt w =
  array_store (nth t (map (fun x => x * stride) p) 0)
              (nth (Datatypes.S t mod n) (map (fun x => x * stride) p) 0) w.
Proof.
  intros Ht. pose proof Hfits as (Hs & He & Hfit & Hlen).
  assert (Hn : Z.of_nat n = elems) by (unfold n; lia).
  unfold link_round, U32.sub. rewrite (u32_wrap_small (elems - 1)) by apply elems_range.
  rewrite !scaled_nth, succ_mod by assumption.
  rewrite (vec_at_run p t 0) by (rewrite drawn_length; exact Ht).
  destruct (Nat.eqb_spec (Datatypes.S t) n) as [Hlast|Hmore].
  - rewrite (proj2 (Z.eqb_eq _ _)) by lia.
    change (vec_at p 0) with (vec_at p (Z.of_nat 0)).
    rewrite (vec_at_run p 0 0) by (rewrite drawn_length; lia).
    cbn [bind ret].
    destruct (slot_position (nth t p 0) (drawn_slot t Ht)) as [_ ->].
    assert (H0 : (0 < n)%nat) by lia.
    destruct (slot_position (nth 0 p 0) (drawn_slot 0 H0)) as [_ ->].
    reflexivity.
  - rewrite (proj2 (Z.eqb_neq _ _)) by lia.
    assert (Hadd : U32.add (Z.of_nat t) 1 = Z.of_nat (Datatypes.S t)).
    { unfold U32.add. pose proof elems_range. rewrite u32_wrap_small by lia. lia. }
    rewrite Hadd.
    assert (Ht' : (Datatypes.S t < n)%nat) by lia.
    rewrite (vec_at_run p (Datatypes.S t) 0) by (rewrite drawn_length; exact Ht').
    cbn [bind ret].
    destruct (slot_position (nth t p 0) (drawn_slot t Ht)) as [_ ->].
    destruct (slot_position (nth (Datatypes.S t) p 0) (drawn_slot _ Ht')) as [_ ->].
    reflexivity.
Qed.

Lemma links_run (w : world) (b : block) :
  array w = Some b -> blk_len b = len ->
  for_upto elems (link_round stride elems p) tt w =
  Ok tt (with_writes (links (map (fun x => x * stride) p)) w).
Proof.
  intros Hb Hbl. unfold for_upto.
  pose (q := map (fun x => x * stride) p).
  rewrite (for_each_ext _ _
             (fun i _ => array_store (nth (Z.to_nat i) q 0)
                                     (nth (Datatypes.S (Z.to_nat i) mod n) q 0))).
  - erewrite stores_run; [| eassumption |].
    + unfold links, iota. rewrite map_map. fold q.
      replace (List.length q) with n
        by (unfold q; now rewrite length_map, drawn_length).
      f_equal. f_equal. fold n. apply map_ext. intros t. now rewrite Nat2Z.id.
    + intros i Hi. apply iota_In in Hi. unfold q. rewrite scaled_nth, Hbl.
      apply slot_position, drawn_slot. unfold n. lia.
  - intros i [] w' Hi. apply iota_In in Hi.
    rewrite <- (Z2Nat.id i) at 1 by lia.
    apply link_round_run. unfold n. lia.
Qed.

End Drawn.

Context {L : PlatformLaws P}.

Lemma fillShuffledIndexes_run (seed : Z) (w : world) (b : block) :
  array w = Some b -> blk_len b = len ->
  fillShuffledIndexes stride elems seed w =
  Ok tt (with_writes (links (map (fun x => x * stride) (drawn elems w))) (after_shuffle elems w)).
Proof.
  intros Hb Hbl. unfold fillShuffledIndexes.
  erewrite bind_ok by apply init_indexes.
  erewrite bind_ok by apply std_shuffle_run.
  eapply links_run; [apply shuffle_perm | exact Hb | exact Hbl].
Qed.

End Generators.

(** ** Patterns *)

Section Patterns.

Context {P : Platform}.

Variables len stride elems : Z.
Hypothesis Hfits : fits len stride elems.

Let n : nat := Z.to_nat elems.
Let fp : list Z := footprint stride elems.

Lemma links_pattern (q : list Z) (c : Z -> Z) :
  Permutation fp q -> pattern stride elems (apply_writes (links q) c).
Proof.
  intros Hq. exists q. split; [exact Hq|].
  apply ring_links. apply (Permutation_NoDup Hq).
  apply footprint_NoDup. apply Hfits.
Qed.

Lemma links_outside (q : list Z) (c : Z -> Z) (x : Z) :
  Permutation fp q -> ~ In x fp -> apply_writes (links q) c x = c x.
Proof.
  intros Hq Hx. apply links_frame. intros Hin. apply Hx.
  apply (Permutation_in _ (Permutation_sym Hq) Hin).
Qed.

Lemma links_positions (q : list Z) (pos val : Z) :
  Permutation fp q ->
  In (EvWrite pos val) (map (fun pv => EvWrite (fst pv) (snd pv)) (links q)) ->
  In pos fp.
Proof.
  intros Hq Hin. apply in_map_iff in Hin. destruct Hin as [[p v] [Heq Hin]].
  inversion Heq; subst. apply (Permutation_in _ (Permutation_sym Hq)).
  rewrite <- (links_fst q). now apply (in_map fst) in Hin.
Qed.

Lemma zero_in_footprint : In 0 fp.
Proof.
  apply footprint_In. exists 0. destruct Hfits as (_ & He & _). lia.
Qed.

Section OnPattern.

Variable c : Z -> Z.
Hypothesis Hc : pattern stride elems c.

Lemma pattern_start :
  exists q k, Permutation fp q /\ ring q c /\ NoDup q /\
              List.length q = n /\ (k < n)%nat /\ nth k q 0 = 0.
Proof.
  destruct Hc as [q [Hq Hring]].
  assert (Hlen : List.length q = n).
  { rewrite <- (Permutation_length Hq). apply footprint_length. }
  destruct (In_nth q 0 0 (Permutation_in _ Hq zero_in_footprint)) as [k [Hk Hnth]].
  exists q, k. repeat split; try assumption.
  - apply (Permutation_NoDup Hq), footprint_NoDup, Hfits.
  - now rewrite <- Hlen.
Qed.

(** [elems] reads from position 0 lead back to position 0. *)
Lemma pattern_returns : iterate c n 0 = 0.
Proof.
  destruct pattern_start as (q & k & Hq & Hring & Hnd & Hlen & Hk & H0).
  rewrite <- H0 at 1. rewrite <- Hlen.
  rewrite ring_iterate_back by (assumption || lia). exact H0.
Qed.

(** Fewer reads do not. *)
Lemma pattern_not_before (j : nat) : (0 < j < n)%nat -> iterate c j 0 <> 0.
Proof.
  intros Hj.
  destruct pattern_start as (q & k & Hq & Hring & Hnd & Hlen & Hk & H0).
  rewrite <- H0. apply ring_iterate_away; try assumption; lia.
Qed.

(** The [elems] reads touch every position of the footprint once. *)
Lemma pattern_orbit_perm : Permutation (orbit c n 0) fp.
Proof.
  destruct pattern_start as (q & k & Hq & Hring & Hnd & Hlen & Hk & H0).
  rewrite <- H0, <- Hlen.
  eapply Permutation_trans; [|apply Permutation_sym, Hq].
  apply ring_orbit_perm; try assumption; lia.
Qed.

Lemma pattern_orbit_NoDup : NoDup (orbit c n 0).
Proof.
  apply (Permutation_NoDup (Permutation_sym pattern_orbit_perm)).
  apply footprint_NoDup, Hfits.
Qed.

(** However long the chase, it stays on the footprint. *)
Lemma pattern_orbit_incl (j : nat) : incl (orbit c j 0) fp.
Proof.
  destruct pattern_start as (q & k & Hq & Hring & Hnd & Hlen & Hk & H0).
  intros x Hx. apply (Permutation_in _ (Permutation_sym Hq)).
  rewrite <- H0 in Hx. eapply ring_orbit_incl; try eassumption; lia.
Qed.

Lemma pattern_iterate_in (j : nat) : In (iterate c j 0) fp.
Proof.
  destruct pattern_start as (q & k & Hq & Hring & Hnd & Hlen & Hk & H0).
  apply (Permutation_in _ (Permutation_sym Hq)).
  rewrite <- H0, (ring_iterate q c Hring) by lia.
  apply nth_In, Nat.mod_upper_bound. lia.
Qed.

(** The chase of the source on a world that holds the pattern. *)
Lemma pattern_chase (w : world) (b : block) (reads sink : Z) :
  array w = Some b -> blk_len b = len -> blk_cells b = c ->
  chase reads sink w =
  Ok (iterate c (Z.to_nat reads) 0,
      if reads <=? 0 then sink else iterate c (Z.to_nat reads) 0)
     (with_reads (orbit c (Z.to_nat reads) 0) w).
Proof.
  intros Hb Hbl Hcells. rewrite <- Hcells.
  apply chase_run; [exact Hb|].
  intros y Hy. rewrite Hcells in Hy. rewrite Hbl. apply (footprint_bounds len stride elems); [exact Hfits|].
  now apply (pattern_orbit_incl (Z.to_nat reads)).
Qed.

End OnPattern.

End Patterns.

(** ** The generators, as the design document describes them *)

Section GeneratorFacts.

Context {P : Platform}.

Variables stride elems : Z.
Variables (w : world) (b : block).
Hypothesis Hb : array w = Some b.
Hypothesis Hfits : fits (blk_len b) stride elems.

(** The world a generator leaves when it has stored the links of [q]
    into a world [w0] that has the buffer of [w]. *)
Lemma linked_world (q : list Z) (w0 : world) :
  array w0 = Some b ->
  Permutation (footprint stride elems) q ->
  let b' := mkBlock (blk_len b) (apply_writes (links q) (blk_cells b)) in
  array (with_writes (links q) w0) = Some b' /\
  pattern stride elems (blk_cells b') /\
  (forall x, ~ In x (footprint stride elems) -> blk_cells b' x = blk_cells b x).
Proof.
  intros H0 Hq b'. split; [|split].
  - now apply with_writes_array.
  - unfold b'. cbn [blk_cells].
    apply (links_pattern (blk_len b) stride elems Hfits); assumption.
  - intros x Hx. unfold b'. cbn [blk_cells].
    now apply (links_outside stride elems).
Qed.

Lemma confined_links (fill : M unit) (q : list Z) (w0 : world) (pre : list event) :
  array w0 = Some b ->
  trace w0 = trace w ++ pre ->
  (forall pos val, ~ In (EvWrite pos val) pre) ->
  Permutation (footprint stride elems) q ->
  fill w = Ok tt (with_writes (links q) w0) ->
  confined fill stride elems w.
Proof.
  intros H0 Htr Hpre Hq Hrun.
  destruct (linked_world q w0 H0 Hq) as (Harr & Hpat & Hout).
  eexists b, _, _, _. split; [exact Hb|]. split; [exact Hrun|].
  split; [exact Harr|]. split; [|split; [|split]].
  - cbn [with_writes trace]. rewrite Htr, <- app_assoc. reflexivity.
  - intros pos val Hin. apply in_app_or in Hin. destruct Hin as [Hin|Hin].
    + now apply Hpre in Hin.
    + now apply (links_positions stride elems q pos val).
  - exact Hout.
  - intros reads sink. eexists _, _, _. split; [|split].
    + eapply (pattern_chase (blk_len b) stride elems Hfits _ Hpat);
        [exact Harr | reflexivity | reflexivity].
    + reflexivity.
    + intros pos Hin. apply in_map_iff in Hin. destruct Hin as [y [Heq Hy]].
      inversion Heq; subst.
      now apply (pattern_orbit_incl (blk_len b) stride elems Hfits _ Hpat) in Hy.
Qed.

Lemma links_direct_stores :
  map (fun pv => EvWrite (fst pv) (snd pv)) (links (footprint stride elems)) =
  direct_stores stride elems.
Proof.
  pose proof Hfits as (Hs & He & Hfit & Hlen).
  unfold links, direct_stores, iota. rewrite footprint_length, !map_map.
  replace (Z.to_nat elems) with (Datatypes.S (Z.to_nat (elems - 1))) at 1 by lia.
  rewrite seq_S, map_app. cbn [map fst snd Nat.add]. f_equal.
  - apply map_ext_in. intros k Hk. apply in_seq in Hk.
    rewrite footprint_nth, succ_mod by lia.
    replace (Datatypes.S k =? Z.to_nat elems)%nat with false
      by (symmetry; apply Nat.eqb_neq; lia).
    rewrite footprint_nth by lia. f_equal. lia.
  - rewrite footprint_nth, succ_mod by lia.
    replace (Datatypes.S (Z.to_nat (elems - 1)) =? Z.to_nat elems)%nat with true
      by (symmetry; apply Nat.eqb_eq; lia).
    rewrite footprint_nth by lia. rewrite Z2Nat.id by lia. reflexivity.
Qed.

Lemma links_reverse_stores :
  map (fun pv => EvWrite (fst pv) (snd pv)) (links (rev (footprint stride elems))) =
  reverse_stores stride elems.
Proof.
  pose proof Hfits as (Hs & He & Hfit & Hlen).
  unfold links, reverse_stores, iota. rewrite length_rev, footprint_length, !map_map.
  replace (Z.to_nat elems) with (Datatypes.S (Z.to_nat (elems - 1))) at 1 by lia.
  rewrite seq_S, map_app. cbn [map fst snd Nat.add]. f_equal.
  - apply map_ext_in. intros k Hk. apply in_seq in Hk.
    rewrite (rev_footprint_nth stride elems), succ_mod by (assumption || lia).
    replace (Datatypes.S k =? Z.to_nat elems)%nat with false
      by (symmetry; apply Nat.eqb_neq; lia).
    rewrite (rev_footprint_nth stride elems) by (assumption || lia).
    f_equal; f_equal; lia.
  - rewrite (rev_footprint_nth stride elems), succ_mod by (assumption || lia).
    replace (Datatypes.S (Z.to_nat (elems - 1)) =? Z.to_nat elems)%nat with true
      by (symmetry; apply Nat.eqb_eq; lia).
    rewrite (rev_footprint_nth stride elems) by (assumption || lia).
    do 2 f_equal.
    + replace (Z.to_nat elems - 1 - Z.to_nat (elems - 1))%nat with 0%nat by lia.
      reflexivity.
    + f_equal. lia.
Qed.

Lemma direct_written_fits : direct_written stride elems w.
Proof.
  pose proof Hfits as (Hs & He & Hfit & Hlen).
  pose proof (ring_links (footprint stride elems) (blk_cells b)
                (footprint_NoDup stride elems Hs)) as Hring.
  unfold ring in Hring. rewrite footprint_length in Hring.
  eexists _, _.
  split; [exact (fillDirectIndexes_run (blk_len b) stride elems Hfits w b Hb eq_refl)|].
  split; [eapply with_writes_array; exact Hb|].
  split; [|split].
  - cbn [with_writes trace]. now rewrite links_direct_stores.
  - intros i Hi. cbn [blk_cells].
    specialize (Hring (Z.to_nat i) ltac:(lia)).
    rewrite footprint_nth, succ_mod in Hring by lia.
    replace (Datatypes.S (Z.to_nat i) =? Z.to_nat elems)%nat with false in Hring
      by (symmetry; apply Nat.eqb_neq; lia).
    rewrite footprint_nth in Hring by lia.
    rewrite Z2Nat.id in Hring by lia. rewrite Hring. f_equal. lia.
  - cbn [blk_cells].
    specialize (Hring (Z.to_nat (elems - 1)) ltac:(lia)).
    rewrite footprint_nth, succ_mod in Hring by lia.
    replace (Datatypes.S (Z.to_nat (elems - 1)) =? Z.to_nat elems)%nat with true in Hring
      by (symmetry; apply Nat.eqb_eq; lia).
    rewrite footprint_nth in Hring by lia.
    rewrite Z2Nat.id in Hring by lia. exact Hring.
Qed.

Lemma reverse_written_fits : reverse_written stride elems w.
Proof.
  pose proof Hfits as (Hs & He & Hfit & Hlen).
  assert (Hnd : NoDup (rev (footprint stride elems))).
  { apply (Permutation_NoDup (Permutation_rev _)). now apply footprint_NoDup. }
  pose proof (ring_links _ (blk_cells b) Hnd) as Hring.
  unfold ring in Hring. rewrite length_rev, footprint_length in Hring.
  eexists _, _.
  split; [exact (fillReverseIndexes_run (blk_len b) stride elems Hfits w b Hb eq_refl)|].
  split; [eapply with_writes_array; exact Hb|].
  split; [|split].
  - cbn [with_writes trace]. now rewrite links_reverse_stores.
  - intros i Hi. cbn [blk_cells].
    specialize (Hring (Z.to_nat (elems - 1 - i)) ltac:(lia)).
    rewrite (rev_footprint_nth stride elems), succ_mod in Hring by (assumption || lia).
    replace (Datatypes.S (Z.to_nat (elems - 1 - i)) =? Z.to_nat elems)%nat
      with false in Hring by (symmetry; apply Nat.eqb_neq; lia).
    rewrite (rev_footprint_nth stride elems) in Hring by (assumption || lia).
    replace (Z.of_nat (Z.to_nat elems - 1 - Z.to_nat (elems - 1 - i))) with i
      in Hring by lia.
    rewrite Hring. f_equal. lia.
  - cbn [blk_cells].
    specialize (Hring (Z.to_nat (elems - 1)) ltac:(lia)).
    rewrite (rev_footprint_nth stride elems), succ_mod in Hring by (assumption || lia).
    replace (Datatypes.S (Z.to_nat (elems - 1)) =? Z.to_nat elems)%nat
      with true in Hring by (symmetry; apply Nat.eqb_eq; lia).
    rewrite (rev_footprint_nth stride elems) in Hring by (assumption || lia).
    replace (Z.to_nat elems - 1 - Z.to_nat (elems - 1))%nat with 0%nat in Hring by lia.
    cbn [Z.of_nat Z.mul] in Hring. rewrite Hring. f_equal. lia.
Qed.

Context {L : PlatformLaws P}.

Lemma drawn_perm (w0 : world) :
  Permutation (footprint stride elems) (map (fun x => x * stride) (drawn elems w0)).
Proof. apply scaled_perm. unfold drawn. apply shuffle_perm. Qed.

End GeneratorFacts.

(** ** Properties of the generators *)

Section GeneratorClaims.

Context {P : Platform} {L : PlatformLaws P}.

(** C1.  For every [stride >= 1] and [elems >= 1] on which the call is
    defined, that is whose footprint lies inside the buffer
    ([(elems - 1) * stride] below the number of cells, itself at most
    [2^32]), [fillShuffledIndexes(stride, elems)] returns and leaves one
    cycle of length exactly [elems] over
    [{0, stride, ..., (elems - 1) * stride}]: the chase from position 0 is
    back at position 0 after [elems] reads and not before, and these reads
    touch every selected position exactly once.  The generator checks no
    bound: in a block of at most [2^31] cells, as every block that
    [aligned_alloc(PAGE_SIZE, maxMemory)] returns is, a call whose
    footprint does not fit stores outside the block (last section of
    this file). *)
Theorem shuffled_pattern_is_single_cycle (stride elems seed : Z) (w : world) (b : block) :
  array w = Some b ->
  fits (blk_len b) stride elems ->
  shuffled_single_cycle stride elems seed w.
Proof.
  intros Hb Hfits.
  destruct (linked_world stride elems b Hfits
              (map (fun x => x * stride) (drawn elems w))
              (after_shuffle elems w) Hb (drawn_perm stride elems w))
    as (Harr & Hpat & _).
  eexists _, _.
  split; [exact (fillShuffledIndexes_run (blk_len b) stride elems Hfits seed w b Hb eq_refl)|].
  split; [exact Harr|]. split; [|split; [|split; [|split]]].
  - intros reads sink.
    eapply (pattern_chase (blk_len b) stride elems Hfits _ Hpat);
      [exact Harr | reflexivity | reflexivity].
  - apply (pattern_returns (blk_len b) stride elems Hfits _ Hpat).
  - intros j Hj. now apply (pattern_not_before (blk_len b) stride elems Hfits _ Hpat).
  - apply (pattern_orbit_NoDup (blk_len b) stride elems Hfits _ Hpat).
  - apply (pattern_orbit_perm (blk_len b) stride elems Hfits _ Hpat).
Qed.

(** C3, amended.  For every [stride >= 1] and [elems >= 1] whose footprint
    lies inside the buffer, each of the three generators returns, stores
    only at positions of [{0, stride, ..., (elems - 1) * stride}], leaves
    every other cell unchanged, and a chase from position 0 that follows,
    of any length, reads only positions of that set. *)
Theorem generators_keep_to_footprint (stride elems seed : Z) (w : world) (b : block) :
  array w = Some b ->
  fits (blk_len b) stride elems ->
  confined (fillDirectIndexes stride elems) stride elems w /\
  confined (fillReverseIndexes stride elems) stride elems w /\
  confined (fillShuffledIndexes stride elems seed) stride elems w.
Proof.
  intros Hb Hfits. split; [|split].
  - apply (confined_links stride elems w b Hb Hfits _ (footprint stride elems) w []).
    + exact Hb.
    + now rewrite app_nil_r.
    + intros pos val [].
    + apply Permutation_refl.
    + exact (fillDirectIndexes_run (blk_len b) stride elems Hfits w b Hb eq_refl).
  - apply (confined_links stride elems w b Hb Hfits _ (rev (footprint stride elems)) w []).
    + exact Hb.
    + now rewrite app_nil_r.
    + intros pos val [].
    + apply Permutation_rev.
    + exact (fillReverseIndexes_run (blk_len b) stride elems Hfits w b Hb eq_refl).
  - apply (confined_links stride elems w b Hb Hfits _
             (map (fun x => x * stride) (drawn elems w))
             (after_shuffle elems w) [EvShuffle (drawn elems w)]).
    + exact Hb.
    + reflexivity.
    + intros pos val [Heq|[]]. discriminate Heq.
    + exact (drawn_perm stride elems w).
    + exact (fillShuffledIndexes_run (blk_len b) stride elems Hfits seed w b Hb eq_refl).
Qed.

(** C7, amended.  For every [stride >= 1] and [elems >= 1] whose footprint
    lies inside the buffer, [fillDirectIndexes] stores
    [buffer[i * stride] = (i + 1) * stride] for [i = 0 .. elems - 2], then
    [buffer[(elems - 1) * stride] = 0], and [fillReverseIndexes] stores
    [buffer[i * stride] = (i - 1) * stride] for [i = elems - 1 .. 1], then
    [buffer[0] = (elems - 1) * stride]; for [elems = 4], [stride = 1] the
    buffers are [1; 2; 3; 0] and [3; 0; 1; 2]. *)
Theorem direct_and_reverse_patterns (stride elems : Z) (w : world) (b : block) :
  array w = Some b ->
  fits (blk_len b) stride elems ->
  direct_written stride elems w /\
  reverse_written stride elems w /\
  (stride = 1 -> elems = 4 ->
   (exists w', fillDirectIndexes 1 4 w = Ok tt w' /\
               cells_of w' [0; 1; 2; 3] = Some [1; 2; 3; 0]) /\
   (exists w', fillReverseIndexes 1 4 w = Ok tt w' /\
               cells_of w' [0; 1; 2; 3] = Some [3; 0; 1; 2])).
Proof.
  intros Hb Hfits.
  pose proof (direct_written_fits stride elems w b Hb Hfits) as Hd.
  pose proof (reverse_written_fits stride elems w b Hb Hfits) as Hr.
  split; [exact Hd|]. split; [exact Hr|].
  intros -> ->. split.
  - destruct Hd as (w' & b' & Hrun & Harr & _ & Hcells & Hlast).
    exists w'. split; [exact Hrun|]. unfold cells_of. rewrite Harr. cbn [map].
    pose proof (Hcells 0 ltac:(lia)) as H0.
    pose proof (Hcells 1 ltac:(lia)) as H1.
    pose proof (Hcells 2 ltac:(lia)) as H2.
    cbn in H0, H1, H2, Hlast. now rewrite H0, H1, H2, Hlast.
  - destruct Hr as (w' & b' & Hrun & Harr & _ & Hcells & Hfirst).
    exists w'. split; [exact Hrun|]. unfold cells_of. rewrite Harr. cbn [map].
    pose proof (Hcells 1 ltac:(lia)) as H1.
    pose proof (Hcells 2 ltac:(lia)) as H2.
    pose proof (Hcells 3 ltac:(lia)) as H3.
    cbn in H1, H2, H3, Hfirst. now rewrite H1, H2, H3, Hfirst.
Qed.

End GeneratorClaims.

(** The working set [(2, 5)] in a buffer of ten cells. *)
Lemma shuffled_pattern_is_single_cycle_witness :
  shuffled_single_cycle 2 5 42 (RefPlatform.world_of_len 10).
Proof.
  apply (shuffled_pattern_is_single_cycle 2 5 42 (RefPlatform.world_of_len 10)
           (mkBlock 10 fresh_cells)).
  - reflexivity.
  - unfold fits, U32.modulus. cbn [blk_len]. lia.
Defined.

Lemma generators_keep_to_footprint_witness :
  confined (fillDirectIndexes 2 5) 2 5 (RefPlatform.world_of_len 10) /\
  confined (fillReverseIndexes 2 5) 2 5 (RefPlatform.world_of_len 10) /\
  confined (fillShuffledIndexes 2 5 42) 2 5 (RefPlatform.world_of_len 10).
Proof.
  apply (generators_keep_to_footprint 2 5 42 (RefPlatform.world_of_len 10)
           (mkBlock 10 fresh_cells)).
  - reflexivity.
  - unfold fits, U32.modulus. cbn [blk_len]. lia.
Defined.

(** The buffer of [walked_world] is the one [fillDirectIndexes(1, 8)]
    leaves in a fresh block of [2^28] cells. *)
Example walked_world_run :
  fillDirectIndexes 1 8 (RefPlatform.world_of_len (2 ^ 28)) = Ok tt walked_world.
Proof. reflexivity. Qed.

Example walked_world_cells :
  cells_of walked_world [0; 1; 2; 3; 4; 5; 6; 7] = Some [1; 2; 3; 4; 5; 6; 7; 0].
Proof. reflexivity. Qed.

(** As stated for every [stride >= 1] and [elems >= 1], C3 fails where the
    bound of the direct loop wraps around in [uint32_t].  For [stride = 3]
    and [elems = 1431655767] the bound [stride * (elems - 1)] is
    [2^32 + 2], that is 2: the loop stores [array[0] = 3], steps to
    [i = 3], which is beyond the bound, and ends without closing the
    cycle.  In a buffer of [2^28] cells in which [fillDirectIndexes(1, 8)]
    had run before, cell 3 still holds 4, and the chase from position 0
    reads the positions 0, 3 and 4.  Position 4 is no multiple of the
    stride, and no slot below [elems] is at position 4 in [uint32_t]
    either: the chase has left the footprint. *)
Lemma direct_chase_leaves_footprint :
  ~ confined (fillDirectIndexes 3 1431655767) 3 1431655767 walked_world /\
  (forall i, 0 <= i < 1431655767 -> U32.mul i 3 <> 4).
Proof.
  split.
  - intros (b & w' & b' & evs & _ & Hrun & _ & _ & _ & _ & Hchase).
    assert (E : fillDirectIndexes 3 1431655767 walked_world
                = Ok tt (with_writes [(0, 3)] walked_world)) by reflexivity.
    rewrite E in Hrun. injection Hrun as <-.
    destruct (Hchase 3 0) as (r & w'' & evs' & Hc & Ht & Hin).
    assert (E' : chase 3 0 (with_writes [(0, 3)] walked_world)
                 = Ok (5, 5) (with_reads [0; 3; 4] (with_writes [(0, 3)] walked_world)))
      by reflexivity.
    rewrite E' in Hc. injection Hc as _ <-.
    unfold with_reads in Ht. cbn [trace] in Ht.
    apply app_inv_head in Ht. subst evs'.
    specialize (Hin 4 (or_intror (or_intror (or_introl eq_refl)))).
    apply footprint_In in Hin. destruct Hin as (i & _ & Hi). lia.
  - intros i Hi Hwrap. unfold U32.mul, U32.wrap, U32.modulus in Hwrap.
    pose proof (Z.div_mod (i * 3) (2 ^ 32) ltac:(lia)) as Hdm.
    assert (Hq : 0 <= i * 3 / 2 ^ 32) by (apply Z.div_pos; lia).
    lia.
Qed.

Lemma direct_and_reverse_patterns_witness :
  direct_written 1 4 (RefPlatform.world_of_len 4) /\
  reverse_written 1 4 (RefPlatform.world_of_len 4) /\
  (1 = 1 -> 4 = 4 ->
   (exists w', fillDirectIndexes 1 4 (RefPlatform.world_of_len 4) = Ok tt w' /\
               cells_of w' [0; 1; 2; 3] = Some [1; 2; 3; 0]) /\
   (exists w', fillReverseIndexes 1 4 (RefPlatform.world_of_len 4) = Ok tt w' /\
               cells_of w' [0; 1; 2; 3] = Some [3; 0; 1; 2])).
Proof.
  apply (direct_and_reverse_patterns 1 4 (RefPlatform.world_of_len 4)
           (mkBlock 4 fresh_cells)).
  - reflexivity.
  - unfold fits, U32.modulus. cbn [blk_len]. lia.
Defined.

(** As stated for every [stride >= 1] and [elems >= 1], C7 fails: for
    [stride = 2^31] and [elems = 3] the bound [stride * (elems - 1)] of the
    direct loop wraps to 0, the first round is the last, and the only store
    is [array[0] = 0], not [array[0] = stride]. *)
Lemma direct_bound_wraps :
  ~ direct_written (2 ^ 31) 3 (RefPlatform.world_of_len (2 ^ 28)).
Proof.
  intros (w' & b' & Hrun & Harr & _ & Hcells & _).
  assert (E : fillDirectIndexes (2 ^ 31) 3 (RefPlatform.world_of_len (2 ^ 28))
              = Ok tt (with_writes [(0, 0)] (RefPlatform.world_of_len (2 ^ 28))))
    by reflexivity.
  rewrite E in Hrun. injection Hrun as <-.
  injection Harr as <-.
  specialize (Hcells 0 ltac:(lia)). vm_compute in Hcells. discriminate Hcells.
Qed.

(** ** The timed reader *)

Section TimedReader.

Context {P : Platform}.

Lemma steady_clock_now_run (w : world) :
  steady_clock_now w = Ok (steady_now (clock w)) (ticked w).
Proof. reflexivity. Qed.

Lemma batch_world_array (stride elems reads warm : Z) (w : world) (b : block) :
  array w = Some b ->
  array (batch_world stride elems reads warm w) =
  Some (mkBlock (blk_len b) (shuffled stride elems (gen w) (blk_cells b))).
Proof.
  intros Hb. unfold batch_world. cbn [ticked with_reads array].
  erewrite with_writes_array by exact Hb. reflexivity.
Qed.

Lemma batch_world_gen (stride elems reads warm : Z) (w : world) :
  gen (batch_world stride elems reads warm w) = snd (shuffle (gen w) (iota elems)).
Proof. reflexivity. Qed.

Lemma batch_world_clock (stride elems reads warm : Z) (w : world) :
  clock (batch_world stride elems reads warm w) = Datatypes.S (Datatypes.S (clock w)).
Proof. reflexivity. Qed.

Lemma batch_world_trace (stride elems reads warm : Z) (w : world) (b : block) :
  array w = Some b ->
  trace (batch_world stride elems reads warm w) =
  trace w ++ batch_events stride elems reads warm (gen w) (blk_cells b) (clock w).
Proof.
  intros Hb. unfold batch_world, batch_events, cells.
  erewrite with_writes_array by exact Hb.
  cbn [ticked with_reads with_writes after_shuffle trace clock blk_cells].
  unfold shuffled, drawn. rewrite <- !app_assoc. cbn [app]. reflexivity.
Qed.

Context {L : PlatformLaws P}.

Variables stride elems reads warm : Z.

Lemma batch_round_run (batch : Z) (st : Z * Z) (w : world) (b : block) :
  array w = Some b ->
  fits (blk_len b) stride elems ->
  exists sink',
    batch_round stride elems reads warm batch st w =
    Ok (fst st + (steady_now (Datatypes.S (clock w)) - steady_now (clock w)), sink')
       (batch_world stride elems reads warm w).
Proof.
  intros Hb Hfits.
  destruct (linked_world stride elems b Hfits
              (map (fun x => x * stride) (drawn elems w))
              (after_shuffle elems w) Hb (drawn_perm stride elems w))
    as (Harr & Hpat & _).
  eexists. unfold batch_round.
  erewrite bind_ok
    by exact (fillShuffledIndexes_run (blk_len b) stride elems Hfits 42 w b Hb eq_refl).
  erewrite bind_ok
    by (eapply (pattern_chase (blk_len b) stride elems Hfits _ Hpat);
        [exact Harr | reflexivity | reflexivity]).
  erewrite bind_ok by apply steady_clock_now_run.
  erewrite bind_ok
    by (eapply (pattern_chase (blk_len b) stride elems Hfits _ Hpat);
        [exact Harr | reflexivity | reflexivity]).
  erewrite bind_ok by apply steady_clock_now_run.
  unfold batch_world, cells. rewrite Harr. reflexivity.
Qed.

Lemma batches_run (l : list Z) :
  forall (st : Z * Z) (w : world) (b : block),
    array w = Some b ->
    fits (blk_len b) stride elems ->
    exists sink',
      for_each l (batch_round stride elems reads warm) st w =
      Ok (fst st + intervals (List.length l) (clock w), sink')
         (Nat.iter (List.length l) (batch_world stride elems reads warm) w).
Proof.
  induction l as [|i l IH]; intros st w b Hb Hfits.
  - exists (snd st). cbn. unfold ret. rewrite Z.add_0_r. now destruct st.
  - destruct (batch_round_run i st w b Hb Hfits) as [s1 Hstep].
    destruct (IH (fst st + (steady_now (Datatypes.S (clock w)) - steady_now (clock w)), s1)
                 (batch_world stride elems reads warm w) _
                 (batch_world_array stride elems reads warm w b Hb) Hfits)
      as [s2 Hrest].
    exists s2. cbn [for_each]. erewrite bind_ok by exact Hstep.
    rewrite Hrest. cbn [fst List.length intervals].
    rewrite batch_world_clock, Nat.iter_succ_r. f_equal. f_equal. lia.
Qed.

Lemma timeOfArrayRead_run (batches : Z) (w : world) (b : block) :
  array w = Some b ->
  fits (blk_len b) stride elems ->
  1 <= batches ->
  timeOfArrayRead stride elems reads warm batches w =
  Ok (Z.quot (intervals (Z.to_nat batches) (clock w)) batches)
     (Nat.iter (Z.to_nat batches) (batch_world stride elems reads warm)
               (entered stride elems w)).
Proof.
  intros Hb Hfits Hbatches. unfold timeOfArrayRead.
  erewrite bind_ok by reflexivity.
  destruct (batches_run (iota batches) (0, 0) (entered stride elems w) b Hb Hfits)
    as [sink' Hloop].
  unfold for_upto. erewrite bind_ok by exact Hloop.
  rewrite (proj2 (Z.eqb_neq _ _)) by lia.
  rewrite iota_length. reflexivity.
Qed.

(** The world after [k] batches. *)
Lemma batches_world (k : nat) :
  forall (w : world) (b : block),
    array w = Some b ->
    let w' := Nat.iter k (batch_world stride elems reads warm) w in
    (exists b', array w' = Some b' /\ blk_len b' = blk_len b) /\
    gen w' = engine_at elems k (gen w) /\
    clock w' = (clock w + 2 * k)%nat /\
    arrayLen w' = arrayLen w /\ cout w' = cout w /\ cerr w' = cerr w /\
    trace w' =
    trace w ++ batches_events stride elems reads warm k (gen w) (blk_cells b) (clock w).
Proof.
  induction k as [|k IH]; intros w b Hb.
  - cbn. rewrite app_nil_r, Nat.add_0_r. repeat split; try reflexivity.
    now exists b.
  - intros w'. unfold w'. rewrite Nat.iter_succ_r.
    destruct (IH (batch_world stride elems reads warm w) _
                 (batch_world_array stride elems reads warm w b Hb))
      as ((b' & Hb' & Hlen) & Hgen & Hclock & Hal & Hout & Herr & Htrace).
    repeat split.
    + now exists b'.
    + exact Hgen.
    + rewrite Hclock, batch_world_clock. lia.
    + exact Hal.
    + exact Hout.
    + exact Herr.
    + rewrite Htrace, (batch_world_trace stride elems reads warm w b Hb).
      rewrite batch_world_clock. cbn [batches_events blk_cells].
      now rewrite <- app_assoc.
Qed.

End TimedReader.

(** ** Reading a trace *)

Section Traces.

Lemma flat_map_writes {A} (f : event -> list A) (ws : list (Z * Z)) :
  (forall pos val, f (EvWrite pos val) = []) ->
  flat_map f (map (fun pv => EvWrite (fst pv) (snd pv)) ws) = [].
Proof.
  intros Hf. induction ws as [|[p v] ws IH]; simpl; [reflexivity|].
  now rewrite Hf, IH.
Qed.

Lemma flat_map_reads {A} (f : event -> list A) (ps : list Z) :
  (forall pos, f (EvRead pos) = []) ->
  flat_map f (map EvRead ps) = [].
Proof.
  intros Hf. induction ps as [|p ps IH]; simpl; [reflexivity|].
  now rewrite Hf, IH.
Qed.

Lemma timed_reads_skip_writes (inside : bool) (cur : list Z)
    (ws : list (Z * Z)) (r : list event) :
  timed_reads_from inside cur (map (fun pv => EvWrite (fst pv) (snd pv)) ws ++ r) =
  timed_reads_from inside cur r.
Proof. induction ws as [|[p v] ws IH]; simpl; [reflexivity | exact IH]. Qed.

Lemma timed_reads_outside (ps : list Z) (r : list event) :
  timed_reads_from false [] (map EvRead ps ++ r) = timed_reads_from false [] r.
Proof. induction ps as [|p ps IH]; simpl; [reflexivity | exact IH]. Qed.

Lemma timed_reads_inside (ps : list Z) :
  forall (cur : list Z) (r : list event),
    timed_reads_from true cur (map EvRead ps ++ r) =
    timed_reads_from true (cur ++ ps) r.
Proof.
  induction ps as [|p ps IH]; intros cur r; simpl.
  - now rewrite app_nil_r.
  - rewrite IH, <- app_assoc. reflexivity.
Qed.

Lemma writes_of_stores (ws : list (Z * Z)) :
  writes_of (map (fun pv => EvWrite (fst pv) (snd pv)) ws) = ws.
Proof.
  induction ws as [|[pos val] ws IH]; [reflexivity|].
  cbn [map fst snd].
  change (writes_of (EvWrite pos val :: ?l)) with ((pos, val) :: writes_of l).
  now rewrite IH.
Qed.

Lemma writes_of_app (l1 l2 : list event) :
  writes_of (l1 ++ l2) = writes_of l1 ++ writes_of l2.
Proof. apply flat_map_app. Qed.

Lemma writes_of_reads (ps : list Z) : writes_of (map EvRead ps) = [].
Proof. apply flat_map_reads. reflexivity. Qed.

Context {P : Platform}.

Variables stride elems reads warm : Z.

Lemma batch_events_then (g : engine) (c : Z -> Z) (clk : nat) (r : list event) :
  batch_events stride elems reads warm g c clk ++ r =
  EvShuffle (fst (shuffle g (iota elems)))
  :: map (fun pv => EvWrite (fst pv) (snd pv))
         (links (map (fun x => x * stride) (fst (shuffle g (iota elems)))))
  ++ map EvRead (orbit (shuffled stride elems g c) (Z.to_nat warm) 0)
  ++ EvNow (steady_now clk)
  :: map EvRead (orbit (shuffled stride elems g c) (Z.to_nat reads) 0)
  ++ EvNow (steady_now (Datatypes.S clk)) :: r.
Proof.
  unfold batch_events. cbn [app]. rewrite <- !app_assoc. cbn [app].
  rewrite <- !app_assoc. reflexivity.
Qed.

Lemma map_seq_succ {A} (f : nat -> A) (k : nat) :
  map f (seq 0 (Datatypes.S k)) = f 0%nat :: map (fun j => f (Datatypes.S j)) (seq 0 k).
Proof. cbn [seq map]. now rewrite <- seq_shift, map_map. Qed.

Lemma shuffles_of_batches (k : nat) :
  forall (g : engine) (c : Z -> Z) (clk : nat),
    shuffles_of (batches_events stride elems reads warm k g c clk) =
    map (fun j => fst (shuffle (engine_at elems j g) (iota elems))) (seq 0 k).
Proof.
  induction k as [|k IH]; intros g c clk; [reflexivity|].
  cbn [batches_events]. rewrite batch_events_then, map_seq_succ.
  unfold shuffles_of in *. cbn [flat_map app]. f_equal.
  rewrite !flat_map_app, flat_map_writes, flat_map_reads by reflexivity.
  cbn [flat_map app]. rewrite flat_map_app, flat_map_reads by reflexivity.
  cbn [flat_map app]. apply IH.
Qed.

Lemma writes_of_batches (k : nat) :
  forall (g : engine) (c : Z -> Z) (clk : nat),
    writes_of (batches_events stride elems reads warm k g c clk) =
    flat_map (fun j => links (map (fun x => x * stride)
                                  (fst (shuffle (engine_at elems j g) (iota elems)))))
             (seq 0 k).
Proof.
  induction k as [|k IH]; intros g c clk; [reflexivity|].
  cbn [batches_events]. rewrite batch_events_then.
  cbn [seq flat_map]. rewrite <- seq_shift, flat_map_concat_map, map_map,
    <- flat_map_concat_map.
  change (writes_of (EvShuffle ?q :: ?l)) with (writes_of l).
  rewrite writes_of_app, writes_of_stores. cbn [engine_at]. f_equal.
  rewrite writes_of_app, writes_of_reads. cbn [app].
  change (writes_of (EvNow ?t :: ?l)) with (writes_of l).
  rewrite writes_of_app, writes_of_reads. cbn [app].
  change (writes_of (EvNow ?t :: ?l)) with (writes_of l).
  apply IH.
Qed.

Lemma nows_of_batches (k : nat) :
  forall (g : engine) (c : Z -> Z) (clk : nat),
    nows_of (batches_events stride elems reads warm k g c clk) =
    map (fun i => steady_now (clk + i)) (seq 0 (2 * k)).
Proof.
  induction k as [|k IH]; intros g c clk; [reflexivity|].
  cbn [batches_events]. rewrite batch_events_then.
  replace (2 * Datatypes.S k)%nat with (Datatypes.S (Datatypes.S (2 * k))) by lia.
  rewrite map_seq_succ, map_seq_succ.
  unfold nows_of in *. cbn [flat_map app].
  rewrite !flat_map_app, flat_map_writes, flat_map_reads by reflexivity.
  cbn [flat_map app]. rewrite flat_map_app, flat_map_reads by reflexivity.
  cbn [flat_map app]. rewrite IH, Nat.add_0_r. cbn beta.
  replace (clk + 1)%nat with (Datatypes.S clk) by lia.
  do 2 f_equal. apply map_ext. intros i. f_equal. lia.
Qed.

Lemma pair_diffs_readings (k : nat) :
  forall clk : nat,
    Zsum (pair_diffs (map (fun i => steady_now (clk + i)) (seq 0 (2 * k)))) =
    intervals k clk /\
    List.length (pair_diffs (map (fun i => steady_now (clk + i)) (seq 0 (2 * k)))) = k.
Proof.
  induction k as [|k IH]; intros clk; [split; reflexivity|].
  replace (2 * Datatypes.S k)%nat with (Datatypes.S (Datatypes.S (2 * k))) by lia.
  rewrite map_seq_succ, map_seq_succ. cbn [pair_diffs Zsum fold_right List.length intervals].
  destruct (IH (Datatypes.S (Datatypes.S clk))) as [Hsum Hlen].
  rewrite (map_ext _ (fun i => steady_now (Datatypes.S (Datatypes.S clk) + i)))
    by (intros i; f_equal; lia).
  fold (Zsum (pair_diffs (map (fun i => steady_now (Datatypes.S (Datatypes.S clk) + i))
                              (seq 0 (2 * k))))).
  rewrite Hsum, Hlen, Nat.add_0_r.
  replace (clk + 1)%nat with (Datatypes.S clk) by lia. split; reflexivity.
Qed.

Lemma timed_reads_of_batches (k : nat) :
  forall (g : engine) (c : Z -> Z) (clk : nat),
    timed_reads (batches_events stride elems reads warm k g c clk) =
    map (fun j => orbit (cells_at stride elems j g c) (Z.to_nat reads) 0) (seq 0 k).
Proof.
  induction k as [|k IH]; intros g c clk; [reflexivity|].
  cbn [batches_events]. rewrite batch_events_then, map_seq_succ.
  unfold timed_reads in *. cbn [timed_reads_from].
  rewrite timed_reads_skip_writes, timed_reads_outside. cbn [timed_reads_from].
  rewrite timed_reads_inside. cbn [timed_reads_from app cells_at].
  f_equal. apply IH.
Qed.

End Traces.

(** ** Properties of the timed reader *)

Section TimedReaderClaims.

Context {P : Platform} {L : PlatformLaws P}.

Variables stride elems reads warm batches : Z.
Variables (w : world) (b : block).
Hypothesis Hb : array w = Some b.
Hypothesis Hfits : fits (blk_len b) stride elems.
Hypothesis Hbatches : 1 <= batches.

(** The call, with the world it leaves. *)
Lemma timeOfArrayRead_trace :
  exists w',
    timeOfArrayRead stride elems reads warm batches w =
    Ok (Z.quot (intervals (Z.to_nat batches) (clock w)) batches) w' /\
    trace w' =
    trace w ++ EvTimed stride elems
            :: batches_events stride elems reads warm (Z.to_nat batches)
                 (gen w) (cells w) (clock w) /\
    (exists b', array w' = Some b' /\ blk_len b' = blk_len b) /\
    gen w' = engine_at elems (Z.to_nat batches) (gen w) /\
    clock w' = (clock w + 2 * Z.to_nat batches)%nat /\
    arrayLen w' = arrayLen w /\ cout w' = cout w /\ cerr w' = cerr w.
Proof.
  eexists. split.
  - now apply (timeOfArrayRead_run stride elems reads warm batches w b).
  - destruct (batches_world stride elems reads warm (Z.to_nat batches)
                (entered stride elems w) b Hb)
      as (Harr & Hgen & Hclock & Hal & Hout & Herr & Htrace).
    repeat split; try assumption.
    rewrite Htrace. cbn [entered trace gen clock]. unfold cells. rewrite Hb.
    now rewrite <- app_assoc.
Qed.

(** C2, amended.  In [timeOfArrayRead], within each batch the timed phase
    performs its [readsCount] chained reads starting again from position 0
    (its loop declares its own index, initialised to 0); it does not go on
    from the index at which the warm-up left off. *)
Theorem timed_phase_restarts_at_zero :
  timed_phase_starts_at position_zero stride elems reads warm batches w.
Proof.
  destruct timeOfArrayRead_trace as (w' & Hrun & Htrace & _).
  eexists _, w', _. split; [exact Hrun|]. split; [exact Htrace|].
  change (timed_reads (EvTimed stride elems
            :: batches_events stride elems reads warm (Z.to_nat batches)
                 (gen w) (cells w) (clock w)))
    with (timed_reads (batches_events stride elems reads warm (Z.to_nat batches)
                         (gen w) (cells w) (clock w))).
  apply timed_reads_of_batches.
Qed.

(** C4.  [timeOfArrayRead] draws the shuffled pattern once per batch, each
    draw from the engine as the draw before left it, and returns the sum
    of the [batchesCount] timed intervals divided by [batchesCount]. *)
Theorem timed_reader_regenerates_and_averages :
  regenerates_and_averages stride elems reads warm batches w.
Proof.
  destruct timeOfArrayRead_trace as (w' & Hrun & Htrace & _ & Hgen & _).
  eexists _, w', _. split; [exact Hrun|]. split; [exact Htrace|].
  split; [reflexivity|].
  assert (Hnows : nows_of (EvTimed stride elems
                    :: batches_events stride elems reads warm (Z.to_nat batches)
                         (gen w) (cells w) (clock w)) =
                  map (fun i => steady_now (clock w + i)) (seq 0 (2 * Z.to_nat batches))).
  { change (nows_of (EvTimed stride elems
              :: batches_events stride elems reads warm (Z.to_nat batches)
                   (gen w) (cells w) (clock w)))
      with (nows_of (batches_events stride elems reads warm (Z.to_nat batches)
                       (gen w) (cells w) (clock w))).
    apply nows_of_batches. }
  destruct (pair_diffs_readings (Z.to_nat batches) (clock w)) as [Hsum Hlen].
  split; [|split; [exact Hgen|split]].
  - change (shuffles_of (EvTimed stride elems
              :: batches_events stride elems reads warm (Z.to_nat batches)
                   (gen w) (cells w) (clock w)))
      with (shuffles_of (batches_events stride elems reads warm (Z.to_nat batches)
                           (gen w) (cells w) (clock w))).
    apply shuffles_of_batches.
  - unfold timed_intervals. rewrite Hnows. exact Hlen.
  - unfold timed_intervals. rewrite Hnows, Hsum. reflexivity.
Qed.

End TimedReaderClaims.

Lemma timed_phase_restarts_at_zero_witness :
  timed_phase_starts_at position_zero 1 3 4 2 2 (RefPlatform.world_of_len 10).
Proof.
  apply (timed_phase_restarts_at_zero 1 3 4 2 2 (RefPlatform.world_of_len 10)
           (mkBlock 10 fresh_cells)).
  - reflexivity.
  - unfold fits, U32.modulus. cbn [blk_len]. lia.
  - lia.
Defined.

(** As stated, C2 fails: with two slots at stride 1, one warm-up read and
    one timed read, the warm-up leaves the index at 1 and the timed read
    is at position 0. *)
Lemma timed_phase_does_not_continue :
  ~ timed_phase_starts_at (warmup_end 1) 1 2 1 1 1 (RefPlatform.world_of_len 10).
Proof.
  intros (r & w' & evs & Hrun & Htr & Hreads).
  rewrite (timeOfArrayRead_run 1 2 1 1 1 (RefPlatform.world_of_len 10)
             (mkBlock 10 fresh_cells)) in Hrun;
    [| reflexivity | unfold fits, U32.modulus; cbn [blk_len]; lia | lia].
  injection Hrun as _ <-.
  change (trace (RefPlatform.world_of_len 10)) with (@nil event) in Htr.
  cbn [app] in Htr. rewrite <- Htr in Hreads.
  vm_compute in Hreads. discriminate Hreads.
Qed.

Lemma timed_reader_regenerates_and_averages_witness :
  regenerates_and_averages 1 3 4 2 2 (RefPlatform.world_of_len 10).
Proof.
  apply (timed_reader_regenerates_and_averages 1 3 4 2 2 (RefPlatform.world_of_len 10)
           (mkBlock 10 fresh_cells)).
  - reflexivity.
  - unfold fits, U32.modulus. cbn [blk_len]. lia.
  - lia.
Defined.

(** ** Start-up and seeding *)

Lemma main_check_passes {P : Platform} (maxMemory maxAssoc maxStride minStride : Z) :
  U32.mul maxAssoc maxStride <= maxMemory ->
  main_with maxMemory maxAssoc maxStride minStride initial_world =
  main_measure maxMemory maxAssoc maxStride minStride (allocated maxMemory).
Proof.
  intros Hpass. unfold main_with, rassert.
  rewrite (proj2 (Z.leb_le _ _)) by lia. reflexivity.
Qed.

(** C5, amended.  When the check [maxAssoc * maxStride <= maxMemory] as
    [main] evaluates it, with the product taken in [uint32_t], that is
    modulo [2^32], fails, as it does for 33, 2^25 and 2^30, the process
    exits with status 1 after printing the identifier 1 to the error
    stream, before the buffer is allocated: nothing is allocated and
    nothing is on the standard output.  When the check holds there is no
    such exit: [main] allocates the buffer and goes on from there.  The
    product of the check is the mathematical one whenever that is below
    [2^32]. *)
Theorem startup_check {P : Platform} (maxMemory maxAssoc maxStride minStride : Z) :
  (U32.mul maxAssoc maxStride > maxMemory ->
   main_with maxMemory maxAssoc maxStride minStride initial_world = Exit 1 refused) /\
  (U32.mul maxAssoc maxStride <= maxMemory ->
   main_with maxMemory maxAssoc maxStride minStride initial_world =
   main_measure maxMemory maxAssoc maxStride minStride (allocated maxMemory)) /\
  (0 <= maxAssoc * maxStride < U32.modulus ->
   U32.mul maxAssoc maxStride = maxAssoc * maxStride) /\
  U32.mul 33 (2 ^ 25) > 2 ^ 30.
Proof.
  split; [|split; [|split]].
  - intros Hfail. unfold main_with, rassert.
    rewrite (proj2 (Z.leb_gt _ _)) by lia. reflexivity.
  - apply main_check_passes.
  - intros Hsmall. unfold U32.mul. now apply u32_wrap_small.
  - reflexivity.
Qed.

Lemma startup_check_witness :
  main_with (2 ^ 30) 33 (2 ^ 25) 16 (initial_world (P := RefPlatform.ref)) = Exit 1 refused /\
  main_with (2 ^ 30) 32 (2 ^ 25) 16 (initial_world (P := RefPlatform.ref)) =
  main_measure (2 ^ 30) 32 (2 ^ 25) 16 (allocated (2 ^ 30)).
Proof.
  split.
  - apply (proj1 (startup_check (2 ^ 30) 33 (2 ^ 25) 16)). reflexivity.
  - apply (proj1 (proj2 (startup_check (2 ^ 30) 32 (2 ^ 25) 16))).
    intros H. discriminate H.
Defined.

(** *** What can end the process *)

Section Exits.

Context {P : Platform}.

Lemma never_exits_ret {A} (a : A) : never_exits (ret a).
Proof. intros w status w' H. discriminate H. Qed.

Lemma never_exits_undefined {A} : never_exits (undefined (A := A)).
Proof. intros w status w' H. discriminate H. Qed.

Lemma never_exits_bind {A B} (m : M A) (k : A -> M B) :
  never_exits m -> (forall a, never_exits (k a)) -> never_exits (bind m k).
Proof.
  intros Hm Hk w status w'. unfold bind.
  destruct (m w) as [a w1|status1 w1| |] eqn:E; try discriminate.
  - apply Hk.
  - destruct (Hm w status1 w1 E).
Qed.

Lemma never_exits_for_each {A S} (l : list A) (body : A -> S -> M S) :
  (forall i s, never_exits (body i s)) ->
  forall s, never_exits (for_each l body s).
Proof.
  intros Hbody. induction l as [|i l IH]; intros s; cbn [for_each].
  - apply never_exits_ret.
  - apply never_exits_bind; [apply Hbody | exact IH].
Qed.

Lemma never_exits_for_upto {S} (n : Z) (body : Z -> S -> M S) :
  (forall i s, never_exits (body i s)) ->
  forall s, never_exits (for_upto n body s).
Proof. intros Hbody s. now apply never_exits_for_each. Qed.

Lemma never_exits_rounds {S R} (body : S -> M (S + R)) :
  (forall s, never_exits (body s)) ->
  forall p s, never_exits (rounds p body s).
Proof.
  intros Hbody. induction p as [p IH|p IH|]; intros s; cbn [rounds].
  - apply never_exits_bind; [apply Hbody|]. intros [s1|r]; [|apply never_exits_ret].
    apply never_exits_bind; [apply IH|]. intros [s2|r]; [apply IH | apply never_exits_ret].
  - apply never_exits_bind; [apply IH|]. intros [s1|r]; [apply IH | apply never_exits_ret].
  - apply Hbody.
Qed.

Lemma never_exits_while_loop {S R} (body : S -> M (S + R)) :
  (forall s, never_exits (body s)) ->
  forall s, never_exits (while_loop (R := R) body s).
Proof.
  intros Hbody s. unfold while_loop.
  apply never_exits_bind; [now apply never_exits_rounds|].
  intros [s'|r]; [|apply never_exits_ret].
  intros w status w' H. discriminate H.
Qed.

Lemma never_exits_vec_at {A} (v : list A) (i : Z) : never_exits (vec_at v i).
Proof.
  unfold vec_at. destruct (i <? 0); [apply never_exits_undefined|].
  destruct (nth_error v (Z.to_nat i)); [apply never_exits_ret | apply never_exits_undefined].
Qed.

Lemma never_exits_vec_set {A} (v : list A) (i : Z) (x : A) : never_exits (vec_set v i x).
Proof.
  unfold vec_set. destruct (_ && _); [apply never_exits_ret | apply never_exits_undefined].
Qed.

Lemma never_exits_array_store (pos val : Z) : never_exits (array_store pos val).
Proof.
  intros w status w'. unfold array_store.
  destruct (array w); [destruct (_ && _)|]; discriminate.
Qed.

Lemma never_exits_array_load (pos : Z) : never_exits (array_load pos).
Proof.
  intros w status w'. unfold array_load.
  destruct (array w); [destruct (_ && _)|]; discriminate.
Qed.

Lemma never_exits_std_shuffle (v : list Z) : never_exits (std_shuffle v).
Proof.
  intros w status w'. unfold std_shuffle. destruct (shuffle (gen w) v). discriminate.
Qed.

Lemma never_exits_print_out (s : string) : never_exits (print_out s).
Proof. intros w status w' H. discriminate H. Qed.

Lemma never_exits_emit (e : event) : never_exits (emit e).
Proof. intros w status w' H. discriminate H. Qed.

Lemma never_exits_steady_clock_now : never_exits steady_clock_now.
Proof. intros w status w' H. discriminate H. Qed.

Lemma never_exits_set_arrayLen (n : Z) : never_exits (set_arrayLen n).
Proof. intros w status w' H. discriminate H. Qed.

Lemma never_exits_get_arrayLen : never_exits get_arrayLen.
Proof. intros w status w' H. discriminate H. Qed.

Lemma never_exits_free_array : never_exits free_array.
Proof. intros w status w' H. discriminate H. Qed.

(** The steps of a proof that a function of the source never exits: it
    is built from the operations above, none of which is [rassert]. *)
Ltac no_exit :=
  repeat match goal with
    | |- forall _, _ => intro
    | |- never_exits (ret _) => apply never_exits_ret
    | |- never_exits undefined => apply never_exits_undefined
    | |- never_exits (bind _ _) => apply never_exits_bind
    | |- never_exits (for_upto _ _ _) => apply never_exits_for_upto
    | |- never_exits (while_loop _ _) => apply never_exits_while_loop
    | |- never_exits (vec_at _ _) => apply never_exits_vec_at
    | |- never_exits (vec_set _ _ _) => apply never_exits_vec_set
    | |- never_exits (array_store _ _) => apply never_exits_array_store
    | |- never_exits (array_load _) => apply never_exits_array_load
    | |- never_exits (std_shuffle _) => apply never_exits_std_shuffle
    | |- never_exits (print_out _) => apply never_exits_print_out
    | |- never_exits (emit _) => apply never_exits_emit
    | |- never_exits steady_clock_now => apply never_exits_steady_clock_now
    | |- never_exits (if ?c then _ else _) => destruct c
    | |- never_exits (match ?x with _ => _ end) => destruct x
    | |- never_exits _ => progress cbv beta zeta
    end.

Lemma never_exits_timeOfArrayRead (stride elems reads warm batches : Z) :
  never_exits (timeOfArrayRead stride elems reads warm batches).
Proof.
  unfold timeOfArrayRead, batch_round, fillShuffledIndexes, chase, chase_round,
    link_round.
  no_exit.
Qed.

Lemma never_exits_capacityAndAssociativity (maxMemory maxAssoc maxStride minStride : Z) :
  never_exits (capacityAndAssociativity maxMemory maxAssoc maxStride minStride).
Proof.
  unfold capacityAndAssociativity. apply never_exits_bind.
  - unfold sweep. apply never_exits_while_loop. intros [[stride stridePow] g].
    unfold column_round. destruct (_ <=? _); [|apply never_exits_ret].
    apply never_exits_bind; [|intros; apply never_exits_ret].
    unfold sweep_column. apply never_exits_while_loop. intros [elems g0].
    unfold cell_round. destruct (_ <? _); [|apply never_exits_ret].
    apply never_exits_bind; [apply never_exits_timeOfArrayRead|]. intros t.
    unfold grid_set. no_exit.
  - intros r. unfold print_table, row_round, print_cell, grid_at. no_exit.
Qed.

(** Once the check of [main] has passed, nothing ends the process: the
    only [std::exit] of the program is the one of [rassert]. *)
Lemma main_goes_on (maxMemory maxAssoc maxStride minStride : Z) :
  U32.mul maxAssoc maxStride <= maxMemory ->
  forall status w,
    main_with maxMemory maxAssoc maxStride minStride initial_world <> Exit status w.
Proof.
  intros Hcheck.
  rewrite (main_check_passes maxMemory maxAssoc maxStride minStride Hcheck).
  assert (H : never_exits (main_measure maxMemory maxAssoc maxStride minStride)).
  { unfold main_measure.
    apply never_exits_bind; [apply never_exits_set_arrayLen|]. intros _.
    apply never_exits_bind; [apply never_exits_print_out|]. intros _.
    apply never_exits_bind; [apply never_exits_get_arrayLen|]. intros len.
    apply never_exits_bind; [apply never_exits_print_out|]. intros _.
    apply never_exits_bind; [apply never_exits_capacityAndAssociativity|]. intros _.
    apply never_exits_bind; [apply never_exits_free_array|]. intros _.
    apply never_exits_ret. }
  apply H.
Qed.

End Exits.

(** As stated, with the product of the integers, C5 fails where that
    product reaches [2^32]: for 128, 2^25 and 2^30 the precondition is
    violated, [128 * 2^25 = 2^32 > 2^30], but in [uint32_t] the product is
    0 and the check passes: [main] does not exit, it allocates the buffer
    and starts to measure. *)
Lemma startup_check_wraps :
  ~ exits_when_precondition_fails (P := RefPlatform.ref) (2 ^ 30) 128 (2 ^ 25) 16.
Proof.
  intros Hexit.
  apply (main_goes_on (P := RefPlatform.ref) (2 ^ 30) 128 (2 ^ 25) 16
           ltac:(discriminate) 1 refused).
  apply Hexit. reflexivity.
Qed.

(** As stated, C9 fails: the seed 42 governs nothing. *)
Lemma seed_is_ignored :
  ~ seed_governs_pattern 2 5 (RefPlatform.world_of_len 10).
Proof. intros [seed Hdiff]. apply Hdiff. reflexivity. Qed.

(** ** The result grid *)

Section Grids.

Context {P : Platform}.

Lemma list_set_length {A} (l : list A) (x : A) :
  forall n, List.length (list_set l n x) = List.length l.
Proof.
  induction l as [|h l IH]; intros [|n]; simpl; try reflexivity.
  now rewrite IH.
Qed.

Lemma list_set_same {A} (l : list A) (x : A) :
  forall n, (n < List.length l)%nat -> nth_error (list_set l n x) n = Some x.
Proof.
  induction l as [|h l IH]; intros [|n] Hn; simpl in *; try lia.
  - reflexivity.
  - apply IH. lia.
Qed.

Lemma list_set_other {A} (l : list A) (x : A) :
  forall n m, m <> n -> nth_error (list_set l n x) m = nth_error l m.
Proof.
  induction l as [|h l IH]; intros [|n] [|m] Hne; simpl; try reflexivity.
  - contradiction.
  - apply IH. lia.
Qed.

Lemma vec_set_run {A} (v : list A) (n : nat) (x : A) :
  (n < List.length v)%nat -> vec_set v (Z.of_nat n) x = ret (list_set v n x).
Proof.
  intros Hn. unfold vec_set.
  replace ((0 <=? Z.of_nat n) && (Z.of_nat n <? Z.of_nat (List.length v))) with true
    by (symmetry; apply andb_true_intro; split;
        [apply Z.leb_le | apply Z.ltb_lt]; lia).
  now rewrite Nat2Z.id.
Qed.

Lemma grid_get_in {A} (g : list (list A)) (r c : nat) (x : A) :
  grid_get g r c = Some x ->
  exists row, nth_error g r = Some row /\ nth_error row c = Some x /\
              (r < List.length g)%nat /\ (c < List.length row)%nat.
Proof.
  unfold grid_get. destruct (nth_error g r) as [row|] eqn:Hrow; [|discriminate].
  intros Hc. exists row. repeat split; try assumption.
  - apply nth_error_Some. now rewrite Hrow.
  - apply nth_error_Some. now rewrite Hc.
Qed.

Lemma grid_set_run {A} (g : list (list A)) (r c : nat) (old x : A) :
  grid_get g r c = Some old ->
  exists g',
    grid_set g (Z.of_nat r) (Z.of_nat c) x = ret g' /\
    forall r' c',
      grid_get g' r' c' =
      if ((r' =? r) && (c' =? c))%nat then Some x else grid_get g r' c'.
Proof.
  intros Hget. destruct (grid_get_in g r c old Hget) as (row & Hrow & Hc & Hr & Hlen).
  exists (list_set g r (list_set row c x)). split.
  - unfold grid_set.
    rewrite (vec_at_run (P := P) g r row Hr).
    rewrite (nth_error_nth g r row Hrow), bind_ret_l.
    rewrite (vec_set_run row c x Hlen), bind_ret_l.
    now rewrite (vec_set_run g r _ Hr).
  - intros r' c'. unfold grid_get.
    destruct (Nat.eqb_spec r' r) as [->|Hne].
    + rewrite list_set_same by assumption. cbn [andb].
      destruct (Nat.eqb_spec c' c) as [->|Hne'].
      * now apply list_set_same.
      * rewrite list_set_other by assumption. now rewrite Hrow.
    + rewrite list_set_other by assumption. reflexivity.
Qed.

Lemma grid_at_run {A} (g : list (list A)) (r c : nat) (x : A) :
  grid_get g r c = Some x -> grid_at g (Z.of_nat r) (Z.of_nat c) = ret x.
Proof.
  intros Hget. destruct (grid_get_in g r c x Hget) as (row & Hrow & Hc & Hr & Hlen).
  unfold grid_at.
  rewrite (vec_at_run (P := P) g r row Hr).
  rewrite (nth_error_nth g r row Hrow), bind_ret_l.
  rewrite (vec_at_run (P := P) row c x Hlen).
  now rewrite (nth_error_nth row c x Hc).
Qed.

Lemma grid_get_repeat {A} (x : A) (R C r c : nat) :
  grid_get (repeat (repeat x C) R) r c =
  if ((r <? R) && (c <? C))%nat then Some x else None.
Proof.
  unfold grid_get.
  destruct (Nat.ltb_spec r R) as [Hr|Hr].
  - rewrite nth_error_repeat by assumption. cbn [andb].
    destruct (Nat.ltb_spec c C) as [Hc|Hc].
    + now apply nth_error_repeat.
    + apply nth_error_None. now rewrite repeat_length.
  - cbn [andb].
    replace (nth_error (repeat (repeat x C) R) r) with (@None (list A)); [reflexivity|].
    symmetry. apply nth_error_None. now rewrite repeat_length.
Qed.

End Grids.

(** ** The positions a call of the timed reader touches *)

Section Accesses.

Context {P : Platform} {L : PlatformLaws P}.

Variables len stride elems reads warm : Z.
Hypothesis Hfits : fits len stride elems.

Lemma accesses_app (l1 l2 : list event) :
  accesses (l1 ++ l2) = accesses l1 ++ accesses l2.
Proof. apply flat_map_app. Qed.

Lemma accesses_writes (ws : list (Z * Z)) :
  accesses (map (fun pv => EvWrite (fst pv) (snd pv)) ws) = map fst ws.
Proof.
  induction ws as [|[p v] ws IH]; [reflexivity|].
  cbn [map fst]. rewrite <- IH. reflexivity.
Qed.

Lemma accesses_reads (ps : list Z) : accesses (map EvRead ps) = ps.
Proof.
  induction ps as [|p ps IH]; [reflexivity|].
  cbn [map]. rewrite <- IH at 2. reflexivity.
Qed.

Lemma shuffled_pattern (g : engine) (c : Z -> Z) :
  pattern stride elems (shuffled stride elems g c).
Proof.
  unfold shuffled. apply (links_pattern len stride elems Hfits).
  apply scaled_perm, shuffle_perm.
Qed.

Lemma accesses_batch (g : engine) (c : Z -> Z) (clk : nat) :
  Forall (fun pos => In pos (footprint stride elems))
         (accesses (batch_events stride elems reads warm g c clk)).
Proof.
  pose proof (shuffled_pattern g c) as Hpat.
  unfold batch_events.
  change (accesses (EvShuffle ?p :: ?l)) with (accesses l).
  rewrite !accesses_app, accesses_writes, links_fst, accesses_reads.
  change (accesses (EvNow ?t :: ?l)) with (accesses l).
  rewrite accesses_app, accesses_reads. cbn [accesses flat_map app].
  rewrite app_nil_r.
  repeat (apply Forall_app; split); apply Forall_forall; intros x Hx.
  - apply (Permutation_in x (Permutation_sym
             (scaled_perm stride elems _ (shuffle_perm g (iota elems))))).
    exact Hx.
  - now apply (pattern_orbit_incl len stride elems Hfits _ Hpat) in Hx.
  - now apply (pattern_orbit_incl len stride elems Hfits _ Hpat) in Hx.
Qed.

Lemma accesses_batches (k : nat) :
  forall (g : engine) (c : Z -> Z) (clk : nat),
    Forall (fun pos => In pos (footprint stride elems))
           (accesses (batches_events stride elems reads warm k g c clk)).
Proof.
  induction k as [|k IH]; intros g c clk; cbn [batches_events].
  - constructor.
  - rewrite accesses_app. apply Forall_app. split.
    + apply accesses_batch.
    + apply IH.
Qed.

Lemma accesses_in_block (k : nat) (g : engine) (c : Z -> Z) (clk : nat) :
  Forall (fun pos => 0 <= pos < len)
         (accesses (batches_events stride elems reads warm k g c clk)).
Proof.
  eapply Forall_impl; [|apply accesses_batches].
  intros pos Hpos. now apply (footprint_bounds len stride elems).
Qed.

End Accesses.

(** ** The sweep *)

Lemma strides_from_length (maxStride : Z) (fuel : nat) :
  forall stride, (List.length (strides_from fuel stride maxStride) <= fuel)%nat.
Proof.
  induction fuel as [|fuel IH]; intros stride; cbn [strides_from List.length]; [lia|].
  destruct (stride * sizeof_uint32_t <=? maxStride); cbn [List.length]; [|lia].
  specialize (IH (2 * stride)). lia.
Qed.

Lemma strides_last (maxStride : Z) (fuel : nat) :
  forall (stride : Z) (p : nat),
    2 ^ Z.of_nat p <= stride ->
    let np := (p + List.length (strides_from fuel stride maxStride))%nat in
    np = p \/ 2 ^ Z.of_nat (np - 1) * sizeof_uint32_t <= maxStride.
Proof.
  induction fuel as [|fuel IH]; intros stride p Hpow; cbn [strides_from].
  - left. cbn [List.length]. lia.
  - destruct (Z.leb_spec (stride * sizeof_uint32_t) maxStride) as [Hle|Hgt].
    + right. cbn [List.length].
      destruct (IH (2 * stride) (Datatypes.S p)) as [Heq|Hlast].
      { rewrite Nat2Z.inj_succ, Z.pow_succ_r by lia. lia. }
      * replace (p + Datatypes.S (List.length (strides_from fuel (2 * stride) maxStride)) - 1)%nat
          with p by lia.
        unfold sizeof_uint32_t in *. lia.
      * replace (p + Datatypes.S (List.length (strides_from fuel (2 * stride) maxStride)))%nat
          with (Datatypes.S p + List.length (strides_from fuel (2 * stride) maxStride))%nat
          by lia.
        exact Hlast.
    + left. cbn [List.length]. lia.
Qed.

(** The sweep makes fewer than 32 columns, and no more than the grid has. *)
Lemma sweep_columns (maxStride minStride : Z) :
  0 <= maxStride < U32.modulus ->
  sizeof_uint32_t <= minStride ->
  let np := List.length (sweep_strides maxStride minStride) in
  (np <= Z.to_nat maxStride)%nat /\ (np <= 30)%nat.
Proof.
  intros Hstride Hmin np.
  assert (H1 : 1 <= minStride / sizeof_uint32_t).
  { apply Z.div_le_lower_bound; unfold sizeof_uint32_t in *; lia. }
  destruct (strides_last maxStride 32 (minStride / sizeof_uint32_t) 0 H1) as [Heq|Hlast].
  - cbn [Nat.add] in Heq. fold (sweep_strides maxStride minStride) in Heq.
    fold np in Heq. lia.
  - cbn [Nat.add] in Hlast. fold (sweep_strides maxStride minStride) in Hlast.
    fold np in Hlast. unfold sizeof_uint32_t in Hlast.
    pose proof (Z.pow_gt_lin_r 2 (Z.of_nat (np - 1)) ltac:(lia) ltac:(lia)).
    split; [lia|].
    assert (Hlt : 2 ^ Z.of_nat (np - 1) < 2 ^ 30) by (unfold U32.modulus in Hstride; lia).
    apply Z.pow_lt_mono_r_iff in Hlt; lia.
Qed.

Lemma engine_after_app {P : Platform} (cs cs' : list (Z * Z)) :
  forall g, engine_after (cs ++ cs') g = engine_after cs' (engine_after cs g).
Proof.
  induction cs as [|[s e] cs IH]; intros g; [reflexivity|].
  cbn [app engine_after]. apply IH.
Qed.

Lemma patterns_of_app {P : Platform} (cs cs' : list (Z * Z)) :
  forall g, patterns_of (cs ++ cs') g =
            patterns_of cs g ++ patterns_of cs' (engine_after cs g).
Proof.
  induction cs as [|[s e] cs IH]; intros g; [reflexivity|].
  cbn [app patterns_of engine_after]. now rewrite IH, app_assoc.
Qed.

Lemma stores_of_app {P : Platform} (cs cs' : list (Z * Z)) :
  forall g, stores_of (cs ++ cs') g =
            stores_of cs g ++ stores_of cs' (engine_after cs g).
Proof.
  induction cs as [|[s e] cs IH]; intros g; [reflexivity|].
  cbn [app stores_of engine_after]. now rewrite IH, app_assoc.
Qed.

Section Sweep.

Context {P : Platform} {L : PlatformLaws P}.

Variables len maxAssoc maxStride : Z.
Variable w0 : world.

Hypothesis Hlen : len <= U32.modulus.
Hypothesis Hassoc : 1 <= maxAssoc < U32.modulus.
Hypothesis Hstride : 0 <= maxStride < U32.modulus.
Hypothesis Hroom : (maxAssoc - 2) * (maxStride / sizeof_uint32_t) < len.

Local Abbreviation R := (Z.to_nat maxAssoc).
Local Abbreviation C := (Z.to_nat maxStride).

Lemma timed_calls_batches (stride elems reads warm : Z) (k : nat) :
  forall (g : engine) (c : Z -> Z) (clk : nat),
    timed_calls (batches_events stride elems reads warm k g c clk) = [].
Proof.
  induction k as [|k IH]; intros g c clk; [reflexivity|].
  cbn [batches_events]. rewrite batch_events_then.
  unfold timed_calls in *. cbn [flat_map app].
  rewrite !flat_map_app, flat_map_writes, flat_map_reads by reflexivity.
  cbn [flat_map app]. rewrite flat_map_app, flat_map_reads by reflexivity.
  cbn [flat_map app]. apply IH.
Qed.

Lemma call_of_inj (r c r' c' : nat) :
  (1 <= r < R)%nat -> (1 <= r' < R)%nat ->
  call_of maxAssoc r c = call_of maxAssoc r' c' -> r = r' /\ c = c'.
Proof.
  unfold call_of. intros Hr Hr' Heq.
  remember (R - 1)%nat as B eqn:HB.
  destruct (Nat.div_mod_unique B c c' (r - 1) (r' - 1)) as [Hc Hrr]; lia.
Qed.

Lemma times_after_step (m e p : nat) :
  (1 <= e < R)%nat -> (p < C)%nat -> m = call_of maxAssoc e p ->
  forall r c,
    (if ((r =? e) && (c =? p))%nat then Some (call_duration w0 m)
     else times_after maxAssoc maxStride w0 m r c) = times_after maxAssoc maxStride w0 (Datatypes.S m) r c.
Proof.
  intros He Hp Hm r c. unfold times_after.
  destruct (Nat.eqb_spec r e) as [->|Hre]; cbn [andb].
  - destruct (Nat.eqb_spec c p) as [->|Hcp].
    + rewrite (proj2 (Nat.ltb_lt e R)), (proj2 (Nat.ltb_lt p C)) by lia.
      rewrite (proj2 (Nat.leb_le 1 e)), (proj2 (Nat.ltb_lt _ _)) by lia.
      cbn [andb]. now rewrite Hm.
    + destruct ((e <? R) && (c <? C))%nat; [|reflexivity].
      rewrite (proj2 (Nat.leb_le 1 e)) by lia. cbn [andb].
      assert (Hne : call_of maxAssoc e c <> m).
      { intros Heq. rewrite Hm in Heq. apply call_of_inj in Heq; lia. }
      destruct (Nat.ltb_spec (call_of maxAssoc e c) m);
        destruct (Nat.ltb_spec (call_of maxAssoc e c) (Datatypes.S m)); try reflexivity; lia.
  - destruct ((r <? R) && (c <? C))%nat eqn:Hin; [|reflexivity].
    apply andb_prop in Hin. destruct Hin as [Hr Hc].
    apply Nat.ltb_lt in Hr.
    destruct (Nat.leb_spec 1 r) as [H1|H1]; cbn [andb]; [|reflexivity].
    assert (Hne : call_of maxAssoc r c <> m).
    { intros Heq. rewrite Hm in Heq. apply call_of_inj in Heq; lia. }
    destruct (Nat.ltb_spec (call_of maxAssoc r c) m);
      destruct (Nat.ltb_spec (call_of maxAssoc r c) (Datatypes.S m)); try reflexivity; lia.
Qed.

Lemma sweep_fits (stride : Z) (e : nat) :
  1 <= stride -> stride * sizeof_uint32_t <= maxStride -> (1 <= e < R)%nat ->
  fits len stride (Z.of_nat e).
Proof.
  intros Hs Hmax He. unfold fits, sizeof_uint32_t in *.
  assert (stride <= maxStride / 4) by (apply Z.div_le_lower_bound; lia).
  assert (Z.of_nat e - 1 <= maxAssoc - 2) by (lia).
  repeat split; try lia. nia.
Qed.

Lemma cell_round_run (m : nat) (w : world) (g : grids) (evs : list event)
    (stride : Z) (e p : nat) :
  sweep_inv len maxAssoc maxStride w0 m w g evs ->
  1 <= stride -> stride * sizeof_uint32_t <= maxStride ->
  (1 <= e < R)%nat -> (p < C)%nat -> m = call_of maxAssoc e p ->
  exists w' g' evs',
    cell_round maxAssoc stride (Z.of_nat p) (Z.of_nat e, g) w =
    Ok (inl (Z.of_nat (Datatypes.S e), g')) w' /\
    sweep_inv len maxAssoc maxStride w0 (Datatypes.S m) w' g' evs' /\
    timed_calls evs' = timed_calls evs ++ [(stride, Z.of_nat e)].
Proof.
  intros [(b & Hb & Hbl) Htr Hclk Hout Herr Hal Hacc Htimes Hjumps Hgen Hshuffles Hwrites]
         Hs Hmax He Hp Hm.
  pose proof (sweep_fits stride e Hs Hmax He) as Hfits.
  rewrite <- Hbl in Hfits.
  destruct (timeOfArrayRead_trace stride (Z.of_nat e) ARRAY_READS_COUNT
              WARNUP_READS_COUNT BATCHES_COUNT w b Hb Hfits)
    as (w1 & Hrun & Htr1 & (b1 & Hb1 & Hbl1) & Hgen1 & Hclk1 & Hal1 & Hout1 & Herr1);
    [unfold BATCHES_COUNT; lia|].
  assert (Hcalls : timed_calls
            (evs ++ EvTimed stride (Z.of_nat e)
                 :: batches_events stride (Z.of_nat e) ARRAY_READS_COUNT
                      WARNUP_READS_COUNT (Z.to_nat BATCHES_COUNT)
                      (gen w) (cells w) (clock w)) =
          timed_calls evs ++ [(stride, Z.of_nat e)]).
  { unfold timed_calls. rewrite flat_map_app. cbn [flat_map app].
    fold (timed_calls (batches_events stride (Z.of_nat e) ARRAY_READS_COUNT
            WARNUP_READS_COUNT (Z.to_nat BATCHES_COUNT) (gen w) (cells w) (clock w))).
    now rewrite timed_calls_batches. }
  assert (Hold : exists d, grid_get (times g) e p = Some d).
  { rewrite Htimes. unfold times_after.
    rewrite (proj2 (Nat.ltb_lt e R)), (proj2 (Nat.ltb_lt p C)) by lia.
    cbn [andb]. destruct ((1 <=? e) && (call_of maxAssoc e p <? m))%nat; eauto. }
  destruct Hold as [d Hold].
  destruct (grid_set_run (P := P) (times g) e p d
              (Z.quot (intervals (Z.to_nat BATCHES_COUNT) (clock w)) BATCHES_COUNT)
              Hold) as (t' & Hset & Hget).
  exists w1, (mkGrids t' (jumps g)),
    (evs ++ EvTimed stride (Z.of_nat e)
         :: batches_events stride (Z.of_nat e) ARRAY_READS_COUNT WARNUP_READS_COUNT
              (Z.to_nat BATCHES_COUNT) (gen w) (cells w) (clock w)).
  split; [|split].
  - unfold cell_round.
    rewrite (proj2 (Z.ltb_lt _ _)) by (lia).
    erewrite bind_ok by exact Hrun.
    rewrite Hset, bind_ret_l.
    replace (U32.add (Z.of_nat e) 1) with (Z.of_nat (Datatypes.S e))
      by (unfold U32.add; rewrite u32_wrap_small by (lia); lia).
    destruct (Z.of_nat e >? 1); reflexivity.
  - constructor; cbn [times jumps].
    + exists b1. split; [exact Hb1 | congruence].
    + rewrite Htr1, Htr, <- app_assoc. reflexivity.
    + rewrite Hclk1, Hclk. lia.
    + congruence.
    + congruence.
    + congruence.
    + rewrite accesses_app. apply Forall_app. split; [exact Hacc|].
      change (accesses (EvTimed stride (Z.of_nat e) :: ?l)) with (accesses l).
      apply (accesses_in_block len stride (Z.of_nat e)).
      rewrite <- Hbl. exact Hfits.
    + intros r c. rewrite Hget, Htimes, Hclk.
      fold (call_duration w0 m). now apply times_after_step.
    + exact Hjumps.
    + rewrite Hcalls, engine_after_app, <- Hgen. exact Hgen1.
    + rewrite Hcalls, patterns_of_app, <- Hgen, <- Hshuffles.
      unfold shuffles_of at 1. rewrite flat_map_app. f_equal.
      cbn [patterns_of flat_map app]. rewrite app_nil_r.
      apply shuffles_of_batches.
    + rewrite Hcalls, stores_of_app, <- Hgen, <- Hwrites, writes_of_app. f_equal.
      cbn [stores_of]. rewrite app_nil_r.
      change (writes_of (EvTimed stride (Z.of_nat e) :: ?l)) with (writes_of l).
      apply writes_of_batches.
  - exact Hcalls.
Qed.

Lemma column_rounds (k : nat) :
  forall (e m : nat) (w : world) (g : grids) (evs : list event) (stride : Z) (p : nat),
    sweep_inv len maxAssoc maxStride w0 m w g evs ->
    1 <= stride -> stride * sizeof_uint32_t <= maxStride ->
    (p < C)%nat -> (1 <= e)%nat -> (e + k = R)%nat -> m = call_of maxAssoc e p ->
    exists w' g' evs',
      rounds_nat (Datatypes.S k) (cell_round maxAssoc stride (Z.of_nat p))
                 (Z.of_nat e, g) w = Ok (inr g') w' /\
      sweep_inv len maxAssoc maxStride w0 (m + k) w' g' evs' /\
      timed_calls evs' =
      timed_calls evs ++ map (fun j => (stride, Z.of_nat (e + j))) (seq 0 k).
Proof.
  induction k as [|k IH]; intros e m w g evs stride p Hinv Hs Hmax Hp He Hk Hm.
  - exists w, g, evs. split; [|split].
    + apply rounds_nat_break. unfold cell_round.
      rewrite (proj2 (Z.ltb_ge _ _)) by (lia). reflexivity.
    + now rewrite Nat.add_0_r.
    + cbn [seq map]. now rewrite app_nil_r.
  - destruct (cell_round_run m w g evs stride e p Hinv Hs Hmax ltac:(lia) Hp Hm)
      as (w1 & g1 & evs1 & Hstep & Hinv1 & Hcalls1).
    destruct (IH (Datatypes.S e) (Datatypes.S m) w1 g1 evs1 stride p Hinv1 Hs Hmax Hp
                 ltac:(lia) ltac:(lia))
      as (w' & g' & evs' & Hrest & Hinv' & Hcalls').
    { unfold call_of in *. lia. }
    exists w', g', evs'. split; [|split].
    + rewrite (rounds_nat_continue _ _ _ _ _ _ Hstep). exact Hrest.
    + replace (m + Datatypes.S k)%nat with (Datatypes.S m + k)%nat by lia. exact Hinv'.
    + rewrite Hcalls', Hcalls1, <- app_assoc, map_seq_succ. cbn [app].
      rewrite Nat.add_0_r. do 2 f_equal.
      apply map_ext. intros j. do 2 f_equal. lia.
Qed.

Lemma sweep_column_run (w : world) (g : grids) (evs : list event) (stride : Z) (p : nat) :
  sweep_inv len maxAssoc maxStride w0 (call_of maxAssoc 1 p) w g evs ->
  1 <= stride -> stride * sizeof_uint32_t <= maxStride -> (p < C)%nat ->
  exists w' g' evs',
    sweep_column maxAssoc stride (Z.of_nat p) g w = Ok g' w' /\
    sweep_inv len maxAssoc maxStride w0 (call_of maxAssoc 1 (Datatypes.S p)) w' g' evs' /\
    timed_calls evs' = timed_calls evs ++ column_cells maxAssoc stride.
Proof.
  intros Hinv Hs Hmax Hp.
  destruct (column_rounds (R - 1) 1 (call_of maxAssoc 1 p) w g evs stride p Hinv Hs Hmax Hp
              ltac:(lia) ltac:(lia) eq_refl)
    as (w' & g' & evs' & Hrun & Hinv' & Hcalls).
  exists w', g', evs'. split; [|split].
  - unfold sweep_column.
    apply (while_loop_leaves (Datatypes.S (R - 1))); [lia | exact Hrun].
  - replace (call_of maxAssoc 1 (Datatypes.S p)) with (call_of maxAssoc 1 p + (R - 1))%nat
      by (unfold call_of; lia).
    exact Hinv'.
  - rewrite Hcalls. f_equal. unfold column_cells.
    replace (Z.to_nat (maxAssoc - 1)) with (R - 1)%nat by (lia).
    apply map_ext. intros j. f_equal. lia.
Qed.

Lemma outer_rounds (fuel : nat) :
  forall (stride : Z) (p : nat) (w : world) (g : grids) (evs : list event),
    sweep_inv len maxAssoc maxStride w0 (call_of maxAssoc 1 p) w g evs ->
    1 <= stride -> 2 ^ Z.of_nat p <= stride ->
    maxStride < stride * sizeof_uint32_t * 2 ^ Z.of_nat fuel ->
    exists w' g' evs',
      rounds_nat (Datatypes.S (List.length (strides_from fuel stride maxStride)))
                 (column_round maxAssoc maxStride) (stride, Z.of_nat p, g) w =
      Ok (inr (Z.of_nat (p + List.length (strides_from fuel stride maxStride)), g')) w' /\
      sweep_inv len maxAssoc maxStride w0 (call_of maxAssoc 1 (p + List.length (strides_from fuel stride maxStride)))
                w' g' evs' /\
      timed_calls evs' =
      timed_calls evs ++ flat_map (column_cells maxAssoc) (strides_from fuel stride maxStride).
Proof.
  induction fuel as [|fuel IH]; intros stride p w g evs Hinv Hs Hpow Hfuel.
  - exists w, g, evs. cbn [strides_from List.length flat_map].
    rewrite Nat.add_0_r, app_nil_r. split; [|split]; try easy.
    apply rounds_nat_break. unfold column_round.
    rewrite (proj2 (Z.leb_gt _ _)) by (cbn in Hfuel; lia). reflexivity.
  - cbn [strides_from].
    destruct (Z.leb_spec (stride * sizeof_uint32_t) maxStride) as [Hle|Hgt].
    + assert (Hp : (p < C)%nat).
      { pose proof (Z.pow_gt_lin_r 2 (Z.of_nat p) ltac:(lia) ltac:(lia)).
        unfold sizeof_uint32_t in Hle. lia. }
      destruct (sweep_column_run w g evs stride p Hinv Hs Hle Hp)
        as (w1 & g1 & evs1 & Hcol & Hinv1 & Hcalls1).
      destruct (IH (2 * stride) (Datatypes.S p) w1 g1 evs1 Hinv1 ltac:(lia))
        as (w' & g' & evs' & Hrest & Hinv' & Hcalls').
      { rewrite Nat2Z.inj_succ, Z.pow_succ_r by lia. lia. }
      { rewrite Nat2Z.inj_succ, Z.pow_succ_r in Hfuel by lia.
        unfold sizeof_uint32_t in *. lia. }
      exists w', g', evs'. cbn [List.length flat_map].
      replace (p + Datatypes.S (List.length (strides_from fuel (2 * stride) maxStride)))%nat
        with (Datatypes.S p + List.length (strides_from fuel (2 * stride) maxStride))%nat
        by lia.
      split; [|split].
      * erewrite rounds_nat_continue; [exact Hrest|].
        unfold column_round. rewrite (proj2 (Z.leb_le _ _)) by exact Hle.
        erewrite bind_ok by exact Hcol.
        replace (U32.mul stride 2) with (2 * stride)
          by (unfold U32.mul; rewrite u32_wrap_small;
              unfold sizeof_uint32_t in Hle; lia).
        replace (U32.add (Z.of_nat p) 1) with (Z.of_nat (Datatypes.S p))
          by (unfold U32.add; rewrite u32_wrap_small; lia).
        reflexivity.
      * exact Hinv'.
      * now rewrite Hcalls', Hcalls1, <- app_assoc.
    + exists w, g, evs. cbn [List.length flat_map].
      rewrite Nat.add_0_r, app_nil_r. split; [|split]; try easy.
      apply rounds_nat_break. unfold column_round.
      rewrite (proj2 (Z.leb_gt _ _)) by exact Hgt. reflexivity.
Qed.

Lemma sweep_run (minStride : Z) (b0 : block) :
  array w0 = Some b0 -> blk_len b0 = len ->
  sizeof_uint32_t <= minStride ->
  exists g' w' evs',
    sweep maxAssoc maxStride minStride w0 =
    Ok (Z.of_nat (List.length (sweep_strides maxStride minStride)), g') w' /\
    sweep_inv len maxAssoc maxStride w0 (call_of maxAssoc 1 (List.length (sweep_strides maxStride minStride))) w' g' evs' /\
    timed_calls evs' = sweep_cells maxAssoc maxStride minStride.
Proof.
  intros Hb0 Hbl Hmin.
  assert (H1 : 1 <= minStride / sizeof_uint32_t).
  { apply Z.div_le_lower_bound; unfold sizeof_uint32_t in *; lia. }
  assert (Hinit : sweep_inv len maxAssoc maxStride w0 (call_of maxAssoc 1 0) w0
            (mkGrids (repeat (repeat 0 C) R) (repeat (repeat false C) R)) []).
  { constructor; cbn [times jumps]; try reflexivity.
    - now exists b0.
    - now rewrite app_nil_r.
    - unfold call_of. lia.
    - constructor.
    - intros r c. rewrite grid_get_repeat. unfold times_after, call_of.
      destruct ((r <? R) && (c <? C))%nat; [|reflexivity].
      replace (c * (R - 1) + (r - 1) <? 0 * (R - 1) + (1 - 1))%nat with false
        by (symmetry; apply Nat.ltb_ge; cbn [Nat.mul Nat.sub Nat.add];
            apply Nat.le_0_l).
      now rewrite andb_false_r. }
  destruct (outer_rounds 32 (minStride / sizeof_uint32_t) 0 w0 _ [] Hinit H1 H1)
    as (w' & g' & evs' & Hrun & Hinv & Hcalls).
  { unfold sizeof_uint32_t, U32.modulus in *. cbn [Z.of_nat]. lia. }
  exists g', w', evs'. split; [|split].
  - unfold sweep, U32.div.
    eapply while_loop_leaves; [|exact Hrun].
    pose proof (strides_from_length maxStride 32 (minStride / sizeof_uint32_t)).
    unfold U32.modulus. lia.
  - exact Hinv.
  - exact Hcalls.
Qed.

End Sweep.

(** ** Properties of the sweep *)

Lemma intervals_nonneg {P : Platform} {L : PlatformLaws P} (k : nat) :
  forall clk, 0 <= intervals k clk.
Proof.
  induction k as [|k IH]; intros clk; cbn [intervals]; [lia|].
  pose proof (steady_mono clk). specialize (IH (S (S clk))). lia.
Qed.

Lemma column_cells_In (maxAssoc stride s e : Z) :
  In (s, e) (column_cells maxAssoc stride) <-> s = stride /\ 1 <= e < maxAssoc.
Proof.
  unfold column_cells. rewrite in_map_iff. split.
  - intros [k [Heq Hk]]. apply in_seq in Hk.
    apply pair_equal_spec in Heq. destruct Heq as [<- <-]. lia.
  - intros [-> He]. exists (Z.to_nat (e - 1)). split.
    + f_equal. lia.
    + apply in_seq. lia.
Qed.

Lemma column_cells_NoDup (maxAssoc stride : Z) : NoDup (column_cells maxAssoc stride).
Proof.
  unfold column_cells. apply Finite.Injective_map_NoDup.
  - intros x y Heq. apply pair_equal_spec in Heq. lia.
  - apply seq_NoDup.
Qed.

Lemma strides_from_ge (fuel : nat) (maxStride : Z) :
  forall stride s, 1 <= stride -> In s (strides_from fuel stride maxStride) ->
                   stride <= s /\ s * sizeof_uint32_t <= maxStride.
Proof.
  induction fuel as [|fuel IH]; intros stride s Hs Hin; cbn [strides_from] in Hin.
  - contradiction.
  - destruct (Z.leb_spec (stride * sizeof_uint32_t) maxStride) as [Hle|Hgt];
      [|contradiction].
    destruct Hin as [<-|Hin]; [lia|].
    apply IH in Hin; lia.
Qed.

Lemma strides_from_spec (fuel : nat) (maxStride : Z) :
  forall stride s,
    1 <= stride -> maxStride < stride * sizeof_uint32_t * 2 ^ Z.of_nat fuel ->
    (In s (strides_from fuel stride maxStride) <->
     exists k : nat, s = stride * 2 ^ Z.of_nat k /\ s * sizeof_uint32_t <= maxStride).
Proof.
  unfold sizeof_uint32_t.
  induction fuel as [|fuel IH]; intros stride s Hs Hfuel; cbn [strides_from].
  - split; [contradiction|]. intros [k [-> Hle]].
    pose proof (Z.pow_pos_nonneg 2 (Z.of_nat k) ltac:(lia) ltac:(lia)).
    cbn in Hfuel. nia.
  - unfold sizeof_uint32_t.
    destruct (Z.leb_spec (stride * 4) maxStride) as [Hle|Hgt].
    + rewrite Nat2Z.inj_succ, Z.pow_succ_r in Hfuel by lia.
      cbn [In]. rewrite (IH (2 * stride) s) by lia. split.
      * intros [<-|[k [-> Hk]]].
        -- exists 0%nat. cbn [Z.of_nat]. rewrite Z.pow_0_r. lia.
        -- exists (Datatypes.S k). rewrite Nat2Z.inj_succ, Z.pow_succ_r by lia. lia.
      * intros [[|k] [-> Hk]].
        -- left. cbn [Z.of_nat]. rewrite Z.pow_0_r. lia.
        -- right. exists k. rewrite Nat2Z.inj_succ, Z.pow_succ_r in * by lia. lia.
    + split; [contradiction|]. intros [k [-> Hle]].
      pose proof (Z.pow_pos_nonneg 2 (Z.of_nat k) ltac:(lia) ltac:(lia)). nia.
Qed.

Lemma sweep_cells_NoDup_from (fuel : nat) (maxAssoc maxStride : Z) :
  forall stride, 1 <= stride ->
    NoDup (flat_map (column_cells maxAssoc) (strides_from fuel stride maxStride)).
Proof.
  induction fuel as [|fuel IH]; intros stride Hs; cbn [strides_from].
  - constructor.
  - destruct (stride * sizeof_uint32_t <=? maxStride); [|constructor].
    cbn [flat_map]. apply NoDup_app.
    + apply column_cells_NoDup.
    + apply IH. lia.
    + intros [s e] Hin Hin'. apply column_cells_In in Hin. destruct Hin as [-> _].
      apply in_flat_map in Hin'. destruct Hin' as [s' [Hs' Hcell]].
      apply column_cells_In in Hcell. destruct Hcell as [<- _].
      apply strides_from_ge in Hs'; lia.
Qed.

Section SweepClaims.

Context {P : Platform} {L : PlatformLaws P}.

Variables maxAssoc maxStride minStride : Z.
Variables (w0 : world) (b0 : block).

Hypothesis Hb0 : array w0 = Some b0.
Hypothesis Hlen : blk_len b0 <= U32.modulus.
Hypothesis Hassoc : 1 <= maxAssoc < U32.modulus.
Hypothesis Hstride : 0 <= maxStride < U32.modulus.
Hypothesis Hmin : sizeof_uint32_t <= minStride.
Hypothesis Hroom : (maxAssoc - 2) * (maxStride / sizeof_uint32_t) < blk_len b0.

Lemma call_duration_nonneg (m : nat) : 0 <= call_duration w0 m.
Proof.
  unfold call_duration. apply Z.quot_pos.
  - apply intervals_nonneg.
  - unfold BATCHES_COUNT. lia.
Qed.

(** C6.  The sweep calls the timed reader exactly once for every cell
    [(elems, stride)], [elems] from 1 to [maxAssociativity - 1] and the
    stride doubling from [minStride / 4] while four times the stride is at
    most [maxStride], and stores each duration in the grid; every stored
    duration is non-negative.  For [maxAssociativity = 3],
    [minStride = 4], [maxStride = 8] the strides are 1 and 2 and the cells
    are those of rows 1 and 2 in columns 0 and 1. *)
Theorem sweep_visits_every_cell_once :
  sweep_fills_grid maxAssoc maxStride minStride w0 /\
  sweep_strides 8 4 = [1; 2] /\
  sweep_cells 3 8 4 = [(1, 1); (1, 2); (2, 1); (2, 2)].
Proof.
  split; [|split; reflexivity].
  destruct (sweep_run (blk_len b0) maxAssoc maxStride w0 Hlen Hassoc Hstride Hroom
              minStride b0 Hb0 eq_refl Hmin)
    as (g' & w' & evs' & Hrun & Hinv & Hcalls).
  destruct Hinv as [_ Htr _ _ _ _ _ Htimes _ _ _ _].
  pose proof (sweep_columns maxStride minStride Hstride Hmin) as [HnpC _].
  exists (List.length (sweep_strides maxStride minStride)), g', w', evs'.
  split; [exact Hrun|]. split; [exact Htr|]. split; [reflexivity|].
  split; [exact Hcalls|]. split; [|split; [|split; [|split]]].
  - apply sweep_cells_NoDup_from.
    apply Z.div_le_lower_bound; unfold sizeof_uint32_t in *; lia.
  - intros s. apply strides_from_spec.
    + apply Z.div_le_lower_bound; unfold sizeof_uint32_t in *; lia.
    + assert (1 <= minStride / sizeof_uint32_t)
        by (apply Z.div_le_lower_bound; unfold sizeof_uint32_t in *; lia).
      unfold sizeof_uint32_t, U32.modulus in *. cbn [Z.of_nat]. lia.
  - intros s e. unfold sweep_cells. rewrite in_flat_map. split.
    + intros [s' [Hs' Hcell]]. apply column_cells_In in Hcell.
      destruct Hcell as [-> He]. now split.
    + intros [Hs He]. exists s. split; [exact Hs|]. now apply column_cells_In.
  - intros e p He Hp. split; [|apply call_duration_nonneg].
    rewrite Htimes. unfold times_after.
    rewrite (proj2 (Nat.ltb_lt _ _)) by lia.
    rewrite (proj2 (Nat.ltb_lt p _)) by lia.
    rewrite (proj2 (Nat.leb_le 1 e)) by lia.
    rewrite (proj2 (Nat.ltb_lt (call_of maxAssoc e p) _)); [reflexivity|].
    unfold call_of. nia.
  - intros r c Hr Hc Hcell. rewrite Htimes. unfold times_after.
    rewrite (proj2 (Nat.ltb_lt r _)), (proj2 (Nat.ltb_lt c _)) by lia.
    cbn [andb].
    destruct (Nat.leb_spec 1 r) as [H1|H1]; [|reflexivity]. cbn [andb].
    rewrite (proj2 (Nat.ltb_ge _ _)); [reflexivity|].
    unfold call_of. nia.
Qed.

End SweepClaims.

Lemma sweep_visits_every_cell_once_witness :
  sweep_fills_grid 3 8 4 (RefPlatform.world_of_len 16) /\
  sweep_strides 8 4 = [1; 2] /\
  sweep_cells 3 8 4 = [(1, 1); (1, 2); (2, 1); (2, 2)].
Proof.
  apply (sweep_visits_every_cell_once 3 8 4 (RefPlatform.world_of_len 16)
           (mkBlock 16 fresh_cells)).
  - reflexivity.
  - unfold U32.modulus. cbn [blk_len]. lia.
  - unfold U32.modulus. lia.
  - unfold U32.modulus. lia.
  - unfold sizeof_uint32_t. lia.
  - cbn. lia.
Defined.

(** ** The printed table *)

Section Printing.

Context {P : Platform}.

Lemma string_app_assoc (a b c : string) : ((a ++ b) ++ c = a ++ (b ++ c))%string.
Proof. induction a as [|ch a IH]; simpl; [reflexivity | now rewrite IH]. Qed.

Lemma string_app_nil_r (a : string) : (a ++ "" = a)%string.
Proof. induction a as [|ch a IH]; simpl; [reflexivity | now rewrite IH]. Qed.

Lemma print_out_run (text : string) (w : world) :
  print_out text w = Ok tt (printed text w).
Proof. reflexivity. Qed.

Lemma printed_app (a b : string) (w : world) :
  printed b (printed a w) = printed (a ++ b) w.
Proof. unfold printed. cbn. now rewrite string_app_assoc. Qed.

Lemma printed_nil (w : world) : printed "" w = w.
Proof. destruct w. unfold printed. cbn. now rewrite string_app_nil_r. Qed.

Variable g : grids.
Variable maxAssoc : Z.
Variable np : nat.

Hypothesis Hassoc : 1 <= maxAssoc <= 2 ^ 31.
Hypothesis Hnp : (np <= 32)%nat.
Hypothesis Htimes :
  forall r c, (r < Z.to_nat maxAssoc)%nat -> (c < np)%nat ->
              exists t, grid_get (times g) r c = Some t.
Hypothesis Hjumps :
  forall r c, (r < Z.to_nat maxAssoc)%nat -> (c < np)%nat ->
              grid_get (jumps g) r c = Some false.

Lemma print_cell_run (r c : nat) (w : world) :
  (r < Z.to_nat maxAssoc)%nat -> (c < np)%nat ->
  print_cell g (Z.of_nat r) (Z.of_nat c) tt w = Ok tt (printed (plain_cell g r c) w).
Proof.
  intros Hr Hc. destruct (Htimes r c Hr Hc) as [t Ht].
  unfold print_cell, plain_cell.
  rewrite (grid_at_run (times g) r c t Ht), bind_ret_l.
  rewrite (grid_at_run (jumps g) r c false (Hjumps r c Hr Hc)), bind_ret_l.
  rewrite Ht. reflexivity.
Qed.

Lemma print_cells_run (r : nat) (l : list nat) :
  (r < Z.to_nat maxAssoc)%nat -> (forall c, In c l -> (c < np)%nat) ->
  forall w,
    for_each (map Z.of_nat l) (print_cell g (Z.of_nat r)) tt w =
    Ok tt (printed (cat (map (plain_cell g r) l)) w).
Proof.
  intros Hr. induction l as [|c l IH]; intros Hl w; cbn [map for_each cat].
  - now rewrite printed_nil.
  - erewrite bind_ok by (apply print_cell_run; [exact Hr | apply Hl; now left]).
    rewrite IH by (intros c' Hc'; apply Hl; now right).
    now rewrite printed_app.
Qed.

Lemma print_header_run (minStride : Z) (l : list nat) :
  (forall p, In p l -> (p < 32)%nat) ->
  forall w,
    for_each (map Z.of_nat l)
      (fun p (_ : unit) =>
         if p >=? 32 then undefined
         else print_out (setw width (bytesToString (U32.mul (U32.shl 1 p) minStride))))
      tt w =
    Ok tt (printed (cat (map (fun p => setw width
                                (bytesToString (U32.mul (U32.shl 1 (Z.of_nat p)) minStride)))
                             l)) w).
Proof.
  induction l as [|p l IH]; intros Hl w; cbn [map for_each cat].
  - now rewrite printed_nil.
  - assert (Hp : (p < 32)%nat) by (apply Hl; now left).
    replace (Z.of_nat p >=? 32) with false
      by (symmetry; rewrite Z.geb_leb; apply Z.leb_gt; lia).
    erewrite bind_ok by apply print_out_run.
    rewrite IH by (intros p' Hp'; apply Hl; now right).
    now rewrite printed_app.
Qed.

Lemma row_round_run (s : Z) (w : world) :
  1 <= s < maxAssoc ->
  row_round maxAssoc (Z.of_nat np) g s w =
  Ok (inl (2 * s)) (printed (row_text g np s) w).
Proof.
  intros Hs. unfold row_round, row_text.
  rewrite (proj2 (Z.ltb_lt _ _)) by lia.
  erewrite bind_ok by apply print_out_run.
  unfold for_upto, iota. rewrite Nat2Z.id.
  rewrite <- (Z2Nat.id s) at 1 by lia.
  erewrite bind_ok
    by (apply print_cells_run; [lia | intros c Hc; apply in_seq in Hc; lia]).
  erewrite bind_ok by apply print_out_run.
  rewrite !printed_app.
  replace (U32.mul s 2) with (2 * s)
    by (unfold U32.mul; rewrite u32_wrap_small; unfold U32.modulus; lia).
  reflexivity.
Qed.

Lemma row_rounds (fuel : nat) :
  forall (s : Z) (w : world),
    1 <= s -> maxAssoc <= s * 2 ^ Z.of_nat fuel ->
    rounds_nat (Datatypes.S (List.length (rows_from fuel s maxAssoc)))
               (row_round maxAssoc (Z.of_nat np) g) s w =
    Ok (inr tt) (printed (cat (map (row_text g np) (rows_from fuel s maxAssoc))) w).
Proof.
  induction fuel as [|fuel IH]; intros s w Hs Hfuel; cbn [rows_from].
  - cbn [List.length map cat]. rewrite printed_nil.
    apply rounds_nat_break. unfold row_round.
    rewrite (proj2 (Z.ltb_ge _ _)) by (cbn in Hfuel; lia). reflexivity.
  - destruct (Z.ltb_spec s maxAssoc) as [Hlt|Hge].
    + cbn [List.length map cat].
      erewrite rounds_nat_continue by (apply row_round_run; lia).
      rewrite IH.
      * now rewrite printed_app.
      * lia.
      * rewrite Nat2Z.inj_succ, Z.pow_succ_r in Hfuel by lia. lia.
    + cbn [List.length map cat]. rewrite printed_nil.
      apply rounds_nat_break. unfold row_round.
      rewrite (proj2 (Z.ltb_ge _ _)) by lia. reflexivity.
Qed.

Lemma rows_from_length (fuel : nat) :
  forall s, (List.length (rows_from fuel s maxAssoc) <= fuel)%nat.
Proof.
  induction fuel as [|fuel IH]; intros s; cbn [rows_from List.length]; [lia|].
  destruct (s <? maxAssoc); cbn [List.length]; [|lia].
  specialize (IH (2 * s)). lia.
Qed.

Lemma print_table_run (minStride : Z) (w : world) :
  print_table maxAssoc minStride (Z.of_nat np) g w =
  Ok tt (printed (table_text maxAssoc minStride np g) w).
Proof.
  unfold print_table, table_text, header_text.
  erewrite bind_ok by apply print_out_run.
  unfold for_upto, iota. rewrite Nat2Z.id.
  erewrite bind_ok
    by (apply print_header_run; intros p Hp; apply in_seq in Hp; lia).
  erewrite bind_ok by apply print_out_run.
  rewrite !printed_app.
  erewrite (while_loop_leaves (Datatypes.S (List.length (table_rows maxAssoc)))).
  - reflexivity.
  - pose proof (rows_from_length 32 1). unfold table_rows, U32.modulus. lia.
  - unfold table_rows. rewrite row_rounds.
    + now rewrite printed_app, !string_app_assoc.
    + lia.
    + cbn [Z.of_nat]. lia.
Qed.

End Printing.

(** ** The whole measurement *)

Lemma uint_no_marker (d : Decimal.uint) :
  String.prefix "[+]" (NilZero.string_of_uint d) = false.
Proof. destruct d; reflexivity. Qed.

(** A number in decimal does not begin with the jump marker. *)
Lemma show_Z_no_marker (z : Z) : String.prefix "[+]" (show_Z z) = false.
Proof.
  unfold show_Z, NilZero.string_of_int.
  destruct (Z.to_int z) as [d|d]; [apply uint_no_marker | reflexivity].
Qed.

Section Measurement.

Context {P : Platform} {L : PlatformLaws P}.

Variables maxMemory maxAssoc maxStride minStride : Z.
Variables (w0 : world) (b0 : block).

Hypothesis Hb0 : array w0 = Some b0.
Hypothesis Hlen : blk_len b0 <= U32.modulus.
Hypothesis Hassoc : 1 <= maxAssoc <= 2 ^ 31.
Hypothesis Hstride : 0 <= maxStride < U32.modulus.
Hypothesis Hmin : sizeof_uint32_t <= minStride.
Hypothesis Hroom : (maxAssoc - 2) * (maxStride / sizeof_uint32_t) < blk_len b0.

Lemma capacityAndAssociativity_run :
  exists np g w1 evs,
    sweep maxAssoc maxStride minStride w0 = Ok (Z.of_nat np, g) w1 /\
    sweep_inv (blk_len b0) maxAssoc maxStride w0 (call_of maxAssoc 1 np) w1 g evs /\
    timed_calls evs = sweep_cells maxAssoc maxStride minStride /\
    capacityAndAssociativity maxMemory maxAssoc maxStride minStride w0 =
    Ok tt (printed (table_text maxAssoc minStride np g) w1).
Proof.
  assert (Hassoc' : 1 <= maxAssoc < U32.modulus) by (unfold U32.modulus; lia).
  destruct (sweep_run (blk_len b0) maxAssoc maxStride w0 Hlen Hassoc' Hstride Hroom
              minStride b0 Hb0 eq_refl Hmin)
    as (g & w1 & evs & Hrun & Hinv & Hcalls).
  pose proof (sweep_columns maxStride minStride Hstride Hmin) as [HnpC Hnp30].
  exists (List.length (sweep_strides maxStride minStride)), g, w1, evs.
  split; [exact Hrun|]. split; [exact Hinv|]. split; [exact Hcalls|].
  unfold capacityAndAssociativity. erewrite bind_ok by exact Hrun.
  cbn [fst snd]. apply print_table_run.
  - exact Hassoc.
  - lia.
  - intros r c Hr Hc. rewrite (inv_times _ _ _ _ _ _ _ _ Hinv). unfold times_after.
    rewrite (proj2 (Nat.ltb_lt r _)), (proj2 (Nat.ltb_lt c _)) by lia.
    cbn [andb]. destruct (_ && _)%bool; eauto.
  - intros r c Hr Hc. rewrite (inv_jumps _ _ _ _ _ _ _ _ Hinv), grid_get_repeat.
    now rewrite (proj2 (Nat.ltb_lt r _)), (proj2 (Nat.ltb_lt c _)) by lia.
Qed.

End Measurement.

(** C8.  After the sweep every cell of the grid of jump flags is false,
    and the table that is printed has, in every cell, the scaled duration
    alone: no cell begins with the marker "[+]", whatever the durations
    are. *)
Theorem no_jump_is_ever_marked {P : Platform} {L : PlatformLaws P}
    (maxMemory maxAssoc maxStride minStride : Z) (w0 : world) (b0 : block) :
  array w0 = Some b0 ->
  blk_len b0 <= U32.modulus ->
  1 <= maxAssoc <= 2 ^ 31 ->
  0 <= maxStride < U32.modulus ->
  sizeof_uint32_t <= minStride ->
  (maxAssoc - 2) * (maxStride / sizeof_uint32_t) < blk_len b0 ->
  exists np g w1 w2,
    sweep maxAssoc maxStride minStride w0 = Ok (Z.of_nat np, g) w1 /\
    jumps g = repeat (repeat false (Z.to_nat maxStride)) (Z.to_nat maxAssoc) /\
    (forall r c, (r < Z.to_nat maxAssoc)%nat -> (c < Z.to_nat maxStride)%nat ->
                 grid_get (jumps g) r c = Some false) /\
    capacityAndAssociativity maxMemory maxAssoc maxStride minStride w0 = Ok tt w2 /\
    cout w2 = (cout w0 ++ table_text maxAssoc minStride np g)%string /\
    (forall t, timeWithJump false t = show_Z t /\
               String.prefix "[+]" (timeWithJump false t) = false).
Proof.
  intros Hb0 Hlen Hassoc Hstride Hmin Hroom.
  destruct (capacityAndAssociativity_run maxMemory maxAssoc maxStride minStride w0 b0
              Hb0 Hlen Hassoc Hstride Hmin Hroom)
    as (np & g & w1 & evs & Hsweep & Hinv & _ & Hrun).
  exists np, g, w1, (printed (table_text maxAssoc minStride np g) w1).
  split; [exact Hsweep|]. split; [exact (inv_jumps _ _ _ _ _ _ _ _ Hinv)|].
  split; [|split; [exact Hrun|split]].
  - intros r c Hr Hc. rewrite (inv_jumps _ _ _ _ _ _ _ _ Hinv), grid_get_repeat.
    now rewrite (proj2 (Nat.ltb_lt r _)), (proj2 (Nat.ltb_lt c _)) by lia.
  - cbn [printed cout]. now rewrite (inv_cout _ _ _ _ _ _ _ _ Hinv).
  - intros t. split; [reflexivity|]. apply show_Z_no_marker.
Qed.

Lemma no_jump_is_ever_marked_witness :
  exists np g w1 w2,
    sweep 3 8 4 (RefPlatform.world_of_len 16) = Ok (Z.of_nat np, g) w1 /\
    jumps g = repeat (repeat false (Z.to_nat 8)) (Z.to_nat 3) /\
    (forall r c, (r < Z.to_nat 3)%nat -> (c < Z.to_nat 8)%nat ->
                 grid_get (jumps g) r c = Some false) /\
    capacityAndAssociativity 64 3 8 4 (RefPlatform.world_of_len 16) = Ok tt w2 /\
    cout w2 = (cout (RefPlatform.world_of_len 16) ++ table_text 3 4 np g)%string /\
    (forall t, timeWithJump false t = show_Z t /\
               String.prefix "[+]" (timeWithJump false t) = false).
Proof.
  apply (no_jump_is_ever_marked 64 3 8 4 (RefPlatform.world_of_len 16)
           (mkBlock 16 fresh_cells)).
  - reflexivity.
  - unfold U32.modulus. cbn [blk_len]. lia.
  - lia.
  - unfold U32.modulus. lia.
  - unfold sizeof_uint32_t. lia.
  - cbn. lia.
Defined.

(** ** The run of [main] *)

Section Main.

Context {P : Platform} {L : PlatformLaws P}.

Variables maxMemory maxAssoc maxStride minStride : Z.

Hypothesis Hcheck : U32.mul maxAssoc maxStride <= maxMemory.
Hypothesis Hmem : 0 <= maxMemory < U32.modulus.
Hypothesis Hassoc : 0 <= maxAssoc < 2 ^ 31.
Hypothesis Hstride : 0 <= maxStride < U32.modulus.
Hypothesis Hmin : sizeof_uint32_t <= minStride.
Hypothesis Hroom :
  (maxAssoc - 1) * (maxStride / sizeof_uint32_t) < maxMemory / sizeof_uint32_t.

Lemma main_with_run :
  exists w' evs,
    main_with maxMemory maxAssoc maxStride minStride initial_world = Ok 0 w' /\
    arrayLen w' = maxMemory / sizeof_uint32_t /\
    trace w' = EvAlloc PAGE_SIZE maxMemory :: evs ++ [EvFree] /\
    Forall (fun pos => 0 <= pos < maxMemory / sizeof_uint32_t) (accesses evs) /\
    timed_calls evs = sweep_cells (maxAssoc + 1) maxStride minStride.
Proof.
  assert (Hlen : blk_len (mkBlock (maxMemory / sizeof_uint32_t) fresh_cells)
                 <= U32.modulus).
  { cbn [blk_len]. unfold sizeof_uint32_t, U32.modulus in *.
    apply Z.lt_le_incl, Z.div_lt_upper_bound; lia. }
  destruct (capacityAndAssociativity_run maxMemory (maxAssoc + 1) maxStride minStride
              (sweep_start maxMemory) (mkBlock (maxMemory / sizeof_uint32_t) fresh_cells)
              eq_refl Hlen ltac:(lia) Hstride Hmin)
    as (np & g & w1 & evs & _ & Hinv & Hcalls & Hrun).
  { cbn [blk_len]. replace (maxAssoc + 1 - 2) with (maxAssoc - 1) by lia. exact Hroom. }
  destruct Hinv as [_ Htr _ _ _ Hal Hacc _ _ _ _ _].
  exists (mkWorld None (arrayLen w1) (gen w1) (clock w1)
                  (cout w1 ++ table_text (maxAssoc + 1) minStride np g) (cerr w1)
                  (trace w1 ++ [EvFree])), evs.
  split; [|split; [|split; [|split]]].
  - rewrite (main_check_passes maxMemory maxAssoc maxStride minStride Hcheck).
    change (main_measure maxMemory maxAssoc maxStride minStride (allocated maxMemory))
      with ((capacityAndAssociativity maxMemory (U32.add maxAssoc 1) maxStride minStride ;;;
             free_array ;;; ret 0) (sweep_start maxMemory)).
    replace (U32.add maxAssoc 1) with (maxAssoc + 1)
      by (unfold U32.add; rewrite u32_wrap_small; unfold U32.modulus; lia).
    erewrite bind_ok by exact Hrun. reflexivity.
  - cbn [arrayLen]. rewrite Hal. reflexivity.
  - cbn [trace]. rewrite Htr. reflexivity.
  - exact Hacc.
  - exact Hcalls.
Qed.

End Main.

(** C10.  With the constants compiled into [main], the run completes and
    every position written by a generator or read by a warm-up or timed
    chase during the whole sweep is below [arrayLen = 2^28], although the
    start-up check is made with 32 and the sweep with the bound 33: the
    sweep does measure 32 elements at the stride of 2^23 elements, its
    largest working set, whose last position is [31 * 2^23]. *)
Theorem main_stays_inside_the_buffer {P : Platform} {L : PlatformLaws P} :
  exists w' evs,
    main initial_world = Ok 0 w' /\
    arrayLen w' = 2 ^ 28 /\
    trace w' = EvAlloc PAGE_SIZE (2 ^ 30) :: evs ++ [EvFree] /\
    Forall (fun pos => 0 <= pos < arrayLen w') (accesses (trace w')) /\
    timed_calls evs = sweep_cells 33 (2 ^ 25) 16 /\
    In (2 ^ 23, 32) (sweep_cells 33 (2 ^ 25) 16) /\
    31 * 2 ^ 23 < 2 ^ 28 /\
    U32.mul 32 (2 ^ 25) <= 2 ^ 30.
Proof.
  destruct (main_with_run (2 ^ 30) 32 (2 ^ 25) 16) as (w' & evs & Hrun & Hal & Htr & Hacc & Hcalls).
  - discriminate.
  - unfold U32.modulus. lia.
  - lia.
  - unfold U32.modulus. lia.
  - unfold sizeof_uint32_t. lia.
  - unfold sizeof_uint32_t. reflexivity.
  - exists w', evs. split; [exact Hrun|]. split; [exact Hal|]. split; [exact Htr|].
    split; [|split; [exact Hcalls|split; [|split]]].
    + rewrite Htr, Hal.
      change (accesses (EvAlloc PAGE_SIZE (2 ^ 30) :: evs ++ [EvFree]))
        with (accesses (evs ++ [EvFree])).
      rewrite accesses_app. cbn [accesses flat_map app]. rewrite app_nil_r.
      exact Hacc.
    + vm_compute. tauto.
    + reflexivity.
    + discriminate.
Qed.

Lemma main_stays_inside_the_buffer_witness :
  exists w' evs,
    main (initial_world (P := RefPlatform.ref)) = Ok 0 w' /\
    arrayLen w' = 2 ^ 28 /\
    trace w' = EvAlloc PAGE_SIZE (2 ^ 30) :: evs ++ [EvFree] /\
    Forall (fun pos => 0 <= pos < arrayLen w') (accesses (trace w')) /\
    timed_calls evs = sweep_cells 33 (2 ^ 25) 16 /\
    In (2 ^ 23, 32) (sweep_cells 33 (2 ^ 25) 16) /\
    31 * 2 ^ 23 < 2 ^ 28 /\
    U32.mul 32 (2 ^ 25) <= 2 ^ 30.
Proof. apply (main_stays_inside_the_buffer (P := RefPlatform.ref)). Defined.

(** ** Seeding *)

Lemma another_run_laws (P : Platform) (L : PlatformLaws P)
    (now : nat -> Z) (fresh : Z -> Z) (pointer : string) :
  (forall k : nat, now k <= now (S k)) ->
  PlatformLaws (another_run P now fresh pointer).
Proof.
  intros Hnow. split.
  - exact (shuffle_perm (P := P)).
  - exact Hnow.
Qed.

Lemma patterns_of_another_run (P : Platform) (now : nat -> Z) (fresh : Z -> Z)
    (pointer : string) (cs : list (Z * Z)) :
  forall g : @engine P,
    patterns_of (P := another_run P now fresh pointer) cs g = patterns_of (P := P) cs g /\
    stores_of (P := another_run P now fresh pointer) cs g = stores_of (P := P) cs g /\
    engine_after (P := another_run P now fresh pointer) cs g = engine_after (P := P) cs g.
Proof.
  induction cs as [|[s e] cs IH]; intros g; [repeat split; reflexivity|].
  cbn [patterns_of stores_of engine_after].
  destruct (IH (engine_at (P := P) e (Z.to_nat BATCHES_COUNT) g)) as (Hp & Hs & He).
  split; [|split; [|exact He]].
  - f_equal. exact Hp.
  - f_equal. exact Hs.
Qed.

Section Seeding.

Context {P : Platform} {L : PlatformLaws P}.

Variables maxMemory maxAssoc maxStride minStride : Z.

Hypothesis Hcheck : U32.mul maxAssoc maxStride <= maxMemory.
Hypothesis Hmem : 0 <= maxMemory < U32.modulus.
Hypothesis Hassoc : 0 <= maxAssoc < 2 ^ 31.
Hypothesis Hstride : 0 <= maxStride < U32.modulus.
Hypothesis Hmin : sizeof_uint32_t <= minStride.
Hypothesis Hroom :
  (maxAssoc - 1) * (maxStride / sizeof_uint32_t) < maxMemory / sizeof_uint32_t.

(** The orders drawn during a run of [main], its stores to the buffer,
    and the engine it leaves. *)
Lemma main_with_patterns :
  exists w',
    main_with maxMemory maxAssoc maxStride minStride initial_world = Ok 0 w' /\
    shuffles_of (trace w') =
    patterns_of (sweep_cells (maxAssoc + 1) maxStride minStride) (mt19937 239) /\
    writes_of (trace w') =
    stores_of (sweep_cells (maxAssoc + 1) maxStride minStride) (mt19937 239) /\
    gen w' = engine_after (sweep_cells (maxAssoc + 1) maxStride minStride) (mt19937 239).
Proof.
  assert (Hlen : blk_len (mkBlock (maxMemory / sizeof_uint32_t) fresh_cells)
                 <= U32.modulus).
  { cbn [blk_len]. unfold sizeof_uint32_t, U32.modulus in *.
    apply Z.lt_le_incl, Z.div_lt_upper_bound; lia. }
  destruct (capacityAndAssociativity_run maxMemory (maxAssoc + 1) maxStride minStride
              (sweep_start maxMemory) (mkBlock (maxMemory / sizeof_uint32_t) fresh_cells)
              eq_refl Hlen ltac:(lia) Hstride Hmin)
    as (np & g & w1 & evs & _ & Hinv & Hcalls & Hrun).
  { cbn [blk_len]. replace (maxAssoc + 1 - 2) with (maxAssoc - 1) by lia. exact Hroom. }
  destruct Hinv as [_ Htr _ _ _ _ _ _ _ Hgen Hshuffles Hwrites].
  rewrite Hcalls in Hgen, Hshuffles, Hwrites.
  exists (mkWorld None (arrayLen w1) (gen w1) (clock w1)
                  (cout w1 ++ table_text (maxAssoc + 1) minStride np g) (cerr w1)
                  (trace w1 ++ [EvFree])).
  split; [|split; [|split]].
  - rewrite (main_check_passes maxMemory maxAssoc maxStride minStride Hcheck).
    change (main_measure maxMemory maxAssoc maxStride minStride (allocated maxMemory))
      with ((capacityAndAssociativity maxMemory (U32.add maxAssoc 1) maxStride minStride ;;;
             free_array ;;; ret 0) (sweep_start maxMemory)).
    replace (U32.add maxAssoc 1) with (maxAssoc + 1)
      by (unfold U32.add; rewrite u32_wrap_small; unfold U32.modulus; lia).
    erewrite bind_ok by exact Hrun. reflexivity.
  - cbn [trace]. rewrite Htr. unfold shuffles_of. rewrite !flat_map_app.
    fold (shuffles_of evs). rewrite Hshuffles.
    cbn [sweep_start printed trace flat_map app gen]. now rewrite app_nil_r.
  - cbn [trace]. rewrite Htr, !writes_of_app, Hwrites.
    cbn [sweep_start printed trace writes_of flat_map app gen]. now rewrite app_nil_r.
  - cbn [gen]. exact Hgen.
Qed.

End Seeding.

(** C9, amended.  The shuffled patterns are governed by the one engine
    [gen], constructed with the fixed seed 239 and advanced only by the
    shuffles; the [seed] parameter of [fillShuffledIndexes], 42 by default,
    has no effect.  In a run of [main] that is defined, the orders drawn by
    [std::shuffle], in the order of the run, are [BATCHES_COUNT] for every
    cell of the sweep, each drawn from the engine as the draw before left
    it, the first from [mt19937(239)], and the stores to the buffer are
    the links of these orders at the stride of their cell: functions of
    the constants of the build and of the engine alone.  Another run of
    the same build, with other readings of the steady clock, other
    contents of fresh memory and the block at another address, draws the
    same sequence of patterns, makes the same stores and ends with the
    same engine. *)
Theorem patterns_governed_by_engine {P : Platform} {L : PlatformLaws P}
    (maxMemory maxAssoc maxStride minStride : Z)
    (now : nat -> Z) (fresh : Z -> Z) (pointer : string) :
  U32.mul maxAssoc maxStride <= maxMemory ->
  0 <= maxMemory < U32.modulus ->
  0 <= maxAssoc < 2 ^ 31 ->
  0 <= maxStride < U32.modulus ->
  sizeof_uint32_t <= minStride ->
  (maxAssoc - 1) * (maxStride / sizeof_uint32_t) < maxMemory / sizeof_uint32_t ->
  (forall k : nat, now k <= now (S k)) ->
  (forall stride elems seed w,
      fillShuffledIndexes stride elems seed w = fillShuffledIndexes stride elems 42 w) /\
  exists w1 w2,
    main_with (P := P) maxMemory maxAssoc maxStride minStride initial_world = Ok 0 w1 /\
    main_with (P := another_run P now fresh pointer)
              maxMemory maxAssoc maxStride minStride initial_world = Ok 0 w2 /\
    shuffles_of (trace w1) =
    patterns_of (sweep_cells (maxAssoc + 1) maxStride minStride) (mt19937 239) /\
    writes_of (trace w1) =
    stores_of (sweep_cells (maxAssoc + 1) maxStride minStride) (mt19937 239) /\
    gen w1 = engine_after (sweep_cells (maxAssoc + 1) maxStride minStride) (mt19937 239) /\
    shuffles_of (trace w2) = shuffles_of (trace w1) /\
    writes_of (trace w2) = writes_of (trace w1) /\
    gen w2 = gen w1.
Proof.
  intros Hcheck Hmem Hassoc Hstride Hmin Hroom Hnow.
  split; [reflexivity|].
  destruct (main_with_patterns (P := P) maxMemory maxAssoc maxStride minStride
              Hcheck Hmem Hassoc Hstride Hmin Hroom)
    as (w1 & Hrun1 & Hsh1 & Hwr1 & Hgen1).
  destruct (main_with_patterns (P := another_run P now fresh pointer)
              (L := another_run_laws P L now fresh pointer Hnow)
              maxMemory maxAssoc maxStride minStride
              Hcheck Hmem Hassoc Hstride Hmin Hroom)
    as (w2 & Hrun2 & Hsh2 & Hwr2 & Hgen2).
  destruct (patterns_of_another_run P now fresh pointer
              (sweep_cells (maxAssoc + 1) maxStride minStride) (mt19937 239))
    as (Hp & Hs & He).
  exists w1, w2.
  split; [exact Hrun1|]. split; [exact Hrun2|].
  split; [exact Hsh1|]. split; [exact Hwr1|]. split; [exact Hgen1|].
  split; [|split].
  - rewrite Hsh1, Hsh2. exact Hp.
  - rewrite Hwr1, Hwr2. exact Hs.
  - rewrite Hgen1, Hgen2. exact He.
Qed.

(** The constants of [main], and a second run whose clock advances by 7,
    whose fresh memory holds zeros and whose block is elsewhere. *)
Lemma patterns_governed_by_engine_witness :
  (forall stride elems seed w,
      fillShuffledIndexes (P := RefPlatform.ref) stride elems seed w =
      fillShuffledIndexes stride elems 42 w) /\
  exists w1 w2,
    main_with (P := RefPlatform.ref) (2 ^ 30) 32 (2 ^ 25) 16 initial_world = Ok 0 w1 /\
    main_with (P := another_run RefPlatform.ref (fun k => 7 * Z.of_nat k) (fun _ => 0)
                                "0x10000")
              (2 ^ 30) 32 (2 ^ 25) 16 initial_world = Ok 0 w2 /\
    shuffles_of (trace w1) =
    patterns_of (sweep_cells (32 + 1) (2 ^ 25) 16) (mt19937 239) /\
    writes_of (trace w1) =
    stores_of (sweep_cells (32 + 1) (2 ^ 25) 16) (mt19937 239) /\
    gen w1 = engine_after (sweep_cells (32 + 1) (2 ^ 25) 16) (mt19937 239) /\
    shuffles_of (trace w2) = shuffles_of (trace w1) /\
    writes_of (trace w2) = writes_of (trace w1) /\
    gen w2 = gen w1.
Proof.
  apply (patterns_governed_by_engine (P := RefPlatform.ref) (2 ^ 30) 32 (2 ^ 25) 16
           (fun k => 7 * Z.of_nat k) (fun _ => 0) "0x10000").
  - discriminate.
  - unfold U32.modulus. lia.
  - lia.
  - unfold U32.modulus. lia.
  - unfold sizeof_uint32_t. lia.
  - unfold sizeof_uint32_t. reflexivity.
  - intros k. lia.
Defined.

(** * Further properties of the source

    Properties of the functions of [main.cpp] beyond those of the design
    document: [log2], [bytesToString] and the labels of the table, the
    order and the spread of the chase, the inputs on which the generators
    and the timed reader run into undefined behaviour, what the measuring
    part never does, and the run of [main] as a whole. *)

(** ** [log2] *)

Section Log2.

Context {P : Platform}.

Lemma log2_rounds (m : nat) :
  forall (n log : Z) (w : world),
    2 ^ Z.of_nat m <= n < 2 ^ (Z.of_nat m + 1) ->
    0 <= log -> log + Z.of_nat m < U32.modulus ->
    rounds_nat (S m) log2_round (n, log) w = Ok (inr (log + Z.of_nat m)) w.
Proof.
  induction m as [|m IH]; intros n log w Hn Hlog Hfit.
  - apply rounds_nat_break. unfold log2_round.
    rewrite Z.shiftr_div_pow2, Z.pow_1_r by lia.
    change (2 ^ Z.of_nat 0) with 1 in Hn. change (2 ^ (Z.of_nat 0 + 1)) with 2 in Hn.
    replace (n / 2) with 0 by (symmetry; apply Z.div_small; lia).
    cbn [Z.eqb]. now rewrite Z.add_0_r.
  - rewrite Nat2Z.inj_succ in *.
    assert (Hpos : 0 < 2 ^ Z.of_nat m) by (apply Z.pow_pos_nonneg; lia).
    replace (Z.succ (Z.of_nat m) + 1) with (Z.succ (Z.succ (Z.of_nat m))) in Hn by lia.
    rewrite !Z.pow_succ_r in Hn by lia.
    assert (Hhalf : 2 ^ Z.of_nat m <= n / 2 < 2 ^ (Z.of_nat m + 1)).
    { rewrite Z.pow_add_r, Z.pow_1_r by lia.
      split; [apply Z.div_le_lower_bound | apply Z.div_lt_upper_bound]; lia. }
    erewrite rounds_nat_continue.
    + rewrite (IH (n / 2) (log + 1) w Hhalf) by lia. f_equal. f_equal. lia.
    + unfold log2_round. rewrite Z.shiftr_div_pow2, Z.pow_1_r by lia.
      rewrite (proj2 (Z.eqb_neq _ _)) by lia.
      unfold U32.add. rewrite u32_wrap_small by lia. reflexivity.
Qed.

End Log2.

(** X1.  [log2(0)] fails its check: the process exits with status 1 and
    the error stream receives "Assertion failed: 2".  For every other
    [uint32_t] value [n], [log2(n)] returns, without any effect, the integer
    part of the binary logarithm: the [r] with [2^r <= n < 2^(r+1)]. *)
Theorem log2_floor_or_exit {P : Platform} (w : world) :
  log2 0 w = Exit 1 (complained 2 w) /\
  (forall n, 0 < n < U32.modulus ->
     exists r, log2 n w = Ok r w /\ 0 <= r < 32 /\ 2 ^ r <= n < 2 ^ (r + 1)).
Proof.
  split; [reflexivity|].
  intros n Hn.
  pose proof (Z.log2_spec n ltac:(lia)) as Hspec.
  pose proof (Z.log2_nonneg n) as Hnn.
  rewrite <- Z.add_1_r in Hspec.
  assert (Hlt : Z.log2 n < 32).
  { apply Z.log2_lt_pow2; [lia|]. unfold U32.modulus in Hn. lia. }
  exists (Z.log2 n). split; [|split; [lia | exact Hspec]].
  unfold log2, rassert.
  rewrite (proj2 (Z.eqb_neq n 0)) by lia. cbn [negb].
  rewrite bind_ret_l.
  apply (while_loop_leaves (S (Z.to_nat (Z.log2 n)))).
  - unfold U32.modulus. lia.
  - rewrite (log2_rounds (Z.to_nat (Z.log2 n)) n 0 w).
    + now rewrite Z2Nat.id by lia.
    + rewrite Z2Nat.id by lia. exact Hspec.
    + lia.
    + rewrite Z2Nat.id by lia. unfold U32.modulus. lia.
Qed.

Lemma log2_floor_or_exit_witness :
  log2 0 (RefPlatform.world_of_len 4) = Exit 1 (complained 2 (RefPlatform.world_of_len 4)) /\
  exists r, log2 1000 (RefPlatform.world_of_len 4) = Ok r (RefPlatform.world_of_len 4) /\
            0 <= r < 32 /\ 2 ^ r <= 1000 < 2 ^ (r + 1).
Proof.
  destruct (log2_floor_or_exit (RefPlatform.world_of_len 4)) as [Hzero Hpos].
  split; [exact Hzero|]. apply Hpos. unfold U32.modulus. lia.
Defined.

Example log2_1000 :
  log2 1000 (RefPlatform.world_of_len 4) = Ok 9 (RefPlatform.world_of_len 4).
Proof. reflexivity. Qed.

(** ** [bytesToString] and the labels of the table *)

Lemma bytesToString_cases (bytes : Z) :
  0 <= bytes ->
  (bytes < 2 ^ 10 /\ bytesToString bytes = (show_Z bytes ++ "B")%string) \/
  (2 ^ 10 <= bytes < 2 ^ 20 /\
   bytesToString bytes = (show_Z (bytes / 2 ^ 10) ++ "KB")%string) \/
  (2 ^ 20 <= bytes /\
   bytesToString bytes = (show_Z (bytes / 2 ^ 20) ++ "MB")%string).
Proof.
  intros Hb. unfold bytesToString.
  change (Z.shiftl 1 20) with (2 ^ 20). change (Z.shiftl 1 10) with (2 ^ 10).
  rewrite !Z.geb_leb.
  destruct (Z.leb_spec (2 ^ 20) bytes) as [H20|H20]; [right; right; now split|].
  destruct (Z.leb_spec (2 ^ 10) bytes) as [H10|H10]; [right; left; now split|].
  left; now split.
Qed.

(** X2.  [bytesToString(bytes)] is a number [n] followed by a unit B, KB
    or MB.  The number is the count of whole units in [bytes], rounded
    down; the unit is the largest of the three that [bytes] reaches, so
    that [n] is at least 1 unless the unit is B, and below 1024 unless the
    unit is MB, where it goes up to 4095: there is no larger unit. *)
Theorem bytesToString_rounds_down (bytes : Z) :
  0 <= bytes < U32.modulus ->
  exists n size u,
    bytesToString bytes = (show_Z n ++ u)%string /\
    In (size, u) byte_units /\
    n * size <= bytes < (n + 1) * size /\
    0 <= n < 2 ^ 12 /\
    (size = 1 \/ 1 <= n) /\
    (size = 2 ^ 20 \/ n < 2 ^ 10).
Proof.
  intros [Hlo Hhi]. unfold U32.modulus in Hhi.
  destruct (bytesToString_cases bytes Hlo) as [[Hb E]|[[Hb E]|[Hb E]]].
  - exists bytes, 1, "B"%string. rewrite E. unfold byte_units.
    repeat split; try lia; cbn; auto.
  - exists (bytes / 2 ^ 10), (2 ^ 10), "KB"%string. rewrite E. unfold byte_units.
    pose proof (Z.div_mod bytes (2 ^ 10) ltac:(lia)) as Hdm.
    pose proof (Z.mod_pos_bound bytes (2 ^ 10) ltac:(lia)) as Hm.
    repeat split; try lia; cbn; auto.
  - exists (bytes / 2 ^ 20), (2 ^ 20), "MB"%string. rewrite E. unfold byte_units.
    pose proof (Z.div_mod bytes (2 ^ 20) ltac:(lia)) as Hdm.
    pose proof (Z.mod_pos_bound bytes (2 ^ 20) ltac:(lia)) as Hm.
    repeat split; try lia; cbn; auto.
Qed.

Lemma bytesToString_rounds_down_witness :
  exists n size u,
    bytesToString 1536 = (show_Z n ++ u)%string /\
    In (size, u) byte_units /\
    n * size <= 1536 < (n + 1) * size /\
    0 <= n < 2 ^ 12 /\
    (size = 1 \/ 1 <= n) /\
    (size = 2 ^ 20 \/ n < 2 ^ 10).
Proof. apply (bytesToString_rounds_down 1536). unfold U32.modulus. lia. Defined.

Example bytesToString_1536 : bytesToString 1536 = "1KB"%string.
Proof. reflexivity. Qed.

Example bytesToString_1GB : bytesToString (2 ^ 30) = "1024MB"%string.
Proof. reflexivity. Qed.

(** X3.  On a power of two below [2^30], [bytesToString] loses nothing:
    [2^k] bytes are printed as [2^(k mod 10)] with the unit number
    [k / 10] of B, KB, MB. *)
Theorem bytesToString_exact_on_powers (k : nat) :
  (k < 30)%nat ->
  bytesToString (2 ^ Z.of_nat k) =
  (show_Z (2 ^ Z.of_nat (k mod 10)) ++ snd (nth (k / 10) byte_units (0, "")))%string.
Proof.
  intros Hk.
  do 30 (destruct k as [|k]; [reflexivity|]). lia.
Qed.

Lemma bytesToString_exact_on_powers_witness :
  bytesToString (2 ^ Z.of_nat 25) =
  (show_Z (2 ^ Z.of_nat (25 mod 10)) ++ snd (nth (25 / 10) byte_units (0, "")))%string.
Proof. apply (bytesToString_exact_on_powers 25). lia. Defined.

Example bytesToString_32MB : bytesToString (2 ^ 25) = "32MB"%string.
Proof. reflexivity. Qed.

Lemma strides_from_nth (maxStride : Z) (fuel : nat) :
  forall (stride : Z) (p : nat),
    (p < List.length (strides_from fuel stride maxStride))%nat ->
    nth p (strides_from fuel stride maxStride) 0 = stride * 2 ^ Z.of_nat p.
Proof.
  induction fuel as [|fuel IH]; intros stride p Hp; cbn [strides_from] in *.
  - cbn in Hp. lia.
  - destruct (stride * sizeof_uint32_t <=? maxStride); [|cbn in Hp; lia].
    destruct p as [|p]; cbn [nth].
    + cbn. lia.
    + cbn [List.length] in Hp. rewrite IH by lia.
      rewrite Nat2Z.inj_succ, Z.pow_succ_r by lia. lia.
Qed.

Lemma strides_from_nth_bound (maxStride : Z) (fuel : nat) :
  forall (stride : Z) (p : nat),
    (p < List.length (strides_from fuel stride maxStride))%nat ->
    nth p (strides_from fuel stride maxStride) 0 * sizeof_uint32_t <= maxStride.
Proof.
  induction fuel as [|fuel IH]; intros stride p Hp; cbn [strides_from] in *.
  - cbn in Hp. lia.
  - destruct (Z.leb_spec (stride * sizeof_uint32_t) maxStride) as [Hle|Hgt];
      [|cbn in Hp; lia].
    destruct p as [|p]; cbn [nth]; [exact Hle|].
    cbn [List.length] in Hp. apply IH. lia.
Qed.

(** X4.  When [minStride] is a multiple of four, the label printed above
    column [p] of the table, [bytesToString((1 << p) * minStride)], is the
    label of the stride that the column was measured with: the number
    [(1 << p) * minStride] is that stride in bytes. *)
Theorem header_labels_are_strides (maxStride minStride : Z) (p : nat) :
  0 <= maxStride < U32.modulus ->
  sizeof_uint32_t <= minStride ->
  minStride mod sizeof_uint32_t = 0 ->
  (p < List.length (sweep_strides maxStride minStride))%nat ->
  U32.mul (U32.shl 1 (Z.of_nat p)) minStride =
  nth p (sweep_strides maxStride minStride) 0 * sizeof_uint32_t.
Proof.
  intros Hmax Hmin Hmod Hp. unfold sweep_strides in *.
  pose proof (strides_from_nth_bound maxStride 32 _ p Hp) as Hb.
  rewrite (strides_from_nth maxStride 32 _ p Hp) in *.
  unfold sizeof_uint32_t in *.
  assert (Hm : minStride = 4 * (minStride / 4)).
  { pose proof (Z.div_mod minStride 4 ltac:(lia)). lia. }
  assert (Hpow : 0 < 2 ^ Z.of_nat p) by (apply Z.pow_pos_nonneg; lia).
  unfold U32.modulus in *.
  assert (Hp2 : 2 ^ Z.of_nat p < 2 ^ 32) by nia.
  unfold U32.shl. rewrite Z.shiftl_1_l, u32_wrap_small by (unfold U32.modulus; lia).
  unfold U32.mul. rewrite u32_wrap_small by (unfold U32.modulus; nia).
  nia.
Qed.

Lemma header_labels_are_strides_witness :
  U32.mul (U32.shl 1 (Z.of_nat 21)) 16 =
  nth 21 (sweep_strides (2 ^ 25) 16) 0 * sizeof_uint32_t.
Proof.
  apply (header_labels_are_strides (2 ^ 25) 16 21).
  - unfold U32.modulus. lia.
  - unfold sizeof_uint32_t. lia.
  - reflexivity.
  - vm_compute. lia.
Defined.

(** When [minStride] is not a multiple of four the label is not the stride
    that is measured: for [minStride = 6] the column of the stride of 4
    bytes is labelled 6B. *)
Example header_label_off :
  nth 0 (sweep_strides 8 6) 0 * sizeof_uint32_t = 4 /\
  bytesToString (U32.mul (U32.shl 1 0) 6) = "6B"%string.
Proof. split; reflexivity. Qed.

Lemma rows_from_powers (maxAssoc : Z) (fuel : nat) :
  forall j : nat,
    1 <= maxAssoc ->
    (Z.to_nat (Z.log2_up maxAssoc) <= j + fuel)%nat ->
    rows_from fuel (2 ^ Z.of_nat j) maxAssoc =
    map (fun k => 2 ^ Z.of_nat k) (seq j (Z.to_nat (Z.log2_up maxAssoc) - j)).
Proof.
  induction fuel as [|fuel IH]; intros j Hm Hfuel; cbn [rows_from].
  - replace (Z.to_nat (Z.log2_up maxAssoc) - j)%nat with 0%nat by lia. reflexivity.
  - pose proof (Z.log2_up_nonneg maxAssoc) as Hnn.
    destruct (Z.ltb_spec (2 ^ Z.of_nat j) maxAssoc) as [Hlt|Hge].
    + assert (Hj : (j < Z.to_nat (Z.log2_up maxAssoc))%nat).
      { apply Nat.nle_gt. intros Hle.
        assert (Z.log2_up maxAssoc <= Z.of_nat j) as Hle' by lia.
        apply Z.log2_up_le_pow2 in Hle'; lia. }
      replace (Z.to_nat (Z.log2_up maxAssoc) - j)%nat
        with (S (Z.to_nat (Z.log2_up maxAssoc) - S j)) by lia.
      cbn [seq map]. f_equal.
      replace (2 * 2 ^ Z.of_nat j) with (2 ^ Z.of_nat (S j))
        by (rewrite Nat2Z.inj_succ, Z.pow_succ_r; lia).
      apply IH; lia.
    + assert (Hle : Z.log2_up maxAssoc <= Z.of_nat j)
        by (apply Z.log2_up_le_pow2; lia).
      replace (Z.to_nat (Z.log2_up maxAssoc) - j)%nat with 0%nat by lia. reflexivity.
Qed.

Lemma table_rows_powers (maxAssoc : Z) :
  1 <= maxAssoc <= 2 ^ 31 ->
  table_rows maxAssoc = powers_of_two (Z.to_nat (Z.log2_up maxAssoc)).
Proof.
  intros Hm. unfold table_rows, powers_of_two.
  change 1 with (2 ^ Z.of_nat 0) at 1.
  rewrite rows_from_powers; [now rewrite Nat.sub_0_r | lia |].
  assert (Z.log2_up maxAssoc <= 31) by (apply Z.log2_up_le_pow2; lia).
  lia.
Qed.

(** X5.  The sweep measures every number of elements from 1 to
    [maxAssoc - 1], but the table that [capacityAndAssociativity] prints
    has a row only for the powers of two among them: after the header come
    the rows of 1, 2, 4, ..., one for each power of two below [maxAssoc],
    the binary logarithm of [maxAssoc] rounded up in number. *)
Theorem table_prints_power_of_two_rows {P : Platform} {L : PlatformLaws P}
    (maxMemory maxAssoc maxStride minStride : Z) (w0 : world) (b0 : block) :
  array w0 = Some b0 ->
  blk_len b0 <= U32.modulus ->
  1 <= maxAssoc <= 2 ^ 31 ->
  0 <= maxStride < U32.modulus ->
  sizeof_uint32_t <= minStride ->
  (maxAssoc - 2) * (maxStride / sizeof_uint32_t) < blk_len b0 ->
  exists np g w1 w2,
    sweep maxAssoc maxStride minStride w0 = Ok (Z.of_nat np, g) w1 /\
    capacityAndAssociativity maxMemory maxAssoc maxStride minStride w0 = Ok tt w2 /\
    cout w2 =
    (cout w0 ++ header_text minStride np
     ++ cat (map (row_text g np) (powers_of_two (Z.to_nat (Z.log2_up maxAssoc)))))%string /\
    (forall s, In s (powers_of_two (Z.to_nat (Z.log2_up maxAssoc))) <->
               exists k : nat, s = 2 ^ Z.of_nat k /\ s < maxAssoc).
Proof.
  intros Hb0 Hlen Hassoc Hstride Hmin Hroom.
  destruct (capacityAndAssociativity_run maxMemory maxAssoc maxStride minStride w0 b0
              Hb0 Hlen Hassoc Hstride Hmin Hroom)
    as (np & g & w1 & evs & Hsweep & Hinv & _ & Hrun).
  exists np, g, w1, (printed (table_text maxAssoc minStride np g) w1).
  split; [exact Hsweep|]. split; [exact Hrun|]. split.
  - cbn [printed cout]. rewrite (inv_cout _ _ _ _ _ _ _ _ Hinv).
    unfold table_text. now rewrite (table_rows_powers maxAssoc Hassoc).
  - intros s. unfold powers_of_two. rewrite in_map_iff.
    pose proof (Z.log2_up_nonneg maxAssoc) as Hnn.
    split.
    + intros (k & <- & Hk). apply in_seq in Hk. exists k. split; [reflexivity|].
      apply Z.nle_gt. intros Hle. apply Z.log2_up_le_pow2 in Hle; lia.
    + intros (k & -> & Hk). exists k. split; [reflexivity|]. apply in_seq.
      split; [lia|]. cbn. apply Nat.nle_gt. intros Hle.
      assert (Z.log2_up maxAssoc <= Z.of_nat k) as Hle' by lia.
      apply Z.log2_up_le_pow2 in Hle'; lia.
Qed.

Lemma table_prints_power_of_two_rows_witness :
  exists np g w1 w2,
    sweep 4 8 4 (RefPlatform.world_of_len 16) = Ok (Z.of_nat np, g) w1 /\
    capacityAndAssociativity 64 4 8 4 (RefPlatform.world_of_len 16) = Ok tt w2 /\
    cout w2 =
    (cout (RefPlatform.world_of_len 16) ++ header_text 4 np
     ++ cat (map (row_text g np) (powers_of_two (Z.to_nat (Z.log2_up 4)))))%string /\
    (forall s, In s (powers_of_two (Z.to_nat (Z.log2_up 4))) <->
               exists k : nat, s = 2 ^ Z.of_nat k /\ s < 4).
Proof.
  apply (table_prints_power_of_two_rows 64 4 8 4 (RefPlatform.world_of_len 16)
           (mkBlock 16 fresh_cells)).
  - reflexivity.
  - unfold U32.modulus. cbn [blk_len]. lia.
  - lia.
  - unfold U32.modulus. lia.
  - unfold sizeof_uint32_t. lia.
  - cbn. lia.
Defined.

(** ** The order and the spread of the chase *)

Lemma iterate_add (c : Z -> Z) (a b : nat) :
  forall x, iterate c (a + b) x = iterate c b (iterate c a x).
Proof. induction a as [|a IH]; intros x; cbn [Nat.add iterate]; [reflexivity | apply IH]. Qed.

Lemma orbit_add (c : Z -> Z) (a b : nat) :
  forall x, orbit c (a + b) x = orbit c a x ++ orbit c b (iterate c a x).
Proof.
  induction a as [|a IH]; intros x; cbn [Nat.add iterate orbit app]; [reflexivity|].
  now rewrite IH.
Qed.

Lemma iterate_turns (c : Z -> Z) (n : nat) (x : Z) :
  iterate c n x = x -> forall q, iterate c (q * n) x = x.
Proof.
  intros Hn q. induction q as [|q IH]; [reflexivity|].
  cbn [Nat.mul]. now rewrite iterate_add, Hn.
Qed.

Lemma orbit_turns (c : Z -> Z) (n : nat) (x : Z) :
  iterate c n x = x ->
  forall q, orbit c (q * n) x = concat (repeat (orbit c n x) q).
Proof.
  intros Hn q. induction q as [|q IH]; [reflexivity|].
  cbn [Nat.mul repeat concat]. now rewrite orbit_add, Hn, IH.
Qed.

Lemma count_occ_turns (l : list Z) (x : Z) (q : nat) :
  count_occ Z.eq_dec (concat (repeat l q)) x = (q * count_occ Z.eq_dec l x)%nat.
Proof.
  induction q as [|q IH]; [reflexivity|].
  cbn [repeat concat Nat.mul]. now rewrite count_occ_app, IH.
Qed.

Section ChaseOnPattern.

Variables len stride elems : Z.
Hypothesis Hfits : fits len stride elems.
Variable c : Z -> Z.
Hypothesis Hc : pattern stride elems c.

Let n := Z.to_nat elems.

(** The chase has the period [elems]. *)
Lemma pattern_period (j : nat) : iterate c j 0 = iterate c (j mod n) 0.
Proof.
  rewrite (Nat.div_mod_eq j n) at 1.
  rewrite (Nat.mul_comm n), iterate_add.
  now rewrite (iterate_turns c n 0 (pattern_returns len stride elems Hfits c Hc)).
Qed.

Lemma pattern_orbit_split (j : nat) :
  orbit c j 0 = concat (repeat (orbit c n 0) (j / n)) ++ orbit c (j mod n) 0.
Proof.
  pose proof (pattern_returns len stride elems Hfits c Hc) as Hback. fold n in Hback.
  rewrite (Nat.div_mod_eq j n) at 1.
  rewrite (Nat.mul_comm n), orbit_add.
  now rewrite (orbit_turns c n 0 Hback), (iterate_turns c n 0 Hback).
Qed.

Lemma pattern_count_turn (x : Z) :
  In x (footprint stride elems) -> count_occ Z.eq_dec (orbit c n 0) x = 1%nat.
Proof.
  intros Hx.
  pose proof (pattern_orbit_NoDup len stride elems Hfits c Hc) as Hnd. fold n in Hnd.
  pose proof (pattern_orbit_perm len stride elems Hfits c Hc) as Hperm. fold n in Hperm.
  apply (proj1 (NoDup_count_occ' Z.eq_dec _) Hnd).
  apply (Permutation_in _ (Permutation_sym Hperm) Hx).
Qed.

Lemma pattern_count_part (r : nat) (x : Z) :
  (r <= n)%nat -> (count_occ Z.eq_dec (orbit c r 0) x <= 1)%nat.
Proof.
  intros Hr.
  pose proof (pattern_orbit_NoDup len stride elems Hfits c Hc) as Hnd. fold n in Hnd.
  replace n with (r + (n - r))%nat in Hnd by lia.
  rewrite orbit_add in Hnd. apply NoDup_app_remove_r in Hnd.
  apply (proj1 (NoDup_count_occ Z.eq_dec _) Hnd).
Qed.

(** In [j] reads every position of the footprint is read [j / elems]
    times, or once more. *)
Lemma pattern_count (j : nat) (x : Z) :
  In x (footprint stride elems) ->
  (j / n <= count_occ Z.eq_dec (orbit c j 0) x <= j / n + 1)%nat /\
  ((j mod n = 0)%nat -> count_occ Z.eq_dec (orbit c j 0) x = (j / n)%nat).
Proof.
  intros Hx.
  assert (Hn : n <> 0%nat) by (destruct Hfits as (_ & He & _); unfold n; lia).
  rewrite pattern_orbit_split, count_occ_app, count_occ_turns, pattern_count_turn by exact Hx.
  pose proof (pattern_count_part (j mod n) x
                ltac:(pose proof (Nat.mod_upper_bound j n Hn); lia)) as Hpart.
  split; [lia|]. intros ->. cbn [orbit count_occ]. lia.
Qed.

End ChaseOnPattern.

Section ChaseProperties.

Context {P : Platform} {L : PlatformLaws P}.

Lemma direct_iterate (stride elems : Z) (b : block) (j : nat) :
  fits (blk_len b) stride elems ->
  iterate (apply_writes (links (footprint stride elems)) (blk_cells b)) j 0 =
  (Z.of_nat j mod elems) * stride.
Proof.
  intros Hfits. pose proof Hfits as (Hs & He & _).
  pose proof (ring_links (footprint stride elems) (blk_cells b)
                (footprint_NoDup stride elems Hs)) as Hring.
  pose proof (ring_iterate _ _ Hring j 0%nat) as Hit.
  rewrite footprint_length in Hit.
  rewrite footprint_nth in Hit by lia. cbn [Z.of_nat Z.mul] in Hit.
  rewrite Hit by lia. cbn [Nat.add].
  rewrite footprint_nth by (apply Nat.mod_upper_bound; lia).
  rewrite Nat2Z.inj_mod, Z2Nat.id by lia. reflexivity.
Qed.

Lemma reverse_iterate (stride elems : Z) (b : block) (j : nat) :
  fits (blk_len b) stride elems ->
  iterate (apply_writes (links (rev (footprint stride elems))) (blk_cells b)) j 0 =
  ((- Z.of_nat j) mod elems) * stride.
Proof.
  intros Hfits. pose proof Hfits as (Hs & He & _).
  pose proof (ring_links (rev (footprint stride elems)) (blk_cells b)
                (NoDup_rev (footprint_NoDup stride elems Hs))) as Hring.
  pose proof (ring_iterate _ _ Hring j (Z.to_nat elems - 1)%nat) as Hit.
  rewrite length_rev, footprint_length in Hit.
  rewrite rev_footprint_nth in Hit by lia.
  replace (Z.to_nat elems - 1 - (Z.to_nat elems - 1))%nat with 0%nat in Hit by lia.
  cbn [Z.of_nat Z.mul] in Hit. rewrite Hit by lia.
  assert (Hn : Z.to_nat elems <> 0%nat) by lia.
  pose proof (Nat.mod_upper_bound (Z.to_nat elems - 1 + j) (Z.to_nat elems) Hn) as Hr.
  rewrite rev_footprint_nth by exact Hr.
  f_equal.
  pose proof (Nat.div_mod_eq (Z.to_nat elems - 1 + j) (Z.to_nat elems)) as Hdm.
  apply (Z.mod_unique (- Z.of_nat j) elems
           (- Z.of_nat ((Z.to_nat elems - 1 + j) / Z.to_nat elems))); [left; lia|].
  set (q := ((Z.to_nat elems - 1 + j) / Z.to_nat elems)%nat) in *.
  set (r := ((Z.to_nat elems - 1 + j) mod Z.to_nat elems)%nat) in *.
  nia.
Qed.

(** X6.  On the direct pattern the chase walks the footprint upwards: after
    [reads] reads from position 0 the index is
    [(reads mod elems) * stride].  On the reverse pattern it walks it
    downwards: the index is [((- reads) mod elems) * stride], that is the
    last position after one read, the one before it after two. *)
Theorem direct_and_reverse_chase_order (stride elems reads sink : Z)
    (w : world) (b : block) :
  array w = Some b ->
  fits (blk_len b) stride elems ->
  0 <= reads ->
  (exists w' sink' w'',
      fillDirectIndexes stride elems w = Ok tt w' /\
      chase reads sink w' = Ok ((reads mod elems) * stride, sink') w'') /\
  (exists w' sink' w'',
      fillReverseIndexes stride elems w = Ok tt w' /\
      chase reads sink w' = Ok (((- reads) mod elems) * stride, sink') w'').
Proof.
  intros Hb Hfits Hreads. split.
  - destruct (linked_world stride elems b Hfits (footprint stride elems) w Hb
                (Permutation_refl _)) as (Harr & Hpat & _).
    eexists _, _, _. split.
    + exact (fillDirectIndexes_run (blk_len b) stride elems Hfits w b Hb eq_refl).
    + rewrite (pattern_chase (blk_len b) stride elems Hfits _ Hpat _ _ reads sink
                 Harr eq_refl eq_refl).
      cbn [blk_cells]. rewrite (direct_iterate stride elems b _ Hfits).
      rewrite Z2Nat.id by lia. reflexivity.
  - destruct (linked_world stride elems b Hfits (rev (footprint stride elems)) w Hb
                (Permutation_rev _)) as (Harr & Hpat & _).
    eexists _, _, _. split.
    + exact (fillReverseIndexes_run (blk_len b) stride elems Hfits w b Hb eq_refl).
    + rewrite (pattern_chase (blk_len b) stride elems Hfits _ Hpat _ _ reads sink
                 Harr eq_refl eq_refl).
      cbn [blk_cells]. rewrite (reverse_iterate stride elems b _ Hfits).
      rewrite Z2Nat.id by lia. reflexivity.
Qed.

(** X7.  On a shuffled pattern the chase has the period [elems]: the index
    after [reads] reads is the index after [reads mod elems] reads, it is
    a position of the footprint, and it is position 0 whenever [reads] is a
    multiple of [elems]. *)
Theorem shuffled_chase_is_periodic (stride elems seed reads sink : Z)
    (w : world) (b : block) :
  array w = Some b ->
  fits (blk_len b) stride elems ->
  0 <= reads ->
  exists w' idx sink1 w1 sink2 w2,
    fillShuffledIndexes stride elems seed w = Ok tt w' /\
    chase reads sink w' = Ok (idx, sink1) w1 /\
    chase (reads mod elems) sink w' = Ok (idx, sink2) w2 /\
    In idx (footprint stride elems) /\
    (reads mod elems = 0 -> idx = 0).
Proof.
  intros Hb Hfits Hreads. pose proof Hfits as (Hs & He & _).
  destruct (linked_world stride elems b Hfits
              (map (fun x => x * stride) (drawn elems w))
              (after_shuffle elems w) Hb (drawn_perm stride elems w))
    as (Harr & Hpat & _).
  eexists _, _, _, _, _, _.
  split; [exact (fillShuffledIndexes_run (blk_len b) stride elems Hfits seed w b Hb eq_refl)|].
  split; [exact (pattern_chase (blk_len b) stride elems Hfits _ Hpat _ _ reads sink
                   Harr eq_refl eq_refl)|].
  split; [|split].
  - rewrite (pattern_chase (blk_len b) stride elems Hfits _ Hpat _ _ (reads mod elems) sink
               Harr eq_refl eq_refl).
    rewrite (pattern_period (blk_len b) stride elems Hfits _ Hpat (Z.to_nat reads)).
    rewrite Z2Nat.inj_mod by lia. reflexivity.
  - apply (pattern_iterate_in (blk_len b) stride elems Hfits _ Hpat).
  - intros Hmod.
    rewrite (pattern_period (blk_len b) stride elems Hfits _ Hpat (Z.to_nat reads)).
    rewrite <- Z2Nat.inj_mod, Hmod by lia. reflexivity.
Qed.

(** X8.  On a shuffled pattern the reads of a chase are spread evenly over
    the working set: of [reads] reads every position of the footprint gets
    [reads / elems] or one more, exactly [reads / elems] when [elems]
    divides [reads]; no other position is read; and a chase of at least
    [elems] reads, such as the warm-up of 5000 reads on at most 32
    elements, has touched every position of the footprint. *)
Theorem shuffled_chase_spreads_evenly (stride elems seed reads sink : Z)
    (w : world) (b : block) :
  array w = Some b ->
  fits (blk_len b) stride elems ->
  0 <= reads ->
  exists w' r w'' ps,
    fillShuffledIndexes stride elems seed w = Ok tt w' /\
    chase reads sink w' = Ok r w'' /\
    trace w'' = trace w' ++ map EvRead ps /\
    List.length ps = Z.to_nat reads /\
    (forall x, In x (footprint stride elems) ->
       reads / elems <= Z.of_nat (count_occ Z.eq_dec ps x) <= reads / elems + 1) /\
    (reads mod elems = 0 ->
     forall x, In x (footprint stride elems) ->
       Z.of_nat (count_occ Z.eq_dec ps x) = reads / elems) /\
    (elems <= reads -> forall x, In x (footprint stride elems) -> In x ps) /\
    (forall x, In x ps -> In x (footprint stride elems)).
Proof.
  intros Hb Hfits Hreads. pose proof Hfits as (Hs & He & _).
  destruct (linked_world stride elems b Hfits
              (map (fun x => x * stride) (drawn elems w))
              (after_shuffle elems w) Hb (drawn_perm stride elems w))
    as (Harr & Hpat & _).
  set (c := apply_writes (links (map (fun x => x * stride) (drawn elems w))) (blk_cells b))
    in *.
  assert (Hdiv : Z.of_nat (Z.to_nat reads / Z.to_nat elems) = reads / elems)
    by (rewrite Nat2Z.inj_div, !Z2Nat.id by lia; reflexivity).
  eexists _, _, _, (orbit c (Z.to_nat reads) 0).
  split; [exact (fillShuffledIndexes_run (blk_len b) stride elems Hfits seed w b Hb eq_refl)|].
  split; [exact (pattern_chase (blk_len b) stride elems Hfits _ Hpat _ _ reads sink
                   Harr eq_refl eq_refl)|].
  split; [reflexivity|]. split; [apply orbit_length|].
  split; [|split; [|split]].
  - intros x Hx.
    destruct (pattern_count (blk_len b) stride elems Hfits c Hpat (Z.to_nat reads) x Hx)
      as [Hcount _].
    lia.
  - intros Hmod x Hx.
    destruct (pattern_count (blk_len b) stride elems Hfits c Hpat (Z.to_nat reads) x Hx)
      as [_ Hexact].
    rewrite Hexact; [exact Hdiv|].
    apply Nat2Z.inj. rewrite Nat2Z.inj_mod, !Z2Nat.id by lia. exact Hmod.
  - intros Hle x Hx.
    destruct (pattern_count (blk_len b) stride elems Hfits c Hpat (Z.to_nat reads) x Hx)
      as [Hcount _].
    apply (count_occ_In Z.eq_dec).
    assert (1 <= reads / elems) by (apply Z.div_le_lower_bound; lia).
    lia.
  - intros x Hx.
    exact (pattern_orbit_incl (blk_len b) stride elems Hfits c Hpat (Z.to_nat reads) x Hx).
Qed.

End ChaseProperties.

Lemma direct_and_reverse_chase_order_witness :
  (exists w' sink' w'',
      fillDirectIndexes 2 5 (RefPlatform.world_of_len 10) = Ok tt w' /\
      chase 7 0 w' = Ok ((7 mod 5) * 2, sink') w'') /\
  (exists w' sink' w'',
      fillReverseIndexes 2 5 (RefPlatform.world_of_len 10) = Ok tt w' /\
      chase 7 0 w' = Ok (((- 7) mod 5) * 2, sink') w'').
Proof.
  apply (direct_and_reverse_chase_order 2 5 7 0 (RefPlatform.world_of_len 10)
           (mkBlock 10 fresh_cells)).
  - reflexivity.
  - unfold fits, U32.modulus. cbn [blk_len]. lia.
  - lia.
Defined.

Lemma shuffled_chase_is_periodic_witness :
  exists w' idx sink1 w1 sink2 w2,
    fillShuffledIndexes 2 5 42 (RefPlatform.world_of_len 10) = Ok tt w' /\
    chase 7 0 w' = Ok (idx, sink1) w1 /\
    chase (7 mod 5) 0 w' = Ok (idx, sink2) w2 /\
    In idx (footprint 2 5) /\
    (7 mod 5 = 0 -> idx = 0).
Proof.
  apply (shuffled_chase_is_periodic 2 5 42 7 0 (RefPlatform.world_of_len 10)
           (mkBlock 10 fresh_cells)).
  - reflexivity.
  - unfold fits, U32.modulus. cbn [blk_len]. lia.
  - lia.
Defined.

Lemma shuffled_chase_spreads_evenly_witness :
  exists w' r w'' ps,
    fillShuffledIndexes 2 5 42 (RefPlatform.world_of_len 10) = Ok tt w' /\
    chase 12 0 w' = Ok r w'' /\
    trace w'' = trace w' ++ map EvRead ps /\
    List.length ps = Z.to_nat 12 /\
    (forall x, In x (footprint 2 5) ->
       12 / 5 <= Z.of_nat (count_occ Z.eq_dec ps x) <= 12 / 5 + 1) /\
    (12 mod 5 = 0 ->
     forall x, In x (footprint 2 5) -> Z.of_nat (count_occ Z.eq_dec ps x) = 12 / 5) /\
    (5 <= 12 -> forall x, In x (footprint 2 5) -> In x ps) /\
    (forall x, In x ps -> In x (footprint 2 5)).
Proof.
  apply (shuffled_chase_spreads_evenly 2 5 42 12 0 (RefPlatform.world_of_len 10)
           (mkBlock 10 fresh_cells)).
  - reflexivity.
  - unfold fits, U32.modulus. cbn [blk_len]. lia.
  - lia.
Defined.

(** The reads of a chase of 7 on the shuffled pattern of [(2, 5)]. *)
Example shuffled_chase_2_5 :
  option_map trace
    (final_world ((fillShuffledIndexes 2 5 42 ;;; chase 7 0)
                    (RefPlatform.world_of_len 10))) =
  Some [EvShuffle [0; 2; 1; 3; 4];
        EvWrite 0 4; EvWrite 4 2; EvWrite 2 6; EvWrite 6 8; EvWrite 8 0;
        EvRead 0; EvRead 4; EvRead 2; EvRead 6; EvRead 8; EvRead 0; EvRead 4].
Proof. reflexivity. Qed.

(** ** Where the generators and the timed reader are undefined

    Nothing in the source checks a position against [arrayLen] or the
    pointer against [nullptr]. *)

Section Overrun.

Context {P : Platform}.

Lemma while_loop_undefined {S R} (n : nat) (body : S -> M (S + R)) (s : S) (w : world) :
  Z.of_nat n <= U32.modulus ->
  rounds_nat n body s w = Undefined ->
  while_loop (R := R) body s w = Undefined.
Proof.
  intros Hn Hrun. unfold while_loop, bind. rewrite rounds_eq.
  assert (Hsplit : exists m, Pos.to_nat loop_bound = (n + m)%nat).
  { exists (Pos.to_nat loop_bound - n)%nat.
    unfold U32.modulus in Hn. unfold loop_bound. lia. }
  destruct Hsplit as [m ->].
  rewrite rounds_nat_add, Hrun. reflexivity.
Qed.

Lemma array_store_null (pos val : Z) (w : world) :
  array w = None -> array_store pos val w = Undefined.
Proof. intros H. unfold array_store. now rewrite H. Qed.

(** The direct loop walks up to its bound in steps of [stride]: when a
    multiple of the stride lies between the end of the block and the
    bound, a store leaves the block. *)
Lemma direct_overrun (stride elems len : Z) (kmax : nat) (m : nat) :
  forall (k : nat) (w : world) (b : block),
    1 <= stride ->
    len <= Z.of_nat kmax * stride <= U32.mul stride (U32.sub elems 1) ->
    Z.of_nat kmax * stride < U32.modulus ->
    (k + m = kmax)%nat ->
    array w = Some b -> blk_len b = len ->
    rounds_nat (S m) (direct_round stride elems) (Z.of_nat k * stride) w = Undefined.
Proof.
  induction m as [|m IH]; intros k w b Hs Hk Hwrap Hkm Hb Hbl.
  - replace k with kmax by lia. cbn [rounds_nat]. unfold bind, direct_round.
    rewrite (proj2 (Z.leb_le _ _)) by lia.
    destruct (_ =? _); unfold bind;
      rewrite (array_store_out w b) by (try exact Hb; lia); reflexivity.
  - destruct (Z.lt_ge_cases (Z.of_nat k * stride) len) as [Hin|Hout].
    + erewrite rounds_nat_continue.
      * apply (IH (S k) _ (mkBlock (blk_len b)
                              (apply_writes [(Z.of_nat k * stride,
                                              Z.of_nat (S k) * stride)] (blk_cells b))));
          try assumption; try lia.
        eapply with_writes_array. exact Hb.
      * unfold direct_round.
        rewrite (proj2 (Z.leb_le _ _)) by nia.
        rewrite (proj2 (Z.eqb_neq _ _)) by nia.
        erewrite bind_ok by (eapply array_store_run; [exact Hb | nia]).
        unfold U32.add. rewrite u32_wrap_small by nia.
        replace (Z.of_nat k * stride + stride) with (Z.of_nat (S k) * stride) by lia.
        reflexivity.
    + cbn [rounds_nat]. unfold bind at 1. unfold direct_round.
      rewrite (proj2 (Z.leb_le _ _)) by nia.
      destruct (_ =? _); unfold bind;
        rewrite (array_store_out w b) by (try exact Hb; lia); reflexivity.
Qed.

End Overrun.

Section Undefined.

Context {P : Platform} {L : PlatformLaws P}.

(** The link loop of the shuffled generator stores at every slot: when
    one of the slots still to come is outside the block, a store fails. *)
Lemma link_rounds_overrun (stride elems : Z) (p : list Z) (l : list nat) :
  1 <= stride -> 1 <= elems -> (elems - 1) * stride < U32.modulus ->
  Permutation (iota elems) p ->
  forall (w : world) (b : block),
    array w = Some b ->
    (forall t, In t l -> (t < Z.to_nat elems)%nat) ->
    (exists t, In t l /\ blk_len b <= nth t p 0 * stride) ->
    for_each (map Z.of_nat l) (link_round stride elems p) tt w = Undefined.
Proof.
  intros Hs He Hwrap Hp.
  assert (Hfits : fits ((elems - 1) * stride + 1) stride elems)
    by (unfold fits; lia).
  induction l as [|t l IH]; intros w b Hb Hl (t0 & Ht0 & Hout).
  - destruct Ht0.
  - cbn [map for_each]. unfold bind.
    rewrite (link_round_run _ stride elems Hfits p Hp t w) by (apply Hl; now left).
    rewrite !(scaled_nth stride).
    destruct (Z.lt_ge_cases (nth t p 0 * stride) (blk_len b)) as [Hin|Hge].
    + assert (Hpos : 0 <= nth t p 0 * stride).
      { pose proof (drawn_slot elems p Hp t ltac:(apply Hl; now left)). nia. }
      rewrite (array_store_run w b) by (try exact Hb; lia).
      destruct Ht0 as [->|Ht0]; [lia|].
      eapply IH.
      * eapply with_writes_array. exact Hb.
      * intros t' Ht'. apply Hl. now right.
      * exists t0. split; [exact Ht0 | exact Hout].
    + now rewrite (array_store_out w b) by (try exact Hb; lia).
Qed.

Lemma shuffled_overruns (stride elems seed : Z) (w : world) (b : block) :
  array w = Some b ->
  1 <= stride -> 1 <= elems ->
  (elems - 1) * stride < U32.modulus ->
  blk_len b <= (elems - 1) * stride ->
  fillShuffledIndexes stride elems seed w = Undefined.
Proof.
  intros Hb Hs He Hwrap Hout. unfold fillShuffledIndexes.
  erewrite bind_ok by apply init_indexes.
  erewrite bind_ok by apply std_shuffle_run.
  unfold for_upto, iota.
  pose proof (shuffle_perm (gen w) (iota elems)) as Hp. fold (drawn elems w) in Hp.
  apply (link_rounds_overrun stride elems (drawn elems w) _ Hs He Hwrap Hp _ b).
  - exact Hb.
  - intros t Ht. apply in_seq in Ht. lia.
  - assert (Hin : In (elems - 1) (drawn elems w)).
    { apply (Permutation_in _ Hp). apply iota_In. lia. }
    destruct (In_nth _ _ 0 Hin) as (t & Ht & Hnth).
    rewrite (drawn_length elems (drawn elems w) Hp) in Ht.
    exists t. split; [apply in_seq; lia|]. rewrite Hnth. exact Hout.
Qed.

Lemma shuffled_needs_block (stride elems seed : Z) (w : world) :
  array w = None ->
  1 <= stride -> 1 <= elems ->
  (elems - 1) * stride < U32.modulus ->
  fillShuffledIndexes stride elems seed w = Undefined.
Proof.
  intros Hnull Hs He Hwrap.
  assert (Hfits : fits ((elems - 1) * stride + 1) stride elems)
    by (unfold fits; lia).
  unfold fillShuffledIndexes.
  erewrite bind_ok by apply init_indexes.
  erewrite bind_ok by apply std_shuffle_run.
  unfold for_upto, iota.
  replace (Z.to_nat elems) with (S (Z.to_nat elems - 1)) by lia.
  cbn [seq map for_each]. unfold bind.
  pose proof (shuffle_perm (gen w) (iota elems)) as Hp. fold (drawn elems w) in Hp.
  rewrite (link_round_run _ stride elems Hfits (drawn elems w) Hp 0) by lia.
  now rewrite array_store_null.
Qed.

(** X9.  The generators do not check the footprint against the block: when
    the last position [(elems - 1) * stride] of the footprint is a valid
    [uint32_t] and lies at or beyond the end of the block, each of the
    three generators makes a store outside the block. *)
Theorem generators_overrun (stride elems seed : Z) (w : world) (b : block) :
  array w = Some b ->
  1 <= stride -> 1 <= elems ->
  (elems - 1) * stride < U32.modulus ->
  blk_len b <= (elems - 1) * stride ->
  fillDirectIndexes stride elems w = Undefined /\
  fillReverseIndexes stride elems w = Undefined /\
  fillShuffledIndexes stride elems seed w = Undefined.
Proof.
  intros Hb Hs He Hwrap Hout.
  assert (Hfits : fits ((elems - 1) * stride + 1) stride elems)
    by (unfold fits; lia).
  pose proof (last_position _ stride elems Hfits) as Hlast.
  assert (He' : Z.of_nat (Z.to_nat elems - 1) = elems - 1) by lia.
  split; [|split].
  - unfold fillDirectIndexes.
    apply (while_loop_undefined (S (Z.to_nat elems - 1))).
    + pose proof (elems_range _ stride elems Hfits). lia.
    + change 0 with (Z.of_nat 0 * stride) at 1.
      apply (direct_overrun stride elems (blk_len b) (Z.to_nat elems - 1) _ 0 w b);
        try assumption; try reflexivity; rewrite ?He', ?Hlast; lia.
  - unfold fillReverseIndexes.
    apply (while_loop_undefined 1); [unfold U32.modulus; lia|].
    cbn [rounds_nat]. unfold bind at 1. unfold reverse_round.
    rewrite (proj2 (Z.ltb_lt 0 elems)) by lia. rewrite Hlast.
    destruct (_ =? _) eqn:E; unfold bind.
    + apply Z.eqb_eq in E. now rewrite (array_store_out w b) by (try exact Hb; lia).
    + now rewrite (array_store_out w b) by (try exact Hb; lia).
  - now apply (shuffled_overruns stride elems seed w b).
Qed.

(** X10.  With no element at all, [elems = 0], the reverse generator does
    nothing and the shuffled generator only hands an empty vector to
    [std::shuffle]; neither touches the buffer.  The direct generator
    instead computes its bound [stride * (elems - 1)] as
    [2^32 - stride] and walks up to it: in a block that ends at least two
    strides below [2^32] it runs off the end. *)
Theorem generators_on_no_elements (stride seed : Z) (w : world) :
  fillReverseIndexes stride 0 w = Ok tt w /\
  fillShuffledIndexes stride 0 seed w = Ok tt (after_shuffle 0 w) /\
  drawn 0 w = [] /\
  (forall b, array w = Some b -> 0 <= blk_len b -> 1 <= stride ->
             blk_len b + 2 * stride <= U32.modulus ->
             fillDirectIndexes stride 0 w = Undefined).
Proof.
  split; [|split; [|split]].
  - unfold fillReverseIndexes. apply (while_loop_leaves 1); [unfold U32.modulus; lia|].
    reflexivity.
  - unfold fillShuffledIndexes.
    erewrite bind_ok by apply init_indexes.
    erewrite bind_ok by apply std_shuffle_run.
    reflexivity.
  - pose proof (shuffle_perm (gen w) (iota 0)) as Hp.
    apply Permutation_nil in Hp. exact Hp.
  - intros b Hb Hnn Hs Hroom. unfold U32.modulus in Hroom.
    assert (Hbound : U32.mul stride (U32.sub 0 1) = U32.modulus - stride).
    { unfold U32.mul, U32.sub, U32.wrap, U32.modulus.
      change ((0 - 1) mod 2 ^ 32) with (2 ^ 32 - 1).
      symmetry. apply (Z.mod_unique _ _ (stride - 1)); [left|]; lia. }
    set (kmax := Z.to_nat ((blk_len b + stride - 1) / stride)).
    assert (Hk : blk_len b <= Z.of_nat kmax * stride < blk_len b + stride).
    { unfold kmax. rewrite Z2Nat.id by (apply Z.div_pos; lia).
      pose proof (Z.div_mod (blk_len b + stride - 1) stride ltac:(lia)).
      pose proof (Z.mod_pos_bound (blk_len b + stride - 1) stride ltac:(lia)).
      nia. }
    unfold fillDirectIndexes. apply (while_loop_undefined (S kmax)).
    + unfold U32.modulus. nia.
    + change 0 with (Z.of_nat 0 * stride) at 1.
      apply (direct_overrun stride 0 (blk_len b) kmax kmax 0 w b); try assumption;
        try reflexivity; rewrite ?Hbound; unfold U32.modulus; lia.
Qed.

(** X11.  The generators and the chase use [array] as it is: while it is
    still the null pointer, every generator with at least one element and
    every chase of at least one read is undefined. *)
Theorem generators_need_a_block (stride elems seed : Z) (w : world) :
  array w = None ->
  1 <= stride -> 1 <= elems ->
  (elems - 1) * stride < U32.modulus ->
  fillDirectIndexes stride elems w = Undefined /\
  fillReverseIndexes stride elems w = Undefined /\
  fillShuffledIndexes stride elems seed w = Undefined /\
  (forall reads sink, 1 <= reads -> chase reads sink w = Undefined).
Proof.
  intros Hnull Hs He Hwrap.
  assert (Hfits : fits ((elems - 1) * stride + 1) stride elems)
    by (unfold fits; lia).
  pose proof (last_position _ stride elems Hfits) as Hlast.
  split; [|split; [|split]].
  - unfold fillDirectIndexes.
    apply (while_loop_undefined 1); [unfold U32.modulus; lia|].
    cbn [rounds_nat]. unfold bind at 1. unfold direct_round. rewrite Hlast.
    rewrite (proj2 (Z.leb_le _ _)) by nia.
    destruct (_ =? _); unfold bind; now rewrite array_store_null.
  - unfold fillReverseIndexes.
    apply (while_loop_undefined 1); [unfold U32.modulus; lia|].
    cbn [rounds_nat]. unfold bind at 1. unfold reverse_round.
    rewrite (proj2 (Z.ltb_lt 0 elems)) by lia.
    destruct (_ =? _); unfold bind; now rewrite array_store_null.
  - now apply shuffled_needs_block.
  - intros reads sink Hreads. unfold chase, for_upto, iota.
    replace (Z.to_nat reads) with (S (Z.to_nat reads - 1)) by lia.
    cbn [seq map for_each]. unfold bind, chase_round, bind, array_load. cbn [fst].
    now rewrite Hnull.
Qed.

Lemma first_batch_undefined (stride elems reads warm batches : Z) (w : world) :
  1 <= batches ->
  fillShuffledIndexes stride elems 42 (entered stride elems w) = Undefined ->
  timeOfArrayRead stride elems reads warm batches w = Undefined.
Proof.
  intros Hbatches Hfill. unfold timeOfArrayRead.
  unfold bind at 1. change (emit (EvTimed stride elems) w)
    with (Ok tt (entered stride elems w)).
  unfold for_upto, iota.
  replace (Z.to_nat batches) with (S (Z.to_nat batches - 1)) by lia.
  cbn [seq map for_each]. unfold bind at 1. unfold bind at 1.
  unfold batch_round at 1. unfold bind at 1. now rewrite Hfill.
Qed.

(** X12.  [timeOfArrayRead] divides by [batchesCount] without looking at
    it: with [batchesCount = 0] the call is undefined, whatever the other
    arguments.  With at least one batch it is undefined as soon as its
    first pattern cannot be generated: when there is no block, or when the
    last position of the footprint is at or beyond the end of the
    block. *)
Theorem timed_reader_undefined_inputs (stride elems reads warm batches : Z) (w : world) :
  timeOfArrayRead stride elems reads warm 0 w = Undefined /\
  (1 <= batches -> 1 <= stride -> 1 <= elems ->
   (elems - 1) * stride < U32.modulus ->
   (array w = None \/
    exists b, array w = Some b /\ blk_len b <= (elems - 1) * stride) ->
   timeOfArrayRead stride elems reads warm batches w = Undefined).
Proof.
  split; [reflexivity|].
  intros Hbatches Hs He Hwrap Hblock.
  apply first_batch_undefined; [exact Hbatches|].
  destruct Hblock as [Hnull|(b & Hb & Hout)].
  - now apply shuffled_needs_block.
  - now apply (shuffled_overruns stride elems 42 (entered stride elems w) b).
Qed.

End Undefined.

Lemma generators_overrun_witness :
  fillDirectIndexes 2 5 (RefPlatform.world_of_len 8) = Undefined /\
  fillReverseIndexes 2 5 (RefPlatform.world_of_len 8) = Undefined /\
  fillShuffledIndexes 2 5 42 (RefPlatform.world_of_len 8) = Undefined.
Proof.
  apply (generators_overrun 2 5 42 (RefPlatform.world_of_len 8) (mkBlock 8 fresh_cells)).
  - reflexivity.
  - lia.
  - lia.
  - unfold U32.modulus. lia.
  - cbn [blk_len]. lia.
Defined.

Lemma generators_on_no_elements_witness :
  fillReverseIndexes 2 0 (RefPlatform.world_of_len 8) = Ok tt (RefPlatform.world_of_len 8) /\
  fillDirectIndexes 2 0 (RefPlatform.world_of_len 8) = Undefined.
Proof.
  destruct (generators_on_no_elements 2 42 (RefPlatform.world_of_len 8))
    as (Hrev & _ & _ & Hdirect).
  split; [exact Hrev|].
  apply (Hdirect (mkBlock 8 fresh_cells)).
  - reflexivity.
  - cbn [blk_len]. lia.
  - lia.
  - unfold U32.modulus. cbn [blk_len]. lia.
Defined.

Lemma generators_need_a_block_witness :
  fillDirectIndexes 1 2 (initial_world (P := RefPlatform.ref)) = Undefined /\
  fillReverseIndexes 1 2 (initial_world (P := RefPlatform.ref)) = Undefined /\
  fillShuffledIndexes 1 2 42 (initial_world (P := RefPlatform.ref)) = Undefined /\
  (forall reads sink, 1 <= reads ->
     chase reads sink (initial_world (P := RefPlatform.ref)) = Undefined).
Proof.
  apply (generators_need_a_block 1 2 42 (initial_world (P := RefPlatform.ref))).
  - reflexivity.
  - lia.
  - lia.
  - unfold U32.modulus. lia.
Defined.

Lemma timed_reader_undefined_inputs_witness :
  timeOfArrayRead 1 2 1 1 0 (RefPlatform.world_of_len 8) = Undefined /\
  timeOfArrayRead 2 5 1 1 1 (RefPlatform.world_of_len 8) = Undefined.
Proof.
  destruct (timed_reader_undefined_inputs 1 2 1 1 0 (RefPlatform.world_of_len 8))
    as [Hzero _].
  destruct (timed_reader_undefined_inputs 2 5 1 1 1 (RefPlatform.world_of_len 8))
    as [_ Hout].
  split; [exact Hzero|]. apply Hout.
  - lia.
  - lia.
  - lia.
  - unfold U32.modulus. lia.
  - right. exists (mkBlock 8 fresh_cells). split; [reflexivity|]. cbn [blk_len]. lia.
Defined.

(** ** What the measuring part never does

    These hold for every argument and from every state, also where the
    call is undefined later on or does not finish. *)

Section Frames.

Context {P : Platform}.

Lemma frame_refl (printing : bool) (w : world) : frame printing w w.
Proof.
  split; try reflexivity; try lia.
  - destruct printing; [|reflexivity]. exists EmptyString.
    now rewrite string_app_nil_r.
  - exists []. split; [now rewrite app_nil_r | constructor].
Qed.

Lemma frame_trans (printing : bool) (w1 w2 w3 : world) :
  frame printing w1 w2 -> frame printing w2 w3 -> frame printing w1 w3.
Proof.
  intros [Ha Hc Hb Hk Ho (e1 & Ht1 & Hq1)] [Ha' Hc' Hb' Hk' Ho' (e2 & Ht2 & Hq2)].
  split; try congruence; try lia.
  - destruct printing; [|congruence].
    destruct Ho as [t1 Ho], Ho' as [t2 Ho']. exists (t1 ++ t2)%string.
    now rewrite Ho', Ho, string_app_assoc.
  - exists (e1 ++ e2). split; [now rewrite Ht2, Ht1, app_assoc|].
    apply Forall_app; now split.
Qed.

Lemma frame_printing (w w' : world) : frame false w w' -> frame true w w'.
Proof.
  intros [Ha Hc Hb Hk Ho Ht]. split; try assumption.
  exists EmptyString. now rewrite string_app_nil_r.
Qed.

Lemma keeps_printing {A} (m : M A) : keeps false m -> keeps true m.
Proof.
  intros H w. specialize (H w). destruct (m w); try exact H. now apply frame_printing.
Qed.

Lemma keeps_ret {A} (printing : bool) (a : A) : keeps printing (ret a).
Proof. intros w. apply frame_refl. Qed.

Lemma keeps_undefined {A} (printing : bool) : keeps printing (undefined (A := A)).
Proof. intros w. exact I. Qed.

Lemma keeps_bind {A B} (printing : bool) (m : M A) (k : A -> M B) :
  keeps printing m -> (forall a, keeps printing (k a)) -> keeps printing (bind m k).
Proof.
  intros Hm Hk w. unfold bind. specialize (Hm w).
  destruct (m w) as [a w1| | |]; try exact Hm.
  specialize (Hk a w1). destruct (k a w1); try exact Hk.
  exact (frame_trans _ _ _ _ Hm Hk).
Qed.

Lemma keeps_for_each {A S} (printing : bool) (l : list A) (body : A -> S -> M S) :
  (forall i s, keeps printing (body i s)) ->
  forall s, keeps printing (for_each l body s).
Proof.
  intros Hbody. induction l as [|i l IH]; intros s; cbn [for_each].
  - apply keeps_ret.
  - apply keeps_bind; [apply Hbody | exact IH].
Qed.

Lemma keeps_for_upto {S} (printing : bool) (n : Z) (body : Z -> S -> M S) :
  (forall i s, keeps printing (body i s)) ->
  forall s, keeps printing (for_upto n body s).
Proof. intros Hbody s. now apply keeps_for_each. Qed.

Lemma keeps_rounds_nat {S R} (printing : bool) (body : S -> M (S + R)) :
  (forall s, keeps printing (body s)) ->
  forall n s, keeps printing (rounds_nat n body s).
Proof.
  intros Hbody. induction n as [|n IH]; intros s; cbn [rounds_nat].
  - apply keeps_ret.
  - apply keeps_bind; [apply Hbody|]. intros [s'|r]; [apply IH | apply keeps_ret].
Qed.

Lemma keeps_while_loop {S R} (printing : bool) (body : S -> M (S + R)) :
  (forall s, keeps printing (body s)) ->
  forall s, keeps printing (while_loop (R := R) body s).
Proof.
  intros Hbody s w. unfold while_loop, bind. rewrite rounds_eq.
  pose proof (keeps_rounds_nat printing body Hbody (Pos.to_nat loop_bound) s w) as H.
  destruct (rounds_nat _ body s w) as [[s'|r] w'| | |]; try exact H. exact I.
Qed.

Lemma keeps_vec_at {A} (printing : bool) (v : list A) (i : Z) : keeps printing (vec_at v i).
Proof.
  unfold vec_at. destruct (i <? 0); [apply keeps_undefined|].
  destruct (nth_error v (Z.to_nat i)); [apply keeps_ret | apply keeps_undefined].
Qed.

Lemma keeps_vec_set {A} (printing : bool) (v : list A) (i : Z) (x : A) :
  keeps printing (vec_set v i x).
Proof.
  unfold vec_set. destruct (_ && _); [apply keeps_ret | apply keeps_undefined].
Qed.

Lemma keeps_grid_at {A} (printing : bool) (g : list (list A)) (r c : Z) :
  keeps printing (grid_at g r c).
Proof. apply keeps_bind; [apply keeps_vec_at | intros row; apply keeps_vec_at]. Qed.

Lemma keeps_grid_set {A} (printing : bool) (g : list (list A)) (r c : Z) (x : A) :
  keeps printing (grid_set g r c x).
Proof.
  apply keeps_bind; [apply keeps_vec_at | intros row].
  apply keeps_bind; [apply keeps_vec_set | intros row'; apply keeps_vec_set].
Qed.

Lemma frame_event (w : world) (b : option block) (g : engine) (k : nat) (e : event) :
  quiet e ->
  option_map blk_len b = option_map blk_len (array w) ->
  (clock w <= k)%nat ->
  frame false w (mkWorld b (arrayLen w) g k (cout w) (cerr w) (trace w ++ [e])).
Proof.
  intros He Hb Hk. split; cbn; try reflexivity; try assumption.
  exists [e]. split; [reflexivity | now constructor].
Qed.

Lemma keeps_array_store (pos val : Z) : keeps false (array_store pos val).
Proof.
  intros w. unfold array_store. destruct (array w) as [b|] eqn:Hb; [|exact I].
  destruct (_ && _); [|exact I].
  apply frame_event; [exact I | now rewrite Hb | lia].
Qed.

Lemma keeps_array_load (pos : Z) : keeps false (array_load pos).
Proof.
  intros w. unfold array_load. destruct (array w) as [b|] eqn:Hb; [|exact I].
  destruct (_ && _); [|exact I].
  apply frame_event; [exact I | now rewrite Hb | lia].
Qed.

Lemma keeps_std_shuffle (v : list Z) : keeps false (std_shuffle v).
Proof.
  intros w. unfold std_shuffle. destruct (shuffle (gen w) v) as [v' g'].
  apply frame_event; [exact I | reflexivity | lia].
Qed.

Lemma keeps_steady_clock_now : keeps false steady_clock_now.
Proof. intros w. apply frame_event; [exact I | reflexivity | lia]. Qed.

Lemma keeps_emit (e : event) : quiet e -> keeps false (emit e).
Proof. intros He w. apply frame_event; [exact He | reflexivity | lia]. Qed.

Lemma keeps_print_out (s : string) : keeps true (print_out s).
Proof.
  intros w. split; cbn; try reflexivity; try lia.
  - now exists s.
  - exists []. split; [now rewrite app_nil_r | constructor].
Qed.

Lemma keeps_fillDirectIndexes (stride elems : Z) :
  keeps false (fillDirectIndexes stride elems).
Proof.
  apply keeps_while_loop. intros i. unfold direct_round.
  destruct (_ <=? _); [|apply keeps_ret].
  destruct (_ =? _); (apply keeps_bind; [apply keeps_array_store | intros; apply keeps_ret]).
Qed.

Lemma keeps_fillReverseIndexes (stride elems : Z) :
  keeps false (fillReverseIndexes stride elems).
Proof.
  apply keeps_while_loop. intros [i cnt]. unfold reverse_round.
  destruct (_ <? _); [|apply keeps_ret].
  destruct (_ =? _); (apply keeps_bind; [apply keeps_array_store | intros; apply keeps_ret]).
Qed.

Lemma keeps_fillShuffledIndexes (stride elems seed : Z) :
  keeps false (fillShuffledIndexes stride elems seed).
Proof.
  unfold fillShuffledIndexes.
  apply keeps_bind; [apply keeps_for_upto; intros; apply keeps_vec_set | intros v].
  apply keeps_bind; [apply keeps_std_shuffle | intros p].
  apply keeps_for_upto. intros i []. unfold link_round.
  destruct (_ =? _);
    (apply keeps_bind; [apply keeps_vec_at | intros a];
     apply keeps_bind; [apply keeps_vec_at | intros b];
     apply keeps_array_store).
Qed.

Lemma keeps_chase (n sink : Z) : keeps false (chase n sink).
Proof.
  apply keeps_for_upto. intros i st.
  apply keeps_bind; [apply keeps_array_load | intros; apply keeps_ret].
Qed.

Lemma keeps_timeOfArrayRead (stride elems reads warm batches : Z) :
  keeps false (timeOfArrayRead stride elems reads warm batches).
Proof.
  unfold timeOfArrayRead.
  apply keeps_bind; [apply keeps_emit; exact I | intros _].
  apply keeps_bind.
  - apply keeps_for_upto. intros batch st. unfold batch_round.
    apply keeps_bind; [apply keeps_fillShuffledIndexes | intros _].
    apply keeps_bind; [apply keeps_chase | intros r].
    apply keeps_bind; [apply keeps_steady_clock_now | intros t0].
    apply keeps_bind; [apply keeps_chase | intros r'].
    apply keeps_bind; [apply keeps_steady_clock_now | intros t1].
    apply keeps_ret.
  - intros st. destruct (_ =? _); [apply keeps_undefined | apply keeps_ret].
Qed.

Lemma keeps_sweep (maxAssoc maxStride minStride : Z) :
  keeps false (sweep maxAssoc maxStride minStride).
Proof.
  apply keeps_while_loop. intros [[stride stridePow] g]. unfold column_round.
  destruct (_ <=? _); [|apply keeps_ret].
  apply keeps_bind; [|intros; apply keeps_ret].
  apply keeps_while_loop. intros [elems g0]. unfold cell_round.
  destruct (_ <? _); [|apply keeps_ret].
  apply keeps_bind; [apply keeps_timeOfArrayRead | intros t].
  apply keeps_bind; [apply keeps_grid_set | intros t'].
  apply keeps_bind; [|intros; apply keeps_ret].
  destruct (_ >? _); apply keeps_ret.
Qed.

Lemma keeps_print_table (maxAssoc minStride stridePow : Z) (g : grids) :
  keeps true (print_table maxAssoc minStride stridePow g).
Proof.
  unfold print_table.
  apply keeps_bind; [apply keeps_print_out | intros _].
  apply keeps_bind.
  { apply keeps_for_upto. intros p u.
    destruct (_ >=? _); [apply keeps_undefined | apply keeps_print_out]. }
  intros _. apply keeps_bind; [apply keeps_print_out | intros _].
  apply keeps_while_loop. intros s. unfold row_round.
  destruct (_ <? _); [|apply keeps_ret].
  apply keeps_bind; [apply keeps_print_out | intros _].
  apply keeps_bind.
  { apply keeps_for_upto. intros p u. unfold print_cell.
    apply keeps_bind; [apply keeps_grid_at | intros t].
    apply keeps_bind; [apply keeps_grid_at | intros j].
    apply keeps_print_out. }
  intros _. apply keeps_bind; [apply keeps_print_out | intros; apply keeps_ret].
Qed.

Lemma keeps_capacityAndAssociativity (maxMemory maxAssoc maxStride minStride : Z) :
  keeps true (capacityAndAssociativity maxMemory maxAssoc maxStride minStride).
Proof.
  apply keeps_bind; [apply keeps_printing, keeps_sweep | intros r].
  apply keeps_print_table.
Qed.

End Frames.

(** X13.  [timeOfArrayRead] never ends the process, and when it returns
    it has left [arrayLen], the standard output and the error stream as
    they were, has kept the backing buffer at its length and has called
    neither [aligned_alloc] nor [free(array)]: on the global state it has
    only stored to and loaded from the buffer, drawn from the engine and
    read the clock.  (The vector [indexes] that every batch builds is
    storage of the generator's own, outside the global state.) *)
Theorem timed_reader_frame {P : Platform}
    (stride elems reads warm batches : Z) (w : world) :
  (forall status w',
      timeOfArrayRead stride elems reads warm batches w <> Exit status w') /\
  (forall r w',
      timeOfArrayRead stride elems reads warm batches w = Ok r w' ->
      frame false w w').
Proof.
  pose proof (keeps_timeOfArrayRead stride elems reads warm batches w) as H.
  split.
  - intros status w' Hrun. rewrite Hrun in H. exact H.
  - intros r w' Hrun. rewrite Hrun in H. exact H.
Qed.

Lemma timed_reader_frame_witness :
  frame false (RefPlatform.world_of_len 10)
        (Nat.iter (Z.to_nat 2) (batch_world 1 3 4 2)
                  (entered 1 3 (RefPlatform.world_of_len 10))).
Proof.
  apply (proj2 (timed_reader_frame 1 3 4 2 2 (RefPlatform.world_of_len 10))
           (Z.quot (intervals (Z.to_nat 2) (clock (RefPlatform.world_of_len 10))) 2)).
  apply (timeOfArrayRead_run 1 3 4 2 2 (RefPlatform.world_of_len 10)
           (mkBlock 10 fresh_cells)).
  - reflexivity.
  - unfold fits, U32.modulus. cbn [blk_len]. lia.
  - lia.
Defined.

(** X14.  [capacityAndAssociativity] never ends the process.  Its
    measuring loops print nothing; the function as a whole only appends to
    the standard output.  It writes nothing to the error stream, leaves
    [arrayLen] and the length of the backing buffer as they were, and
    calls neither [aligned_alloc] nor [free(array)].  (Its two grids and
    the vectors of the generators are storage of their own, outside the
    global state.) *)
Theorem sweep_and_table_frame {P : Platform}
    (maxMemory maxAssoc maxStride minStride : Z) (w : world) :
  (forall status w',
      capacityAndAssociativity maxMemory maxAssoc maxStride minStride w <> Exit status w') /\
  (forall r w',
      sweep maxAssoc maxStride minStride w = Ok r w' -> frame false w w') /\
  (forall w',
      capacityAndAssociativity maxMemory maxAssoc maxStride minStride w = Ok tt w' ->
      frame true w w').
Proof.
  pose proof (keeps_capacityAndAssociativity maxMemory maxAssoc maxStride minStride w) as H.
  pose proof (keeps_sweep maxAssoc maxStride minStride w) as Hs.
  split; [|split].
  - intros status w' Hrun. rewrite Hrun in H. exact H.
  - intros r w' Hrun. rewrite Hrun in Hs. exact Hs.
  - intros w' Hrun. rewrite Hrun in H. exact H.
Qed.

Lemma sweep_and_table_frame_witness :
  exists w',
    capacityAndAssociativity 64 3 8 4 (RefPlatform.world_of_len 16) = Ok tt w' /\
    frame true (RefPlatform.world_of_len 16) w'.
Proof.
  destruct (capacityAndAssociativity_run 64 3 8 4 (RefPlatform.world_of_len 16)
              (mkBlock 16 fresh_cells)) as (np & g & w1 & evs & _ & _ & _ & Hrun).
  - reflexivity.
  - unfold U32.modulus. cbn [blk_len]. lia.
  - lia.
  - unfold U32.modulus. lia.
  - unfold sizeof_uint32_t. lia.
  - cbn. lia.
  - eexists. split; [exact Hrun|].
    apply (proj2 (proj2 (sweep_and_table_frame 64 3 8 4 (RefPlatform.world_of_len 16)))).
    exact Hrun.
Defined.

(** ** The buffer after the timed reader *)

Section AfterTheTimedReader.

Context {P : Platform} {L : PlatformLaws P}.

Variables stride elems reads warm : Z.

Lemma shuffled_outside (g : engine) (c : Z -> Z) (x : Z) :
  ~ In x (footprint stride elems) -> shuffled stride elems g c x = c x.
Proof.
  intros Hx. unfold shuffled. apply (links_outside stride elems); [|exact Hx].
  apply scaled_perm, shuffle_perm.
Qed.

Lemma batches_leave_pattern (k : nat) :
  forall (w : world) (b : block),
    array w = Some b ->
    fits (blk_len b) stride elems ->
    exists c,
      array (Nat.iter (S k) (batch_world stride elems reads warm) w) =
      Some (mkBlock (blk_len b) c) /\
      pattern stride elems c /\
      (forall x, ~ In x (footprint stride elems) -> c x = blk_cells b x).
Proof.
  induction k as [|k IH]; intros w b Hb Hfits.
  - exists (shuffled stride elems (gen w) (blk_cells b)). cbn [Nat.iter].
    split; [now apply batch_world_array|]. split.
    + apply (shuffled_pattern (blk_len b) stride elems Hfits).
    + intros x Hx. now apply shuffled_outside.
  - destruct (IH w b Hb Hfits) as (c & Harr & Hpat & Hout).
    set (w1 := Nat.iter (S k) (batch_world stride elems reads warm) w) in *.
    exists (shuffled stride elems (gen w1) c).
    change (Nat.iter (S (S k)) (batch_world stride elems reads warm) w)
      with (batch_world stride elems reads warm w1).
    split; [exact (batch_world_array stride elems reads warm w1 _ Harr)|]. split.
    + apply (shuffled_pattern (blk_len b) stride elems Hfits).
    + intros x Hx. rewrite shuffled_outside by exact Hx. now apply Hout.
Qed.

End AfterTheTimedReader.

(** X15.  A call of [timeOfArrayRead] that is defined leaves in the buffer
    the pattern of its last batch, a single cycle of length [elems] through
    position 0, and has touched nothing but the footprint: every cell
    outside it holds what it held before the call, and every store and
    load of the call was at a position of the footprint.  The call reads
    the clock twice per batch. *)
Theorem timed_reader_leaves_a_cycle {P : Platform} {L : PlatformLaws P}
    (stride elems reads warm batches : Z) (w : world) (b : block) :
  array w = Some b ->
  fits (blk_len b) stride elems ->
  1 <= batches ->
  exists r w' b' evs,
    timeOfArrayRead stride elems reads warm batches w = Ok r w' /\
    array w' = Some b' /\
    blk_len b' = blk_len b /\
    pattern stride elems (blk_cells b') /\
    iterate (blk_cells b') (Z.to_nat elems) 0 = 0 /\
    (forall x, ~ In x (footprint stride elems) -> blk_cells b' x = blk_cells b x) /\
    trace w' = trace w ++ EvTimed stride elems :: evs /\
    Forall (fun pos => In pos (footprint stride elems)) (accesses evs) /\
    clock w' = (clock w + 2 * Z.to_nat batches)%nat.
Proof.
  intros Hb Hfits Hbatches.
  destruct (timeOfArrayRead_trace stride elems reads warm batches w b Hb Hfits Hbatches)
    as (w' & Hrun & Htrace & _ & _ & Hclock & _).
  pose proof (timeOfArrayRead_run stride elems reads warm batches w b Hb Hfits Hbatches)
    as Hrun'.
  rewrite Hrun in Hrun'. injection Hrun' as Hw'.
  destruct (batches_leave_pattern stride elems reads warm (Z.to_nat batches - 1)
              (entered stride elems w) b Hb Hfits) as (c & Harr & Hpat & Hout).
  replace (S (Z.to_nat batches - 1)) with (Z.to_nat batches) in Harr by lia.
  rewrite <- Hw' in Harr.
  eexists _, w', (mkBlock (blk_len b) c), _.
  split; [exact Hrun|]. split; [exact Harr|]. split; [reflexivity|].
  split; [exact Hpat|]. split; [|split; [exact Hout|split; [exact Htrace|split]]].
  - apply (pattern_returns (blk_len b) stride elems Hfits _ Hpat).
  - apply (accesses_batches (blk_len b) stride elems reads warm Hfits).
  - exact Hclock.
Qed.

Lemma timed_reader_leaves_a_cycle_witness :
  exists r w' b' evs,
    timeOfArrayRead 1 3 4 2 2 (RefPlatform.world_of_len 10) = Ok r w' /\
    array w' = Some b' /\
    blk_len b' = blk_len (mkBlock 10 fresh_cells) /\
    pattern 1 3 (blk_cells b') /\
    iterate (blk_cells b') (Z.to_nat 3) 0 = 0 /\
    (forall x, ~ In x (footprint 1 3) -> blk_cells b' x = fresh_cells x) /\
    trace w' = trace (RefPlatform.world_of_len 10) ++ EvTimed 1 3 :: evs /\
    Forall (fun pos => In pos (footprint 1 3)) (accesses evs) /\
    clock w' = (clock (RefPlatform.world_of_len 10) + 2 * Z.to_nat 2)%nat.
Proof.
  apply (timed_reader_leaves_a_cycle 1 3 4 2 2 (RefPlatform.world_of_len 10)
           (mkBlock 10 fresh_cells)).
  - reflexivity.
  - unfold fits, U32.modulus. cbn [blk_len]. lia.
  - lia.
Defined.

(** ** Direct and reverse, composed *)

(** X16.  The reverse pattern is the direct pattern run backwards: on
    every position of the footprint, following the direct link and then the
    reverse link, or the reverse link and then the direct one, leads back
    to the position. *)
Theorem reverse_undoes_direct {P : Platform} (stride elems : Z) (w : world) (b : block) :
  array w = Some b ->
  fits (blk_len b) stride elems ->
  exists wd bd wr br,
    fillDirectIndexes stride elems w = Ok tt wd /\ array wd = Some bd /\
    fillReverseIndexes stride elems w = Ok tt wr /\ array wr = Some br /\
    forall x, In x (footprint stride elems) ->
      blk_cells br (blk_cells bd x) = x /\ blk_cells bd (blk_cells br x) = x.
Proof.
  intros Hb Hfits. pose proof Hfits as (Hs & He & _).
  destruct (direct_written_fits stride elems w b Hb Hfits)
    as (wd & bd & Hrund & Harrd & _ & Hd & Hdlast).
  destruct (reverse_written_fits stride elems w b Hb Hfits)
    as (wr & br & Hrunr & Harrr & _ & Hr & Hrfirst).
  exists wd, bd, wr, br. repeat (split; [assumption|]).
  intros x Hx. apply footprint_In in Hx. destruct Hx as (i & Hi & ->).
  split.
  - destruct (Z.eq_dec i (elems - 1)) as [->|Hne].
    + rewrite Hdlast. exact Hrfirst.
    + rewrite (Hd i) by lia. rewrite (Hr (i + 1)) by lia. f_equal. lia.
  - destruct (Z.eq_dec i 0) as [->|Hne].
    + cbn [Z.mul]. rewrite Hrfirst. exact Hdlast.
    + rewrite (Hr i) by lia.
      destruct (Z.eq_dec (i - 1) (elems - 1)) as [Heq|Hne']; [lia|].
      rewrite (Hd (i - 1)) by lia. f_equal. lia.
Qed.

Lemma reverse_undoes_direct_witness :
  exists wd bd wr br,
    fillDirectIndexes 2 5 (RefPlatform.world_of_len 10) = Ok tt wd /\ array wd = Some bd /\
    fillReverseIndexes 2 5 (RefPlatform.world_of_len 10) = Ok tt wr /\ array wr = Some br /\
    forall x, In x (footprint 2 5) ->
      blk_cells br (blk_cells bd x) = x /\ blk_cells bd (blk_cells br x) = x.
Proof.
  apply (reverse_undoes_direct 2 5 (RefPlatform.world_of_len 10) (mkBlock 10 fresh_cells)).
  - reflexivity.
  - unfold fits, U32.modulus. cbn [blk_len]. lia.
Defined.

(** ** The size of the sweep *)

Lemma strides_from_none (maxStride : Z) (fuel : nat) (stride : Z) :
  maxStride < stride * sizeof_uint32_t -> strides_from fuel stride maxStride = [].
Proof.
  intros H. destruct fuel as [|fuel]; [reflexivity|]. cbn [strides_from].
  now rewrite (proj2 (Z.leb_gt _ _)) by lia.
Qed.

Lemma strides_from_count (maxStride : Z) (fuel : nat) :
  forall stride,
    1 <= stride ->
    stride * sizeof_uint32_t <= maxStride ->
    Z.log2 (maxStride / (sizeof_uint32_t * stride)) < Z.of_nat fuel ->
    Z.of_nat (List.length (strides_from fuel stride maxStride)) =
    Z.log2 (maxStride / (sizeof_uint32_t * stride)) + 1.
Proof.
  unfold sizeof_uint32_t.
  induction fuel as [|fuel IH]; intros stride Hs Hle Hfuel.
  - pose proof (Z.log2_nonneg (maxStride / (4 * stride))). lia.
  - cbn [strides_from]. unfold sizeof_uint32_t.
    rewrite (proj2 (Z.leb_le _ _)) by lia. cbn [List.length].
    rewrite Nat2Z.inj_succ.
    assert (Hq : 1 <= maxStride / (4 * stride))
      by (apply Z.div_le_lower_bound; lia).
    assert (Hhalf : maxStride / (4 * (2 * stride)) = maxStride / (4 * stride) / 2).
    { rewrite Z.div_div by lia. f_equal. lia. }
    destruct (Z.le_gt_cases (2 * stride * 4) maxStride) as [Hmore|Hlast].
    + assert (Hq2 : 2 <= maxStride / (4 * stride))
        by (apply Z.div_le_lower_bound; lia).
      pose proof (Z.log2_le_mono 2 _ Hq2) as Hl. change (Z.log2 2) with 1 in Hl.
      assert (Hlog : Z.log2 (maxStride / (4 * (2 * stride))) =
                     Z.log2 (maxStride / (4 * stride)) - 1).
      { rewrite Hhalf, <- Z.div2_div, Z.div2_spec, Z.log2_shiftr by lia. lia. }
      unfold sizeof_uint32_t in IH.
      rewrite (IH (2 * stride)) by lia. lia.
    + rewrite strides_from_none by (unfold sizeof_uint32_t; lia). cbn [List.length].
      assert (Hone : maxStride / (4 * stride) = 1).
      { apply Z.le_antisymm; [|exact Hq].
        apply Z.lt_succ_r, Z.div_lt_upper_bound; lia. }
      rewrite Hone. reflexivity.
Qed.

Lemma column_cells_length (maxAssoc stride : Z) :
  List.length (column_cells maxAssoc stride) = Z.to_nat (maxAssoc - 1).
Proof. unfold column_cells. now rewrite length_map, length_seq. Qed.

Lemma sweep_cells_length (maxAssoc maxStride minStride : Z) :
  List.length (sweep_cells maxAssoc maxStride minStride) =
  (List.length (sweep_strides maxStride minStride) * Z.to_nat (maxAssoc - 1))%nat.
Proof.
  unfold sweep_cells. induction (sweep_strides maxStride minStride) as [|s l IH].
  - reflexivity.
  - cbn [flat_map List.length]. rewrite length_app, column_cells_length, IH. lia.
Qed.

(** X17.  The sweep has as many columns as there are doublings of the
    first stride that stay within [maxStride], one more than the binary
    logarithm of [maxStride / (4 * (minStride / 4))] rounded down, and none
    when the first stride is already too large.  It calls the timed reader
    [maxAssoc - 1] times per column and reads the clock
    [2 * BATCHES_COUNT] times per call. *)
Theorem sweep_effort {P : Platform} {L : PlatformLaws P}
    (maxAssoc maxStride minStride : Z) (w0 : world) (b0 : block) :
  array w0 = Some b0 ->
  blk_len b0 <= U32.modulus ->
  1 <= maxAssoc < U32.modulus ->
  0 <= maxStride < U32.modulus ->
  sizeof_uint32_t <= minStride ->
  (maxAssoc - 2) * (maxStride / sizeof_uint32_t) < blk_len b0 ->
  exists np g w' evs,
    sweep maxAssoc maxStride minStride w0 = Ok (Z.of_nat np, g) w' /\
    trace w' = trace w0 ++ evs /\
    (minStride / sizeof_uint32_t * sizeof_uint32_t <= maxStride ->
     Z.of_nat np =
     Z.log2 (maxStride / (sizeof_uint32_t * (minStride / sizeof_uint32_t))) + 1) /\
    (maxStride < minStride / sizeof_uint32_t * sizeof_uint32_t -> np = 0%nat) /\
    List.length (timed_calls evs) = (np * Z.to_nat (maxAssoc - 1))%nat /\
    clock w' =
    (clock w0 + 2 * Z.to_nat BATCHES_COUNT * (np * Z.to_nat (maxAssoc - 1)))%nat.
Proof.
  intros Hb0 Hlen Hassoc Hstride Hmin Hroom.
  destruct (sweep_run (blk_len b0) maxAssoc maxStride w0 Hlen Hassoc Hstride Hroom
              minStride b0 Hb0 eq_refl Hmin)
    as (g & w' & evs & Hrun & Hinv & Hcalls).
  pose proof (sweep_columns maxStride minStride Hstride Hmin) as [_ Hnp30].
  assert (Hs0 : 1 <= minStride / sizeof_uint32_t)
    by (unfold sizeof_uint32_t in *; apply Z.div_le_lower_bound; lia).
  exists (List.length (sweep_strides maxStride minStride)), g, w', evs.
  split; [exact Hrun|]. split; [exact (inv_trace _ _ _ _ _ _ _ _ Hinv)|].
  split; [|split; [|split]].
  - intros Hfirst. unfold sweep_strides. apply strides_from_count; try assumption.
    apply Z.log2_lt_pow2.
    + apply Z.lt_le_trans with 1; [lia|].
      apply Z.div_le_lower_bound; unfold sizeof_uint32_t in *; lia.
    + apply Z.le_lt_trans with maxStride.
      * apply Z.div_le_upper_bound; unfold sizeof_uint32_t in *; [lia|]. nia.
      * unfold U32.modulus in Hstride. cbn. lia.
  - intros Hnone. unfold sweep_strides. now rewrite strides_from_none.
  - rewrite Hcalls. apply sweep_cells_length.
  - rewrite (inv_clock _ _ _ _ _ _ _ _ Hinv). unfold call_of.
    replace (Z.to_nat maxAssoc - 1)%nat with (Z.to_nat (maxAssoc - 1)) by lia. lia.
Qed.

Lemma sweep_effort_witness :
  exists np g w' evs,
    sweep 3 8 4 (RefPlatform.world_of_len 16) = Ok (Z.of_nat np, g) w' /\
    trace w' = trace (RefPlatform.world_of_len 16) ++ evs /\
    (4 / sizeof_uint32_t * sizeof_uint32_t <= 8 ->
     Z.of_nat np = Z.log2 (8 / (sizeof_uint32_t * (4 / sizeof_uint32_t))) + 1) /\
    (8 < 4 / sizeof_uint32_t * sizeof_uint32_t -> np = 0%nat) /\
    List.length (timed_calls evs) = (np * Z.to_nat (3 - 1))%nat /\
    clock w' =
    (clock (RefPlatform.world_of_len 16)
     + 2 * Z.to_nat BATCHES_COUNT * (np * Z.to_nat (3 - 1)))%nat.
Proof.
  apply (sweep_effort 3 8 4 (RefPlatform.world_of_len 16) (mkBlock 16 fresh_cells)).
  - reflexivity.
  - unfold U32.modulus. cbn [blk_len]. lia.
  - unfold U32.modulus. lia.
  - unfold U32.modulus. lia.
  - unfold sizeof_uint32_t. lia.
  - cbn. lia.
Defined.

(** ** The run of [main], as a whole *)

(** X18.  When the start-up check passes and the sweep is defined, [main]
    returns 0, has written nothing to the error stream, and its output is
    the line of the pointer, the line of the length and the table.  It
    obtains the backing buffer with one [aligned_alloc], before anything
    else, and gives it back with one [free(array)], after everything else;
    in between the buffer is neither replaced nor released: every access
    to it lies between the two, and at the end the block is gone.  (The
    vectors of the sweep and of the generators are not part of this.) *)
Theorem main_allocates_and_releases_once {P : Platform} {L : PlatformLaws P}
    (maxMemory maxAssoc maxStride minStride : Z) :
  U32.mul maxAssoc maxStride <= maxMemory ->
  0 <= maxMemory < U32.modulus ->
  0 <= maxAssoc < 2 ^ 31 ->
  0 <= maxStride < U32.modulus ->
  sizeof_uint32_t <= minStride ->
  (maxAssoc - 1) * (maxStride / sizeof_uint32_t) < maxMemory / sizeof_uint32_t ->
  exists w' evs np g,
    main_with maxMemory maxAssoc maxStride minStride initial_world = Ok 0 w' /\
    array w' = None /\
    cerr w' = EmptyString /\
    cout w' =
    (("array: " ++ show_pointer ++ endl)
     ++ ("len: " ++ show_Z (maxMemory / sizeof_uint32_t) ++ endl)
     ++ table_text (maxAssoc + 1) minStride np g)%string /\
    np = List.length (sweep_strides maxStride minStride) /\
    trace w' = EvAlloc PAGE_SIZE maxMemory :: evs ++ [EvFree] /\
    Forall quiet evs.
Proof.
  intros Hcheck Hmem Hassoc Hstride Hmin Hroom.
  assert (Hlen : blk_len (mkBlock (maxMemory / sizeof_uint32_t) fresh_cells)
                 <= U32.modulus).
  { cbn [blk_len]. unfold sizeof_uint32_t, U32.modulus in *.
    apply Z.lt_le_incl, Z.div_lt_upper_bound; lia. }
  destruct (capacityAndAssociativity_run maxMemory (maxAssoc + 1) maxStride minStride
              (sweep_start maxMemory) (mkBlock (maxMemory / sizeof_uint32_t) fresh_cells)
              eq_refl Hlen ltac:(lia) Hstride Hmin)
    as (np & g & w1 & evs & Hsweep & Hinv & _ & Hrun).
  { cbn [blk_len]. replace (maxAssoc + 1 - 2) with (maxAssoc - 1) by lia. exact Hroom. }
  pose proof (keeps_sweep (maxAssoc + 1) maxStride minStride (sweep_start maxMemory))
    as Hquiet.
  rewrite Hsweep in Hquiet. destruct Hquiet as [_ _ _ _ _ (evs2 & Htr2 & Hq)].
  destruct Hinv as [_ Htr _ Hcout Hcerr _ _ _ _ _ _ _].
  assert (Hevs : evs2 = evs).
  { rewrite Htr in Htr2. now apply app_inv_head in Htr2. }
  subst evs2.
  assert (Hnp : np = List.length (sweep_strides maxStride minStride)).
  { destruct (sweep_run (maxMemory / sizeof_uint32_t) (maxAssoc + 1) maxStride
                (sweep_start maxMemory) Hlen ltac:(unfold U32.modulus; lia) Hstride
                ltac:(replace (maxAssoc + 1 - 2) with (maxAssoc - 1) by lia; exact Hroom)
                minStride (mkBlock (maxMemory / sizeof_uint32_t) fresh_cells)
                eq_refl eq_refl Hmin) as (g2 & w2 & evs3 & Hsweep2 & _).
    rewrite Hsweep in Hsweep2. injection Hsweep2 as Hnp _ _.
    now apply Nat2Z.inj in Hnp. }
  exists (mkWorld None (arrayLen w1) (gen w1) (clock w1)
                  (cout w1 ++ table_text (maxAssoc + 1) minStride np g) (cerr w1)
                  (trace w1 ++ [EvFree])), evs, np, g.
  split; [|split; [|split; [|split; [|split; [|split]]]]].
  - rewrite (main_check_passes maxMemory maxAssoc maxStride minStride Hcheck).
    change (main_measure maxMemory maxAssoc maxStride minStride (allocated maxMemory))
      with ((capacityAndAssociativity maxMemory (U32.add maxAssoc 1) maxStride minStride ;;;
             free_array ;;; ret 0) (sweep_start maxMemory)).
    replace (U32.add maxAssoc 1) with (maxAssoc + 1)
      by (unfold U32.add; rewrite u32_wrap_small; unfold U32.modulus; lia).
    erewrite bind_ok by exact Hrun. reflexivity.
  - reflexivity.
  - cbn [cerr]. rewrite Hcerr. reflexivity.
  - cbn [cout]. rewrite Hcout. cbn [sweep_start printed cout].
    change (EmptyString ++ ?s)%string with s.
    now rewrite string_app_assoc.
  - exact Hnp.
  - cbn [trace]. rewrite Htr. reflexivity.
  - exact Hq.
Qed.

Lemma main_allocates_and_releases_once_witness :
  exists w' evs np g,
    main (initial_world (P := RefPlatform.ref)) = Ok 0 w' /\
    array w' = None /\
    cerr w' = EmptyString /\
    cout w' =
    (("array: " ++ show_pointer ++ endl)
     ++ ("len: " ++ show_Z (2 ^ 30 / sizeof_uint32_t) ++ endl)
     ++ table_text (32 + 1) 16 np g)%string /\
    np = List.length (sweep_strides (2 ^ 25) 16) /\
    trace w' = EvAlloc PAGE_SIZE (2 ^ 30) :: evs ++ [EvFree] /\
    Forall quiet evs.
Proof.
  apply (main_allocates_and_releases_once (P := RefPlatform.ref) (2 ^ 30) 32 (2 ^ 25) 16).
  - discriminate.
  - unfold U32.modulus. lia.
  - lia.
  - unfold U32.modulus. lia.
  - unfold sizeof_uint32_t. lia.
  - unfold sizeof_uint32_t. reflexivity.
Defined.

(** ** The stores of a generator *)

Lemma links_snd (q : list Z) :
  map snd (links q) = match q with [] => [] | h :: t => t ++ [h] end.
Proof.
  unfold links. rewrite map_map. cbn [snd].
  destruct q as [|h t]; [reflexivity|].
  cbn [List.length]. rewrite seq_S, map_app. cbn [Nat.add map].
  rewrite Nat.Div0.mod_same. cbn [nth]. f_equal.
  rewrite <- (map_nth_seq t) at 2.
  apply map_ext_in. intros i Hi. apply in_seq in Hi.
  rewrite Nat.mod_small by lia. reflexivity.
Qed.

Lemma links_snd_perm (q : list Z) : Permutation (map snd (links q)) q.
Proof.
  rewrite links_snd. destruct q as [|h t]; [constructor|].
  apply Permutation_sym, Permutation_cons_append.
Qed.

Section StoresOnce.

Context {P : Platform}.

Variables (stride elems : Z) (w : world) (b : block).
Hypothesis Hb : array w = Some b.
Hypothesis Hfits : fits (blk_len b) stride elems.

Lemma stores_once_links (fill : M unit) (q : list Z) (w0 : world) (pre : list event) :
  array w0 = Some b ->
  trace w0 = trace w ++ pre ->
  accesses pre = [] ->
  Permutation (footprint stride elems) q ->
  fill w = Ok tt (with_writes (links q) w0) ->
  stores_each_position_once fill stride elems w.
Proof.
  intros Hb0 Hpre Hacc Hq Hrun.
  pose proof Hfits as (Hs & He & _).
  assert (Hnd : NoDup q)
    by (apply (Permutation_NoDup Hq), footprint_NoDup; exact Hs).
  assert (Hlen : List.length q = Z.to_nat elems)
    by (rewrite <- (Permutation_length Hq); apply footprint_length).
  pose proof (ring_links q (blk_cells b) Hnd) as Hring.
  exists (with_writes (links q) w0),
         (mkBlock (blk_len b) (apply_writes (links q) (blk_cells b))), pre, (links q).
  split; [exact Hrun|].
  split; [exact (with_writes_array (links q) w0 b Hb0)|].
  split; [cbn [with_writes trace]; now rewrite Hpre, <- app_assoc|].
  split; [exact Hacc|].
  split; [now rewrite links_length|].
  split; [rewrite links_fst; now apply Permutation_sym|].
  split; [apply (Permutation_trans (links_snd_perm q)); now apply Permutation_sym|].
  split.
  - intros [pos val] Hin. cbn [fst snd blk_cells].
    apply apply_writes_in; [now rewrite links_fst | exact Hin].
  - intros Hmany x Hx. cbn [blk_cells].
    apply (Permutation_in _ Hq) in Hx.
    destruct (In_nth _ _ 0 Hx) as (k & Hk & <-).
    apply (ring_iterate_away q _ k 1 Hring Hnd Hk). lia.
Qed.

End StoresOnce.

(** X19.  When the footprint fits the buffer, each of the three
    generators makes exactly [elems] stores, one at every position of the
    footprint; the values stored are the positions of the footprint again,
    each once; no store is overwritten, so that every cell of the
    footprint ends with the value stored there; and with two elements or
    more no position points to itself. *)
Theorem generators_store_each_position_once {P : Platform} {L : PlatformLaws P}
    (stride elems seed : Z) (w : world) (b : block) :
  array w = Some b ->
  fits (blk_len b) stride elems ->
  stores_each_position_once (fillDirectIndexes stride elems) stride elems w /\
  stores_each_position_once (fillReverseIndexes stride elems) stride elems w /\
  stores_each_position_once (fillShuffledIndexes stride elems seed) stride elems w.
Proof.
  intros Hb Hfits. split; [|split].
  - apply (stores_once_links stride elems w b Hfits _ (footprint stride elems) w []).
    + exact Hb.
    + now rewrite app_nil_r.
    + reflexivity.
    + apply Permutation_refl.
    + exact (fillDirectIndexes_run (blk_len b) stride elems Hfits w b Hb eq_refl).
  - apply (stores_once_links stride elems w b Hfits _ (rev (footprint stride elems)) w []).
    + exact Hb.
    + now rewrite app_nil_r.
    + reflexivity.
    + apply Permutation_rev.
    + exact (fillReverseIndexes_run (blk_len b) stride elems Hfits w b Hb eq_refl).
  - apply (stores_once_links stride elems w b Hfits _
             (map (fun x => x * stride) (drawn elems w))
             (after_shuffle elems w) [EvShuffle (drawn elems w)]).
    + exact Hb.
    + reflexivity.
    + reflexivity.
    + exact (drawn_perm stride elems w).
    + exact (fillShuffledIndexes_run (blk_len b) stride elems Hfits seed w b Hb eq_refl).
Qed.

Lemma generators_store_each_position_once_witness :
  stores_each_position_once (fillDirectIndexes 2 5) 2 5 (RefPlatform.world_of_len 10) /\
  stores_each_position_once (fillReverseIndexes 2 5) 2 5 (RefPlatform.world_of_len 10) /\
  stores_each_position_once (fillShuffledIndexes 2 5 42) 2 5 (RefPlatform.world_of_len 10).
Proof.
  apply (generators_store_each_position_once 2 5 42 (RefPlatform.world_of_len 10)
           (mkBlock 10 fresh_cells)).
  - reflexivity.
  - unfold fits, U32.modulus. cbn [blk_len]. lia.
Defined.

(** ** The mean that the timed reader returns *)

Lemma Zsum_bounds (lo hi : Z) (l : list Z) :
  Forall (fun d => lo <= d <= hi) l ->
  lo * Z.of_nat (List.length l) <= Zsum l <= hi * Z.of_nat (List.length l).
Proof.
  induction 1 as [|d l Hd _ IH]; [cbn; lia|].
  cbn [List.length Zsum fold_right]. fold (Zsum l).
  rewrite Nat2Z.inj_succ. lia.
Qed.

Lemma pair_diffs_nonneg {P : Platform} {L : PlatformLaws P} (k : nat) :
  forall clk : nat,
    Forall (fun d => 0 <= d)
           (pair_diffs (map (fun i => steady_now (clk + i)) (seq 0 (2 * k)))).
Proof.
  induction k as [|k IH]; intros clk; [constructor|].
  replace (2 * S k)%nat with (S (S (2 * k))) by lia.
  rewrite map_seq_succ, map_seq_succ. cbn [pair_diffs]. constructor.
  - rewrite Nat.add_0_r. replace (clk + 1)%nat with (S clk) by lia.
    pose proof (steady_mono clk). lia.
  - rewrite (map_ext _ (fun i => steady_now (S (S clk) + i)))
      by (intros i; f_equal; lia).
    apply IH.
Qed.

(** X20.  The result of [timeOfArrayRead] is the mean of its timed
    intervals rounded down: [r * batchesCount] is at most their sum and
    [(r + 1) * batchesCount] is more.  With a steady clock every interval
    is non-negative, and so is the result; and the result lies between the
    shortest and the longest of the intervals. *)
Theorem timed_reader_mean_in_range {P : Platform} {L : PlatformLaws P}
    (stride elems reads warm batches : Z) (w : world) (b : block) :
  array w = Some b ->
  fits (blk_len b) stride elems ->
  1 <= batches ->
  exists r w' evs,
    timeOfArrayRead stride elems reads warm batches w = Ok r w' /\
    trace w' = trace w ++ evs /\
    List.length (timed_intervals evs) = Z.to_nat batches /\
    Forall (fun d => 0 <= d) (timed_intervals evs) /\
    0 <= r /\
    r * batches <= Zsum (timed_intervals evs) < (r + 1) * batches /\
    (forall lo hi, Forall (fun d => lo <= d <= hi) (timed_intervals evs) ->
                   lo <= r <= hi).
Proof.
  intros Hb Hfits Hbatches.
  destruct (timeOfArrayRead_trace stride elems reads warm batches w b Hb Hfits Hbatches)
    as (w' & Hrun & Htrace & _).
  set (evs := EvTimed stride elems
              :: batches_events stride elems reads warm (Z.to_nat batches)
                   (gen w) (cells w) (clock w)) in *.
  assert (Hints : timed_intervals evs =
                  pair_diffs (map (fun i => steady_now (clock w + i))
                                  (seq 0 (2 * Z.to_nat batches)))).
  { unfold timed_intervals, evs.
    change (nows_of (EvTimed stride elems
              :: batches_events stride elems reads warm (Z.to_nat batches)
                   (gen w) (cells w) (clock w)))
      with (nows_of (batches_events stride elems reads warm (Z.to_nat batches)
                       (gen w) (cells w) (clock w))).
    now rewrite nows_of_batches. }
  destruct (pair_diffs_readings (Z.to_nat batches) (clock w)) as [Hsum Hlen].
  pose proof (pair_diffs_nonneg (Z.to_nat batches) (clock w)) as Hnn.
  rewrite <- Hints in Hsum, Hlen, Hnn.
  assert (Hpos : 0 <= Zsum (timed_intervals evs)).
  { clear - Hnn. induction Hnn as [|d l Hd _ IH]; [cbn; lia|].
    cbn [Zsum fold_right]. fold (Zsum l). lia. }
  assert (Hq : Z.quot (intervals (Z.to_nat batches) (clock w)) batches =
               Zsum (timed_intervals evs) / batches).
  { rewrite <- Hsum. apply Z.quot_div_nonneg; lia. }
  exists (Zsum (timed_intervals evs) / batches), w', evs.
  split; [rewrite <- Hq; exact Hrun|].
  split; [exact Htrace|]. split; [exact Hlen|]. split; [exact Hnn|].
  pose proof (Z.div_mod (Zsum (timed_intervals evs)) batches ltac:(lia)) as Hdm.
  pose proof (Z.mod_pos_bound (Zsum (timed_intervals evs)) batches ltac:(lia)) as Hm.
  split; [apply Z.div_pos; lia|]. split; [nia|].
  intros lo hi Hrange.
  pose proof (Zsum_bounds lo hi _ Hrange) as Hs.
  rewrite Hlen, Z2Nat.id in Hs by lia.
  split.
  - apply Z.div_le_lower_bound; lia.
  - apply Z.div_le_upper_bound; lia.
Qed.

Lemma timed_reader_mean_in_range_witness :
  exists r w' evs,
    timeOfArrayRead 1 3 4 2 2 (RefPlatform.world_of_len 10) = Ok r w' /\
    trace w' = trace (RefPlatform.world_of_len 10) ++ evs /\
    List.length (timed_intervals evs) = Z.to_nat 2 /\
    Forall (fun d => 0 <= d) (timed_intervals evs) /\
    0 <= r /\
    r * 2 <= Zsum (timed_intervals evs) < (r + 1) * 2 /\
    (forall lo hi, Forall (fun d => lo <= d <= hi) (timed_intervals evs) ->
                   lo <= r <= hi).
Proof.
  apply (timed_reader_mean_in_range 1 3 4 2 2 (RefPlatform.world_of_len 10)
           (mkBlock 10 fresh_cells)).
  - reflexivity.
  - unfold fits, U32.modulus. cbn [blk_len]. lia.
  - lia.
Defined.

(** ** The layout of the table *)

(** The number of characters of a decimal numeral. *)
Lemma string_of_uint_length (d : Decimal.uint) :
  String.length (NilEmpty.string_of_uint d) = Decimal.nb_digits d.
Proof. induction d; cbn; congruence. Qed.

Lemma usize_nb_digits (d : Decimal.uint) :
  DecimalPos.Unsigned.usize d = N.of_nat (Decimal.nb_digits d).
Proof. induction d; cbn [DecimalPos.Unsigned.usize Decimal.nb_digits]; lia. Qed.

Lemma nzhead_digit (d : Decimal.uint) :
  match Decimal.nzhead d with Decimal.D0 _ => False | _ => True end.
Proof. induction d; cbn; auto. Qed.

(** A positive number of [n] digits is at least [10^(n-1)]. *)
Lemma to_uint_value (p : positive) :
  (10 ^ N.of_nat (Decimal.nb_digits (Pos.to_uint p) - 1) <= N.pos p)%N.
Proof.
  pose proof (DecimalPos.Unsigned.of_to p) as Hof.
  pose proof (DecimalPos.Unsigned.to_of (Pos.to_uint p)) as Hnorm.
  rewrite Hof in Hnorm. cbn [N.to_uint] in Hnorm.
  pose proof (DecimalPos.Unsigned.to_uint_nonzero p) as Hnz.
  pose proof (nzhead_digit (Pos.to_uint p)) as Hhead.
  assert (Hunorm : Decimal.nzhead (Pos.to_uint p) = Pos.to_uint p).
  { unfold Decimal.unorm in Hnorm.
    destruct (Decimal.nzhead (Pos.to_uint p)) eqn:E;
      [exfalso; apply Hnz; exact Hnorm | symmetry; exact Hnorm ..]. }
  rewrite Hunorm in Hhead.
  rewrite <- Hof.
  destruct (Pos.to_uint p) as [|d|d|d|d|d|d|d|d|d|d] eqn:E;
    try contradiction; try (cbn [Decimal.nb_digits Nat.sub N.of_nat]; cbn; lia);
    cbn [Pos.of_uint Decimal.nb_digits];
    rewrite DecimalPos.Unsigned.of_uint_acc_rev, usize_nb_digits;
    replace (S (Decimal.nb_digits d) - 1)%nat with (Decimal.nb_digits d) by lia;
    assert (0 < 10 ^ N.of_nat (Decimal.nb_digits d))%N
      by (apply N.neq_0_lt_0, N.pow_nonzero; discriminate);
    nia.
Qed.

Lemma show_Z_length (z : Z) (k : nat) :
  (1 <= k)%nat -> 0 <= z < 10 ^ Z.of_nat k -> (String.length (show_Z z) <= k)%nat.
Proof.
  intros Hk [Hlo Hhi]. unfold show_Z, NilZero.string_of_int.
  destruct z as [|p|p]; [cbn; lia| |lia].
  cbn [Z.to_int]. unfold NilZero.string_of_uint.
  pose proof (DecimalPos.Unsigned.to_uint_nonnil p) as Hnn.
  destruct (Pos.to_uint p) eqn:E; try contradiction;
    rewrite <- E, string_of_uint_length;
    pose proof (to_uint_value p) as Hval;
    apply Nat.nlt_ge; intros Hlt;
    (assert (Hpow : (10 ^ N.of_nat k <= 10 ^ N.of_nat (Decimal.nb_digits (Pos.to_uint p) - 1))%N)
       by (apply N.pow_le_mono_r; lia));
    (assert (HZ : Z.of_N (10 ^ N.of_nat k) = 10 ^ Z.of_nat k)
       by (rewrite N2Z.inj_pow, nat_N_Z; reflexivity));
    lia.
Qed.

Lemma string_length_app (a b : string) :
  String.length (a ++ b) = (String.length a + String.length b)%nat.
Proof. induction a as [|ch a IH]; cbn; [reflexivity | now rewrite IH]. Qed.

Lemma setw_length (n : nat) (s : string) :
  String.length (setw n s) = Nat.max n (String.length s).
Proof.
  unfold setw. rewrite string_length_app.
  assert (H : forall k, String.length (string_of_list_ascii (repeat " "%char k)) = k)
    by (induction k as [|k IH]; cbn; [reflexivity | now rewrite IH]).
  rewrite H. lia.
Qed.

Lemma setw_fits (n : nat) (s : string) :
  (String.length s <= n)%nat -> String.length (setw n s) = n.
Proof. intros H. rewrite setw_length. lia. Qed.

Lemma cat_length (n : nat) (l : list string) :
  (forall s, In s l -> String.length s = n) ->
  String.length (cat l) = (n * List.length l)%nat.
Proof.
  induction l as [|s l IH]; intros H; cbn [cat List.length]; [cbn; lia|].
  rewrite string_length_app, (H s) by (now left).
  rewrite IH by (intros s' Hs'; apply H; now right). lia.
Qed.

Lemma bytesToString_length (bytes : Z) :
  0 <= bytes < U32.modulus -> (String.length (bytesToString bytes) <= 6)%nat.
Proof.
  intros [Hlo Hhi]. unfold U32.modulus in Hhi.
  destruct (bytesToString_cases bytes Hlo) as [[Hb E]|[[Hb E]|[Hb E]]];
    rewrite E, string_length_app; cbn [String.length].
  - pose proof (show_Z_length bytes 4 ltac:(lia) ltac:(cbn; lia)). lia.
  - assert (0 <= bytes / 2 ^ 10 < 10 ^ Z.of_nat 4).
    { split; [apply Z.div_pos; lia|]. apply Z.div_lt_upper_bound; cbn; lia. }
    pose proof (show_Z_length (bytes / 2 ^ 10) 4 ltac:(lia) ltac:(assumption)). lia.
  - assert (0 <= bytes / 2 ^ 20 < 10 ^ Z.of_nat 4).
    { split; [apply Z.div_pos; lia|]. apply Z.div_lt_upper_bound; cbn; lia. }
    pose proof (show_Z_length (bytes / 2 ^ 20) 4 ltac:(lia) ltac:(assumption)). lia.
Qed.

Lemma table_rows_range (maxAssoc s : Z) :
  1 <= maxAssoc <= 2 ^ 31 -> In s (table_rows maxAssoc) -> 1 <= s < maxAssoc.
Proof.
  intros Hm Hs. rewrite (table_rows_powers maxAssoc Hm) in Hs.
  unfold powers_of_two in Hs. apply in_map_iff in Hs. destruct Hs as (k & <- & Hk).
  apply in_seq in Hk. pose proof (Z.log2_up_nonneg maxAssoc) as Hnn.
  split; [pose proof (Z.pow_pos_nonneg 2 (Z.of_nat k)); lia|].
  apply Z.nle_gt. intros Hle. apply Z.log2_up_le_pow2 in Hle; lia.
Qed.

(** X21.  The table is aligned.  When no cell is marked and every
    duration of the grid is at least 0 and below 10^14 nanoseconds,
    [print_table] prints a header and rows that all have the same length:
    [width = 10] characters for the label and for each of the columns,
    and the end of line.  No label of [bytesToString], no number of
    elements and no scaled duration is wider than its column. *)
Theorem table_is_aligned {P : Platform}
    (g : grids) (maxAssoc minStride : Z) (np : nat) (w : world) :
  1 <= maxAssoc <= 2 ^ 31 ->
  (np <= 32)%nat ->
  (forall r c, (r < Z.to_nat maxAssoc)%nat -> (c < np)%nat ->
     exists t, grid_get (times g) r c = Some t /\ 0 <= t < 10 ^ 14) ->
  (forall r c, (r < Z.to_nat maxAssoc)%nat -> (c < np)%nat ->
     grid_get (jumps g) r c = Some false) ->
  exists w',
    print_table maxAssoc minStride (Z.of_nat np) g w = Ok tt w' /\
    cout w' =
    (cout w ++ header_text minStride np
     ++ cat (map (row_text g np) (table_rows maxAssoc)))%string /\
    String.length (header_text minStride np) =
    (width * (np + 1) + 1)%nat /\
    (forall s, In s (table_rows maxAssoc) ->
       String.length (row_text g np s) = (width * (np + 1) + 1)%nat).
Proof.
  intros Hassoc Hnp Htimes Hjumps.
  exists (printed (table_text maxAssoc minStride np g) w).
  split; [|split; [reflexivity|split]].
  - apply print_table_run; try assumption.
    intros r c Hr Hc. destruct (Htimes r c Hr Hc) as (t & Ht & _). now exists t.
  - unfold header_text. rewrite !string_length_app.
    rewrite (cat_length width).
    + rewrite length_map, length_seq, setw_fits by (unfold width; cbn; lia).
      cbn [endl String.length]. lia.
    + intros s Hs. apply in_map_iff in Hs. destruct Hs as (p & <- & _).
      apply setw_fits.
      pose proof (bytesToString_length (U32.mul (U32.shl 1 (Z.of_nat p)) minStride)
                    ltac:(apply Z.mod_pos_bound; reflexivity)).
      unfold width. lia.
  - intros s Hs. pose proof (table_rows_range maxAssoc s Hassoc Hs) as Hrange.
    unfold row_text. rewrite !string_length_app.
    rewrite (cat_length width).
    + rewrite length_map, length_seq, setw_fits; [cbn [endl String.length]; lia|].
      apply (show_Z_length s 10); [lia|]. cbn. lia.
    + intros cell Hcell. apply in_map_iff in Hcell. destruct Hcell as (c & <- & Hc).
      apply in_seq in Hc. unfold plain_cell.
      destruct (Htimes (Z.to_nat s) c ltac:(lia) ltac:(lia)) as (t & -> & Ht).
      apply setw_fits. apply (show_Z_length _ 10); [lia|].
      unfold timeFactor. split; [apply Z.quot_pos; lia|].
      apply Z.quot_lt_upper_bound; cbn; lia.
Qed.

Lemma table_is_aligned_witness :
  exists w',
    print_table 3 4 (Z.of_nat 2) small_grids (RefPlatform.world_of_len 4) = Ok tt w' /\
    cout w' =
    (cout (RefPlatform.world_of_len 4) ++ header_text 4 2
     ++ cat (map (row_text small_grids 2) (table_rows 3)))%string /\
    String.length (header_text 4 2) = (width * (2 + 1) + 1)%nat /\
    (forall s, In s (table_rows 3) ->
       String.length (row_text small_grids 2 s) = (width * (2 + 1) + 1)%nat).
Proof.
  apply (table_is_aligned small_grids 3 4 2 (RefPlatform.world_of_len 4)).
  - lia.
  - lia.
  - intros r c Hr Hc.
    destruct r as [|[|[|r]]]; [| | |cbn in Hr; lia];
      (destruct c as [|[|c]]; [| |lia]); eexists; (split; [reflexivity|lia]).
  - intros r c Hr Hc.
    destruct r as [|[|[|r]]]; [| | |cbn in Hr; lia];
      (destruct c as [|[|c]]; [| |lia]); reflexivity.
Defined.

Example small_table :
  option_map cout
    (final_world (print_table 3 4 2 small_grids (RefPlatform.world_of_len 4))) =
  Some ("       s/e        4B        8B" ++ endl ++
        "         1        12        34" ++ endl ++
        "         2        56        78" ++ endl)%string.
Proof. reflexivity. Qed.

(** ** The smallest stride of the sweep

    [capacityAndAssociativity] starts from [minStride / sizeof(uint32_t)]
    elements and doubles.  Below four bytes that start is 0, and twice 0
    is 0. *)

Section StrideZero.

Context {P : Platform}.

Variables maxAssoc maxStride : Z.
Hypothesis Hstride : 0 <= maxStride.

(** From the stride 0 the outer loop of the sweep does not leave: the
    stride stays 0 and passes the test of the loop every time. *)
Lemma column_rounds_from_zero (n : nat) :
  forall (stridePow : Z) (g : grids) (w : world),
    match rounds_nat n (column_round maxAssoc maxStride) (0, stridePow, g) w with
    | Ok (inr _) _ => False
    | _ => True
    end.
Proof.
  induction n as [|n IH]; intros stridePow g w; [exact I|].
  cbn [rounds_nat]. unfold bind at 1. unfold column_round at 1.
  rewrite (proj2 (Z.leb_le (0 * sizeof_uint32_t) maxStride)) by (cbn; lia).
  unfold bind at 1.
  destruct (sweep_column maxAssoc 0 stridePow g w) as [g' w'| | |]; try exact I.
  cbn [ret]. change (U32.mul 0 2) with 0. apply IH.
Qed.

End StrideZero.

(** A loop whose rounds never reach the exit does not return. *)
Lemma while_loop_never {P : Platform} {S R} (body : S -> M (S + R)) (s : S) (w : world) :
  (forall n, match rounds_nat n body s w with
             | Ok (inr _) _ => False
             | _ => True
             end) ->
  forall r w', while_loop body s w <> Ok r w'.
Proof.
  intros H r w'.
  unfold while_loop, bind. rewrite rounds_eq.
  generalize (Pos.to_nat loop_bound). intros n.
  specialize (H n).
  destruct (rounds_nat n body s w) as [[s1|res] w1|status w1| |];
    [discriminate | contradiction | discriminate ..].
Qed.

Lemma sweep_stride_zero {P : Platform} (maxAssoc maxStride minStride : Z) (w : world) :
  0 <= minStride < sizeof_uint32_t ->
  0 <= maxStride ->
  forall r w', sweep maxAssoc maxStride minStride w <> Ok r w'.
Proof.
  intros Hmin Hstride. unfold sweep.
  replace (U32.div minStride sizeof_uint32_t) with 0
    by (symmetry; apply Z.div_small; exact Hmin).
  apply while_loop_never. intros n.
  apply (column_rounds_from_zero maxAssoc maxStride Hstride).
Qed.

(** X22.  The sweep needs a smallest stride of at least one element.  With
    [minStride] below [sizeof(uint32_t) = 4] bytes the first stride is 0
    elements, doubling leaves it 0, and [0 * 4 <= maxStride] holds every
    time: the measuring loop of [capacityAndAssociativity] never ends
    through its condition, whatever the other arguments and the state are.
    The measuring part does not return, and so neither does the function:
    no table is reached. *)
Theorem sweep_needs_min_stride {P : Platform}
    (maxMemory maxAssoc maxStride minStride : Z) (w : world) :
  0 <= minStride < sizeof_uint32_t ->
  0 <= maxStride ->
  (forall r w', sweep maxAssoc maxStride minStride w <> Ok r w') /\
  (forall w',
      capacityAndAssociativity maxMemory maxAssoc maxStride minStride w <> Ok tt w').
Proof.
  intros Hmin Hstride.
  pose proof (sweep_stride_zero maxAssoc maxStride minStride w Hmin Hstride) as Hsweep.
  split; [exact Hsweep|].
  intros w'. unfold capacityAndAssociativity, bind.
  revert Hsweep.
  generalize (sweep maxAssoc maxStride minStride w). intros o Hsweep.
  destruct o as [r w1| | |]; try discriminate.
  exfalso. exact (Hsweep r w1 eq_refl).
Qed.

Lemma sweep_needs_min_stride_witness :
  (forall r w', sweep 3 8 2 (RefPlatform.world_of_len 16) <> Ok r w') /\
  (forall w',
      capacityAndAssociativity 64 3 8 2 (RefPlatform.world_of_len 16) <> Ok tt w').
Proof.
  apply (sweep_needs_min_stride 64 3 8 2 (RefPlatform.world_of_len 16)).
  - unfold sizeof_uint32_t. lia.
  - lia.
Defined.

(** ** Where the shuffled generator is defined *)

Section Definedness.

Context {P : Platform} {L : PlatformLaws P}.

Variables stride elems : Z.
Hypothesis Helems : 1 <= elems < U32.modulus.

Variable p : list Z.
Hypothesis Hp : Permutation (iota elems) p.

(** A round of the link loop stores at the position of its slot, computed
    in [uint32_t], whatever the footprint is. *)
Lemma link_round_store (t : nat) (w : world) :
  (t < Z.to_nat elems)%nat ->
  exists val,
    link_round stride elems p (Z.of_nat t) tt w =
    array_store (U32.mul (nth t p 0) stride) val w.
Proof.
  intros Ht.
  assert (Hlen : List.length p = Z.to_nat elems).
  { rewrite <- (Permutation_length Hp). apply iota_length. }
  unfold link_round, U32.sub. rewrite (u32_wrap_small (elems - 1)) by lia.
  rewrite (vec_at_run p t 0) by (rewrite Hlen; exact Ht).
  destruct (Z.eqb_spec (Z.of_nat t) (elems - 1)) as [Hlast|Hmore].
  - change (vec_at p 0) with (vec_at p (Z.of_nat 0)).
    rewrite (vec_at_run p 0 0) by (rewrite Hlen; lia).
    eexists. reflexivity.
  - replace (U32.add (Z.of_nat t) 1) with (Z.of_nat (S t))
      by (unfold U32.add; rewrite u32_wrap_small; lia).
    rewrite (vec_at_run p (S t) 0) by (rewrite Hlen; lia).
    eexists. reflexivity.
Qed.

(** When a slot whose position is outside the block is still to come,
    the link loop does not get through. *)
Lemma link_rounds_out (l : list nat) :
  forall (w : world) (b : block),
    array w = Some b ->
    (forall t, In t l -> (t < Z.to_nat elems)%nat) ->
    (exists t, In t l /\ blk_len b <= U32.mul (nth t p 0) stride) ->
    for_each (map Z.of_nat l) (link_round stride elems p) tt w = Undefined.
Proof.
  induction l as [|t l IH]; intros w b Hb Hl (t0 & Ht0 & Hout).
  - destruct Ht0.
  - cbn [map for_each]. unfold bind.
    destruct (link_round_store t w ltac:(apply Hl; now left)) as [val ->].
    destruct (Z.lt_ge_cases (U32.mul (nth t p 0) stride) (blk_len b)) as [Hin|Hge].
    + assert (Hpos : 0 <= U32.mul (nth t p 0) stride)
        by (apply Z.mod_pos_bound; reflexivity).
      rewrite (array_store_run w b) by (try exact Hb; lia).
      destruct Ht0 as [->|Ht0]; [lia|].
      eapply IH.
      * eapply with_writes_array. exact Hb.
      * intros t' Ht'. apply Hl. now right.
      * exists t0. split; [exact Ht0 | exact Hout].
    + now rewrite (array_store_out w b) by (try exact Hb; lia).
Qed.

End Definedness.

(** X23.  In a block of at most [2^31] cells, as every block that
    [aligned_alloc(PAGE_SIZE, maxMemory)] returns for a [uint32_t] count of
    bytes is, [fillShuffledIndexes(stride, elems)] with [stride >= 1] and
    [elems >= 1] is defined exactly when the footprint fits: then it
    returns, having linked the order it drew; otherwise, also where the
    positions wrap around in [uint32_t], one of its stores is outside the
    block, at the latest the one of the slot whose position is the first
    at or beyond the end of the block. *)
Theorem shuffled_defined_when_fits {P : Platform} {L : PlatformLaws P}
    (stride elems seed : Z) (w : world) (b : block) :
  array w = Some b ->
  blk_len b <= 2 ^ 31 ->
  1 <= stride < U32.modulus ->
  1 <= elems < U32.modulus ->
  (fits (blk_len b) stride elems ->
   fillShuffledIndexes stride elems seed w =
   Ok tt (with_writes (links (map (fun x => x * stride) (drawn elems w)))
                      (after_shuffle elems w))) /\
  (~ fits (blk_len b) stride elems ->
   fillShuffledIndexes stride elems seed w = Undefined).
Proof.
  intros Hb Hlen Hs He. split.
  - intros Hfits.
    exact (fillShuffledIndexes_run (blk_len b) stride elems Hfits seed w b Hb eq_refl).
  - intros Hnot.
    assert (Hout : blk_len b <= (elems - 1) * stride).
    { apply Z.nlt_ge. intros Hlt. apply Hnot. unfold fits, U32.modulus. lia. }
    (* the first slot whose position is at or beyond the end of the block *)
    set (a := if blk_len b <=? 0 then 0 else (blk_len b + stride - 1) / stride).
    assert (Ha : 0 <= a <= elems - 1 /\ blk_len b <= a * stride < U32.modulus).
    { unfold a, U32.modulus in *.
      destruct (Z.leb_spec (blk_len b) 0) as [Hle|Hgt]; [lia|].
      pose proof (Z.div_mod (blk_len b + stride - 1) stride ltac:(lia)) as Hdm.
      pose proof (Z.mod_pos_bound (blk_len b + stride - 1) stride ltac:(lia)) as Hmod.
      set (q := (blk_len b + stride - 1) / stride) in *.
      assert (1 <= q) by (apply Z.div_le_lower_bound; lia).
      assert (Hq : blk_len b <= q * stride < blk_len b + stride) by nia.
      split; [split; [lia|]|].
      - assert (q * stride < elems * stride) by nia. nia.
      - split; [lia|].
        destruct (Z.le_gt_cases (blk_len b) stride) as [Hbig|Hsmall].
        + assert (q = 1) by nia. lia.
        + lia. }
    destruct Ha as [Harange Hapos].
    unfold fillShuffledIndexes.
    erewrite bind_ok by apply init_indexes.
    erewrite bind_ok by apply std_shuffle_run.
    unfold for_upto, iota.
    pose proof (shuffle_perm (gen w) (iota elems)) as Hp. fold (drawn elems w) in Hp.
    apply (link_rounds_out stride elems He (drawn elems w) Hp _ _ b).
    + exact Hb.
    + intros t Ht. apply in_seq in Ht. lia.
    + assert (Hin : In a (drawn elems w)).
      { apply (Permutation_in _ Hp). apply iota_In. lia. }
      destruct (In_nth _ _ 0 Hin) as (t & Ht & Hnth).
      rewrite <- (Permutation_length Hp), iota_length in Ht.
      exists t. split; [apply in_seq; lia|]. rewrite Hnth.
      unfold U32.mul. rewrite u32_wrap_small by lia. lia.
Qed.

(** In a block of [2^28] cells: five slots at the stride 2 fit; of three
    slots at the stride [2^31] the positions are 0, [2^31] and, wrapped, 0
    again. *)
Lemma shuffled_defined_when_fits_witness :
  fillShuffledIndexes 2 5 42 (RefPlatform.world_of_len (2 ^ 28)) =
  Ok tt (with_writes (links (map (fun x => x * 2)
                                 (drawn 5 (RefPlatform.world_of_len (2 ^ 28)))))
                     (after_shuffle 5 (RefPlatform.world_of_len (2 ^ 28)))) /\
  fillShuffledIndexes (2 ^ 31) 3 42 (RefPlatform.world_of_len (2 ^ 28)) = Undefined.
Proof.
  split.
  - apply (shuffled_defined_when_fits 2 5 42 (RefPlatform.world_of_len (2 ^ 28))
             (mkBlock (2 ^ 28) fresh_cells)).
    + reflexivity.
    + cbn [blk_len]. lia.
    + unfold U32.modulus. lia.
    + unfold U32.modulus. lia.
    + unfold fits, U32.modulus. cbn [blk_len]. lia.
  - apply (shuffled_defined_when_fits (2 ^ 31) 3 42 (RefPlatform.world_of_len (2 ^ 28))
             (mkBlock (2 ^ 28) fresh_cells)).
    + reflexivity.
    + cbn [blk_len]. lia.
    + unfold U32.modulus. lia.
    + unfold U32.modulus. lia.
    + unfold fits. cbn [blk_len]. lia.
Defined.
